(** * EventViewer poster analyzer

    A shallow embedding of the parts of [poster_analyzer] that carry logic:
    the data model ([data_models.py]), the scraper with its page clean-up and
    its merge engine ([web_scraper.py]), the analysis of a poster with the
    enrichment wrapper and the quality pass ([analyzer.py]), the reply parser
    ([claude_client.py]), the detection of QR codes and URLs with the URL
    filter ([qr_detector.py]), and the export loop of the batch command
    ([main.py]).

    What the libraries do (OpenCV, pyzbar, [validators], [json], pydantic,
    the HTTP session, the HTML parser, the Claude API) enters as a variable
    of the section that uses it; the theorems hold for every behaviour of
    these.

    Conventions.
    - A Python [str] is the list of its code points.
    - A Python [float] is read as an exact rational ([Q]); prices parsed from
      text are kept in lowest terms so that equal numbers are equal terms.
      The sums and means of the confidence are thus computed without the
      rounding of a double: model and program agree up to the rounding of
      each operation, and what is proved about the confidence are bounds,
      orderings and the expressions that are evaluated.
    - Truthiness ([if x], [not x], [x or y]) is the class [Truthy].
    - What Python takes from the Unicode character database (case mapping,
      digit and space classes) is the class [UnicodeData]; every theorem holds
      for every instance, and [latin1] is the instance used to run examples. *)

From Stdlib Require Import QArith Qminmax Lqa Lia Ascii String.
From stdpp Require Import gmap list strings.

Set Warnings "-register-all".

(** ** Python values *)

Definition str := list N.

(** An ASCII literal as a [str]. *)
Definition lit (s : string) : str := N_of_ascii <$> list_ascii_of_string s.

Class UnicodeData := {
  cp_lower : N -> list N;      (* [str.lower], one code point at a time *)
  cp_isdigit : N -> bool;      (* [str.isdigit] *)
  cp_decimal : N -> option N;  (* value of a decimal digit: [\d], [float] *)
  cp_isspace : N -> bool;      (* [\s] *)
  cp_isword : N -> bool        (* [\w], used by [\b] *)
}.

Definition in_range (lo hi c : N) : bool := ((lo <=? c) && (c <=? hi))%N.
Definition one_of (cs : list N) (c : N) : bool := bool_decide (c ∈ cs).

(** Basic Latin and Latin-1 Supplement. *)
Definition latin1_lower (c : N) : list N :=
  if in_range 65 90 c || (in_range 192 222 c && negb (c =? 215)%N)
  then [(c + 32)%N] else [c].
Definition latin1_decimal (c : N) : option N :=
  if in_range 48 57 c then Some (c - 48)%N else None.
Definition latin1_isdigit (c : N) : bool :=
  in_range 48 57 c || one_of [178; 179; 185]%N c.
Definition latin1_isspace (c : N) : bool :=
  in_range 9 13 c || in_range 28 32 c || one_of [133; 160]%N c.
Definition latin1_isword (c : N) : bool :=
  in_range 48 57 c || in_range 65 90 c || in_range 97 122 c || (c =? 95)%N
  || one_of [170; 178; 179; 181; 185; 186; 188; 189; 190]%N c
  || in_range 192 214 c || in_range 216 246 c || in_range 248 255 c.

Definition latin1 : UnicodeData :=
  {| cp_lower := latin1_lower; cp_isdigit := latin1_isdigit;
     cp_decimal := latin1_decimal; cp_isspace := latin1_isspace;
     cp_isword := latin1_isword |}.

(** [bool(x)] *)
Class Truthy (A : Type) := truthy : A -> bool.
Global Instance truthy_bool : Truthy bool := fun b => b.
Global Instance truthy_list {A} : Truthy (list A) :=
  fun l => match l with [] => false | _ :: _ => true end.
Global Instance truthy_float : Truthy Q := fun q => negb (Qeq_bool q 0).
Global Instance truthy_option {A} `{Truthy A} : Truthy (option A) :=
  fun o => match o with Some a => truthy a | None => false end.

(** [min(a, b)]: the first argument unless the second is smaller. *)
Definition py_min (a b : Q) : Q := if Qlt_le_dec b a then b else a.

(** A [datetime] object; every such object is truthy. *)
Record datetime := { timestamp : Z }.
Global Instance truthy_datetime : Truthy datetime := fun _ => true.

(** ** data_models.py *)

Inductive EventKategorie :=
  MUSIK | COMEDY | ESSEN | PARTY | THEATER | SPORT | WORKSHOP | FESTIVAL
| KULTUR | ANDERE.

Global Instance EventKategorie_eq_dec : EqDecision EventKategorie.
Proof. solve_decision. Defined.

Definition value (k : EventKategorie) : str :=
  match k with
  | MUSIK => lit "musik" | COMEDY => lit "comedy" | ESSEN => lit "essen"
  | PARTY => lit "party" | THEATER => lit "theater" | SPORT => lit "sport"
  | WORKSHOP => lit "workshop" | FESTIVAL => lit "festival"
  | KULTUR => lit "kultur" | ANDERE => lit "andere"
  end.
(** [EventKategorie] is a [str] subclass: its truth value is that of [value]. *)
Global Instance truthy_kategorie : Truthy EventKategorie :=
  fun k => truthy (value k).

Record Ort := {
  veranstaltungsort : option str;
  adresse : option str;
  stadt : option str;
  postleitzahl : option str;
  bundesland : option str }.

Record Termine := {
  beginn : option datetime;
  ende : option datetime;
  einlass : option datetime }.

Record Preise := {
  kostenlos : bool;
  preis : option Q;
  waehrung : str;
  vorverkauf : option Q;
  abendkasse : option Q }.

Record Kuenstler := { name : str; info : option str }.

(** [TicketInfo.telefon] is [ticket_telefon] here: [telefon] is [Kontakt]'s. *)
Record TicketInfo := {
  verkaufsstellen : list str;
  online_links : list str;
  ticket_telefon : option str }.

Record Kontakt := {
  veranstalter : option str;
  telefon : option str;
  email : option str;
  website : option str }.

Record Metadaten := {
  kuenstler : list Kuenstler;
  ticketinfo : TicketInfo;
  kontakt : Kontakt;
  quellen : list str;
  vertrauenswuerdigkeit : Q }.

Record EventData := {
  veranstaltungsname : str;
  ort : Ort;
  termine : Termine;
  preise : Preise;
  beschreibung : option str;
  kategorie : EventKategorie;
  metadaten : Metadaten;
  erkannte_links : list str;
  erkannte_qr_codes : list str;
  sprache : str }.

(** Field defaults of the models. *)
Definition Ort_default : Ort := Build_Ort None None None None None.
Definition Termine_default : Termine := Build_Termine None None None.
Definition Preise_default : Preise :=
  Build_Preise false None (lit "EUR") None None.
Definition TicketInfo_default : TicketInfo := Build_TicketInfo [] [] None.
Definition Kontakt_default : Kontakt := Build_Kontakt None None None None.
Definition Metadaten_default : Metadaten :=
  Build_Metadaten [] TicketInfo_default Kontakt_default [] 0.
(** [EventData(veranstaltungsname=n)] *)
Definition EventData_default (n : str) : EventData :=
  Build_EventData n Ort_default Termine_default Preise_default None ANDERE
    Metadaten_default [] [] (lit "de").

(** Attribute assignment, one function per assigned attribute. *)
Definition set_adresse v (o : Ort) : Ort :=
  Build_Ort (veranstaltungsort o) v (stadt o) (postleitzahl o) (bundesland o).
Definition set_postleitzahl v (o : Ort) : Ort :=
  Build_Ort (veranstaltungsort o) (adresse o) (stadt o) v (bundesland o).
Definition set_stadt v (o : Ort) : Ort :=
  Build_Ort (veranstaltungsort o) (adresse o) v (postleitzahl o) (bundesland o).
Definition set_preis v (p : Preise) : Preise :=
  Build_Preise (kostenlos p) v (waehrung p) (vorverkauf p) (abendkasse p).
Definition set_kostenlos v (p : Preise) : Preise :=
  Build_Preise v (preis p) (waehrung p) (vorverkauf p) (abendkasse p).
Definition set_email v (k : Kontakt) : Kontakt :=
  Build_Kontakt (veranstalter k) (telefon k) v (website k).
Definition set_telefon v (k : Kontakt) : Kontakt :=
  Build_Kontakt (veranstalter k) v (email k) (website k).
Definition set_website v (k : Kontakt) : Kontakt :=
  Build_Kontakt (veranstalter k) (telefon k) (email k) v.
Definition set_online_links v (t : TicketInfo) : TicketInfo :=
  Build_TicketInfo (verkaufsstellen t) v (ticket_telefon t).
Definition set_ticketinfo v (m : Metadaten) : Metadaten :=
  Build_Metadaten (kuenstler m) v (kontakt m) (quellen m)
    (vertrauenswuerdigkeit m).
Definition set_kontakt v (m : Metadaten) : Metadaten :=
  Build_Metadaten (kuenstler m) (ticketinfo m) v (quellen m)
    (vertrauenswuerdigkeit m).
Definition set_quellen v (m : Metadaten) : Metadaten :=
  Build_Metadaten (kuenstler m) (ticketinfo m) (kontakt m) v
    (vertrauenswuerdigkeit m).
Definition set_vertrauenswuerdigkeit v (m : Metadaten) : Metadaten :=
  Build_Metadaten (kuenstler m) (ticketinfo m) (kontakt m) (quellen m) v.
Definition set_ort v (e : EventData) : EventData :=
  Build_EventData (veranstaltungsname e) v (termine e) (preise e)
    (beschreibung e) (kategorie e) (metadaten e) (erkannte_links e)
    (erkannte_qr_codes e) (sprache e).
Definition set_preise v (e : EventData) : EventData :=
  Build_EventData (veranstaltungsname e) (ort e) (termine e) v
    (beschreibung e) (kategorie e) (metadaten e) (erkannte_links e)
    (erkannte_qr_codes e) (sprache e).
Definition set_metadaten v (e : EventData) : EventData :=
  Build_EventData (veranstaltungsname e) (ort e) (termine e) (preise e)
    (beschreibung e) (kategorie e) v (erkannte_links e)
    (erkannte_qr_codes e) (sprache e).

(** [event_data.metadaten.vertrauenswuerdigkeit] *)
Definition confidence (e : EventData) : Q :=
  vertrauenswuerdigkeit (metadaten e).
Definition set_confidence (c : Q) (e : EventData) : EventData :=
  set_metadaten (set_vertrauenswuerdigkeit c (metadaten e)) e.

(** [Ort.validate_plz]: [inl] is the raised [ValueError]. *)
Definition isdigit `{UnicodeData} (v : str) : bool :=
  truthy v && forallb cp_isdigit v.

Definition validate_plz `{UnicodeData} (v : str) : string + str :=
  if truthy v && negb (isdigit v && bool_decide (length v = 5%nat))
  then inl "PLZ must be 5 digits"%string
  else inr v.

(** [Preise.validate_positive_price]: [inl] is the raised [ValueError]. *)
Definition validate_positive_price (v : option Q) : string + option Q :=
  match v with
  | Some x =>
      if Qlt_le_dec x 0 then inl "Price must be positive"%string else inr v
  | None => inr v
  end.

(** ** analyzer.py: the quality pass *)

(** The list [quality_factors] as [_assess_data_quality] builds it. *)
Definition quality_factors (event_data : EventData) : list str :=
  let qf : list str := [] in
  let qf := if truthy (veranstaltungsname event_data)
            then qf ++ [lit "event_name"] else qf in
  let qf := if truthy (veranstaltungsort (ort event_data))
               || truthy (adresse (ort event_data))
            then qf ++ [lit "location"] else qf in
  let qf := if truthy (beginn (termine event_data))
            then qf ++ [lit "datetime"] else qf in
  let qf := if truthy (kostenlos (preise event_data))
               || truthy (preis (preise event_data))
            then qf ++ [lit "pricing"] else qf in
  let qf := if truthy (telefon (kontakt (metadaten event_data)))
               || truthy (email (kontakt (metadaten event_data)))
               || truthy (website (kontakt (metadaten event_data)))
            then qf ++ [lit "contact"] else qf in
  let qf := if truthy (erkannte_qr_codes event_data)
               || truthy (erkannte_links event_data)
            then qf ++ [lit "sources"] else qf in
  let qf := if truthy (kategorie event_data)
               && negb (bool_decide (value (kategorie event_data) = lit "andere"))
            then qf ++ [lit "category"] else qf in
  qf.

Definition quality_score (event_data : EventData) : Q :=
  inject_Z (Z.of_nat (length (quality_factors event_data))) / 7.

(** The record after the call (the method updates it in place). *)
Definition _assess_data_quality (event_data : EventData) : EventData :=
  let quality_score := quality_score event_data in
  if Qlt_le_dec (confidence event_data) quality_score
  then set_confidence
         (py_min 1 ((confidence event_data + quality_score) / 2)) event_data
  else event_data.

(** ** Python's [re]: a backtracking matcher

    [re.search] tries every start position from the left; at a position
    alternatives are tried in order and quantifiers are greedy, giving way on
    failure.  The matcher is written with a success continuation so that the
    first successful path is the one Python reports. *)

Inductive regex :=
| Eps
| One (p : N -> bool)                          (* one character of a class *)
| Cat (r1 r2 : regex)
| Alt (r1 r2 : regex)                          (* [r1|r2] *)
| Rep (r : regex) (lo : nat) (hi : option nat) (* [r{lo,hi}], greedy *)
| Grp (i : nat) (r : regex)                    (* capturing group [i] *)
| WordB.                                       (* [\b] *)

Definition chr (c : N) : regex := One (N.eqb c).
Definition star (r : regex) : regex := Rep r 0 None.
Definition plus (r : regex) : regex := Rep r 1 None.
Definition opt (r : regex) : regex := Rep r 0 (Some 1%nat).
Definition times (n : nat) (r : regex) : regex := Rep r n (Some n).
Definition seq (rs : list regex) : regex := foldr Cat Eps rs.
Definition word (s : string) : regex := seq (chr <$> lit s).

(** Position in the text: what lies before (nearest first), what lies ahead,
    and the groups captured on the way here. *)
Record mstate := {
  seen : list N;
  ahead : list N;
  groups : list (nat * str) }.

Definition consumed (st st' : mstate) : str :=
  take (length (ahead st) - length (ahead st')) (ahead st).

Definition at_boundary `{UnicodeData} (st : mstate) : bool :=
  let w (l : list N) := match l with c :: _ => cp_isword c | [] => false end in
  negb (eqb (w (seen st)) (w (ahead st))).

(** The loop of a greedy counted repetition of [body]: another round first,
    then (if the lower bound is met) the rest of the pattern. *)
Fixpoint rep_loop (body : mstate -> (mstate -> option mstate) -> option mstate)
    (k : mstate -> option mstate) (fuel lo : nat) (hi : option nat)
    (st : mstate) {struct fuel} : option mstate :=
  let stop := match lo with O => k st | S _ => None end in
  match fuel, hi with
  | O, _ => stop
  | _, Some O => stop
  | S fuel', _ =>
      match body st (fun st1 =>
              (* a round has to consume something *)
              if decide (length (ahead st1) < length (ahead st))%nat
              then rep_loop body k fuel' (pred lo) (pred <$> hi) st1
              else None) with
      | Some m => Some m
      | None => stop
      end
  end.

Fixpoint bt `{UnicodeData} (r : regex) (st : mstate)
    (k : mstate -> option mstate) : option mstate :=
  match r with
  | Eps => k st
  | One p =>
      match ahead st with
      | c :: t => if p c
                  then k {| seen := c :: seen st; ahead := t;
                            groups := groups st |}
                  else None
      | [] => None
      end
  | Cat r1 r2 => bt r1 st (fun st1 => bt r2 st1 k)
  | Alt r1 r2 =>
      match bt r1 st k with
      | Some m => Some m
      | None => bt r2 st k
      end
  | Grp i r1 =>
      bt r1 st (fun st1 =>
        k {| seen := seen st1; ahead := ahead st1;
             groups := (i, consumed st st1) :: groups st1 |})
  | WordB => if at_boundary st then k st else None
  | Rep r1 lo hi => rep_loop (bt r1) k (S (length (ahead st))) lo hi st
  end.

(** A match object: [group(0)] and the numbered groups that took part. *)
Record Match := { group0 : str; captures : list (nat * str) }.

(** [m.group(i)], [None] when group [i] took no part in the match. *)
Definition group (m : Match) (i : nat) : option str :=
  snd <$> head (filter (fun g => fst g = i) (captures m)).

Fixpoint scan `{UnicodeData} (r : regex) (before text : list N)
    : option Match :=
  let st := {| seen := before; ahead := text; groups := [] |} in
  match bt r st Some with
  | Some st' => Some {| group0 := consumed st st'; captures := groups st' |}
  | None =>
      match text with
      | [] => None
      | c :: t => scan r (c :: before) t
      end
  end.

(** [re.search(pattern, text)] *)
Definition re_search `{UnicodeData} (pattern : regex) (text : str)
    : option Match :=
  scan pattern [] text.

Section patterns.
Context `{UnicodeData}.

Definition d : regex := One (fun c => bool_decide (is_Some (cp_decimal c))).
Definition s : regex := One cp_isspace.
Definition cls (ranges : list (N * N)) (singles : list N) : regex :=
  One (fun c => existsb (fun r => in_range (fst r) (snd r) c) ranges
                || one_of singles c).

(** [(\d+(?:,\d+)?)] as group [i] *)
Definition amount (i : nat) : regex :=
  Grp i (Cat (plus d) (opt (Cat (chr 44) (plus d)))).

(** [(\d+(?:,\d+)?)\s*€|euro?\s*(\d+(?:,\d+)?)] *)
Definition price_pattern : regex :=
  Alt (seq [amount 1; star s; chr 8364])
      (seq [word "eur"; opt (chr 111); star s; amount 2]).

(** [[A-ZÄÖÜ][a-zäöüß\-]+] *)
Definition capitalized : regex :=
  Cat (cls [(65, 90)]%N [196; 214; 220]%N)
      (plus (cls [(97, 122)]%N [228; 246; 252; 223; 45]%N)).

(** The address pattern, with [C] for [[A-ZÄÖÜ][a-zäöüß\-]+]:
    group 1 is [C] followed by any number of [\s+C]; then
    [\s+(\d+[a-z]?),?\s*(\d{5})\s+(C)]. *)
Definition address_pattern : regex :=
  seq [Grp 1 (Cat capitalized (star (Cat (plus s) capitalized)));
       plus s;
       Grp 2 (Cat (plus d) (opt (cls [(97, 122)]%N [])));
       opt (chr 44); star s;
       Grp 3 (times 5 d);
       plus s;
       Grp 4 capitalized].

(** [\b[A-Za-z0-9._%+-]+@[A-Za-z0-9.-]+\.[A-Z|a-z]{2,}\b] *)
Definition email_pattern : regex :=
  seq [WordB;
       plus (cls [(65, 90); (97, 122); (48, 57)]%N [46; 95; 37; 43; 45]%N);
       chr 64;
       plus (cls [(65, 90); (97, 122); (48, 57)]%N [46; 45]%N);
       chr 46;
       Rep (cls [(65, 90); (97, 122)]%N [124]%N) 2 None;
       WordB].

(** [(?:\+49|0)[\s\-]?\d{2,5}[\s\-]?\d{3,8}] *)
Definition phone_pattern : regex :=
  let sep := One (fun c => cp_isspace c || (c =? 45)%N) in
  seq [Alt (word "+49") (chr 48);
       opt sep; Rep d 2 (Some 5%nat);
       opt sep; Rep d 3 (Some 8%nat)].
End patterns.

(** ** String helpers *)

(** [s.lower()] *)
Definition lower `{UnicodeData} (s : str) : str := s ≫= cp_lower.

(** [s.startswith(prefix)] *)
Fixpoint startswith (prefix s : str) : bool :=
  match prefix, s with
  | [], _ => true
  | p :: prefix', c :: s' => (p =? c)%N && startswith prefix' s'
  | _ :: _, [] => false
  end.

(** [needle in s] *)
Fixpoint contains (needle s : str) : bool :=
  startswith needle s
  || match s with [] => false | _ :: s' => contains needle s' end.

(** [s.replace(old, new)] for one-character [old] and [new] *)
Definition replace (old new : N) (s : str) : str :=
  (fun c => if (c =? old)%N then new else c) <$> s.

(** The text before the first [c], and what follows it if [c] occurs. *)
Fixpoint break_at (c : N) (s : str) : str * option str :=
  match s with
  | [] => ([], None)
  | x :: t =>
      if (x =? c)%N then ([], Some t)
      else let '(a, b) := break_at c t in (x :: a, b)
  end.

Definition digits_value (ds : list N) : N :=
  foldl (fun acc dg => 10 * acc + dg)%N 0%N ds.

(** [float(s)] on unsigned decimal literals (digits, at most one point, at
    least one digit), which is what the price pattern can hand to it; [None]
    is [ValueError].  The value is kept in lowest terms. *)
Definition py_float `{UnicodeData} (s : str) : option Q :=
  let '(ip, fp) := break_at 46 s in
  match mapM cp_decimal ip, mapM cp_decimal (default [] fp) with
  | Some i, Some f =>
      if truthy (i ++ f)
      then Some (Qred (Z.of_N (digits_value (i ++ f))
                       # Z.to_pos (10 ^ Z.of_nat (length f))))
      else None
  | _, _ => None
  end.

(** [a or b] *)
Definition py_or {A} `{Truthy A} (a b : A) : A := if truthy a then a else b.

(** ** The scraped page signal

    The dict built by [_scrape_single_url].  The merge engine reads
    ['text_content'] with a default and ['url'] by subscript, so for these two
    [None] stands for an absent key. *)

Inductive json :=
| JNull
| JBool (b : bool)
| JNum (q : Q)
| JStr (s : str)
| JArr (xs : list json)
| JObj (kv : list (str * json)).

Record Scraped := {
  url : option str;
  title : option str;
  text_content : option str;
  structured_data : json;
  meta_data : list (str * str) }.

(** ** Programs over the record being enhanced

    The merge engine works by attribute assignment on one [EventData] object
    and its sub-objects.  A program is a tree of loads and stores on the parts
    of that object the engine touches; an exception leaves the stores made so
    far in place.  The same program is run on a record value ([run]) and on
    an object graph in a store ([hrun], further down). *)

Inductive exn :=
  KeyError | ValueError | TypeError | AttributeError | ValidationError
| JSONDecodeError | OtherException.

Inductive part : Type -> Type :=
| P_preise : part Preise                (* [event_data.preise] *)
| P_ort : part Ort                      (* [event_data.ort] *)
| P_kontakt : part Kontakt              (* [event_data.metadaten.kontakt] *)
| P_online_links : part (list str)      (* [….metadaten.ticketinfo.online_links] *)
| P_quellen : part (list str)           (* [event_data.metadaten.quellen] *)
| P_vertrauenswuerdigkeit : part Q.     (* [….metadaten.vertrauenswuerdigkeit] *)

Inductive prog (A : Type) : Type :=
| Ret (a : A)
| Raise (e : exn)
| Load {T} (p : part T) (k : T -> prog A)
| Store {T} (p : part T) (v : T) (k : prog A).
Arguments Ret {A} a.
Arguments Raise {A} e.
Arguments Load {A T} p k.
Arguments Store {A T} p v k.

Fixpoint prog_bind {A B} (f : A -> prog B) (m : prog A) : prog B :=
  match m with
  | Ret a => f a
  | Raise e => Raise e
  | Load p k => Load p (fun x => prog_bind f (k x))
  | Store p v k => Store p v (prog_bind f k)
  end.
Global Instance prog_ret : MRet prog := @Ret.
Global Instance prog_mbind : MBind prog := @prog_bind.

(** [try: m except Exception as e: h e] *)
Fixpoint try_except {A} (m : prog A) (h : exn -> prog A) : prog A :=
  match m with
  | Ret a => Ret a
  | Raise e => h e
  | Load p k => Load p (fun x => try_except (k x) h)
  | Store p v k => Store p v (try_except k h)
  end.

Definition load {T} (p : part T) : prog T := Load p Ret.
(** [obj.attr = v], where [f] sets [attr] on the part [p] *)
Definition assign {T} (p : part T) (f : T -> T) : prog unit :=
  Load p (fun x => Store p (f x) (Ret tt)).
(** [scraped['url']] *)
Definition getitem_url (scraped : Scraped) : prog str :=
  match url scraped with Some u => Ret u | None => Raise KeyError end.
(** [for x in xs: body x] *)
Fixpoint for_each {X} (xs : list X) (body : X -> prog unit) : prog unit :=
  match xs with
  | [] => Ret tt
  | x :: xs' => body x ;; for_each xs' body
  end.
Definition pass : prog unit := Ret tt.

(** *** The record as a value *)

Definition get_part {T} (p : part T) : EventData -> T :=
  match p in part T return EventData -> T with
  | P_preise => preise
  | P_ort => ort
  | P_kontakt => fun e => kontakt (metadaten e)
  | P_online_links => fun e => online_links (ticketinfo (metadaten e))
  | P_quellen => fun e => quellen (metadaten e)
  | P_vertrauenswuerdigkeit => confidence
  end.

Definition set_part {T} (p : part T) : T -> EventData -> EventData :=
  match p in part T return T -> EventData -> EventData with
  | P_preise => set_preise
  | P_ort => set_ort
  | P_kontakt => fun v e => set_metadaten (set_kontakt v (metadaten e)) e
  | P_online_links => fun v e =>
      set_metadaten
        (set_ticketinfo (set_online_links v (ticketinfo (metadaten e)))
           (metadaten e)) e
  | P_quellen => fun v e => set_metadaten (set_quellen v (metadaten e)) e
  | P_vertrauenswuerdigkeit => set_confidence
  end.

(** The record after the program, and its result or the exception raised. *)
Fixpoint run {A} (m : prog A) (e : EventData) : EventData * (exn + A) :=
  match m with
  | Ret a => (e, inr a)
  | Raise x => (e, inl x)
  | Load p k => run (k (get_part p e)) e
  | Store p v k => run k (set_part p v e)
  end.

(** ** web_scraper.py: the merge engine *)

Section merge.
Context `{UnicodeData}.

(** [self.event_keywords['tickets']] *)
Definition ticket_keywords : list str :=
  [lit "tickets"; lit "karten"; lit "vorverkauf"; lit "reservierung";
   lit "buchung"].

(** [scraped.get('text_content', '')] *)
Definition get_text_content (scraped : Scraped) : str :=
  default [] (text_content scraped).

Definition _merge_event_info (scraped : Scraped) : prog unit :=
  let text := lower (get_text_content scraped) in
  (* Extract prices if missing *)
  p ← load P_preise;
  (if negb (truthy (preis p)) && negb (truthy (kostenlos p)) then
     match re_search price_pattern text with
     | Some price_match =>
         match py_or (group price_match 1) (group price_match 2) with
         | Some price_str =>
             match py_float (replace 44 46 price_str) with
             | Some price =>
                 assign P_preise (set_preis (Some price)) ;;
                 assign P_preise (set_kostenlos false)
             | None => pass           (* except ValueError *)
             end
         | None => Raise AttributeError
         end
     | None => Ret tt
     end
   else Ret tt) ;;
  (* Extract location info if missing *)
  o ← load P_ort;
  if negb (truthy (adresse o)) then
    match re_search address_pattern text with
    | Some address_match =>
        (* all four groups take part in every match of this pattern *)
        let street := default [] (group address_match 1) in
        let number := default [] (group address_match 2) in
        let plz := default [] (group address_match 3) in
        let city := default [] (group address_match 4) in
        assign P_ort (set_adresse (Some (street ++ lit " " ++ number))) ;;
        assign P_ort (set_postleitzahl (Some plz)) ;;
        assign P_ort (set_stadt (Some city))
    | None => Ret tt
    end
  else Ret tt.

Definition _merge_contact_info (scraped : Scraped) : prog unit :=
  let text := get_text_content scraped in
  (* Extract email *)
  k ← load P_kontakt;
  (if negb (truthy (email k)) then
     match re_search email_pattern text with
     | Some email_match =>
         assign P_kontakt (set_email (Some (group0 email_match)))
     | None => Ret tt
     end
   else Ret tt) ;;
  (* Extract phone numbers *)
  k ← load P_kontakt;
  (if negb (truthy (telefon k)) then
     match re_search phone_pattern text with
     | Some phone_match =>
         assign P_kontakt (set_telefon (Some (group0 phone_match)))
     | None => Ret tt
     end
   else Ret tt) ;;
  (* Extract website *)
  k ← load P_kontakt;
  if negb (truthy (website k)) then
    u ← getitem_url scraped;
    assign P_kontakt (set_website (Some u))
  else Ret tt.

(** The keyword loop of [_merge_ticket_info]; it stops at the first keyword
    found in the text. *)
Fixpoint ticket_keyword_loop (keywords : list str) (text : str)
    (scraped : Scraped) : prog unit :=
  match keywords with
  | [] => Ret tt
  | keyword :: keywords' =>
      if contains keyword text then
        u ← getitem_url scraped;
        links ← load P_online_links;
        (if negb (bool_decide (u ∈ links)) then
           (* [append] inside [try: ... except: pass] *)
           try_except (assign P_online_links (fun l => l ++ [u]))
                      (fun _ => pass)
         else Ret tt)
        (* break *)
      else ticket_keyword_loop keywords' text scraped
  end.

Definition _merge_ticket_info (scraped : Scraped) : prog unit :=
  let text := lower (get_text_content scraped) in
  ticket_keyword_loop ticket_keywords text scraped.

Definition _merge_artist_info (scraped : Scraped) : prog unit := pass.

(** The body of the loop of [_merge_scraped_data], with its handler. *)
Definition merge_signal (data : Scraped) : prog unit :=
  try_except
    (_merge_event_info data ;;
     _merge_contact_info data ;;
     _merge_ticket_info data ;;
     _merge_artist_info data ;;
     (* Add source *)
     u ← getitem_url data;
     q ← load P_quellen;
     if negb (bool_decide (u ∈ q))
     then assign P_quellen (fun l => l ++ [u])
     else Ret tt)
    (fun _ => pass (* logger.error *)).

Definition source_bonus (scraped_data : list Scraped) : Q :=
  py_min (2 # 10) (inject_Z (Z.of_nat (length scraped_data)) * (5 # 100)).

(** [_merge_scraped_data] from the line after the copy to the [return]. *)
Definition merge_program (scraped_data : list Scraped) : prog unit :=
  for_each scraped_data merge_signal ;;
  (* Update confidence score based on additional sources *)
  if truthy scraped_data then
    original_confidence ← load P_vertrauenswuerdigkeit;
    assign P_vertrauenswuerdigkeit
      (fun _ => py_min 1 (original_confidence + source_bonus scraped_data))
  else Ret tt.

(** [_merge_scraped_data] on record values: [copy(deep=True)] of a value is
    the value.  [inl] is an exception leaving the method. *)
Definition _merge_scraped_data (event_data : EventData)
    (scraped_data : list Scraped) : exn + EventData :=
  let enhanced := event_data in
  match run (merge_program scraped_data) enhanced with
  | (enhanced, inr _) => inr enhanced
  | (_, inl e) => inl e
  end.
End merge.

(** ** The record as an object graph

    [EventData] and its nested models and lists are separate objects, held by
    reference.  [Kuenstler] entries are never assigned to by any code here and
    are kept by value inside their list. *)

Abbreviation loc := positive (only parsing).

Inductive obj :=
| OList (items : list str)
| OKuenstlerList (items : list Kuenstler)
| OOrt (o : Ort)
| OTermine (t : Termine)
| OPreise (p : Preise)
| OKontakt (k : Kontakt)
| OTicketInfo (l_verkaufsstellen l_online_links : loc) (tel : option str)
| OMetadaten (l_kuenstler l_ticketinfo l_kontakt l_quellen : loc) (v : Q)
| OEventData (n : str) (l_ort l_termine l_preise : loc)
    (b : option str) (k : EventKategorie)
    (l_metadaten l_erkannte_links l_erkannte_qr_codes : loc) (sp : str).

Abbreviation heap := (gmap loc obj) (only parsing).

Definition alloc (o : obj) (h : heap) : loc * heap :=
  let l := fresh (dom h) in (l, <[l := o]> h).

(** [copy.deepcopy] of an object without references. *)
Definition copy_leaf (h : heap) (l : loc) : option (loc * heap) :=
  match h !! l with
  | Some (OList xs) => Some (alloc (OList xs) h)
  | Some (OKuenstlerList xs) => Some (alloc (OKuenstlerList xs) h)
  | Some (OOrt o) => Some (alloc (OOrt o) h)
  | Some (OTermine t) => Some (alloc (OTermine t) h)
  | Some (OPreise p) => Some (alloc (OPreise p) h)
  | Some (OKontakt k) => Some (alloc (OKontakt k) h)
  | _ => None
  end.

Definition copy_ticketinfo (h : heap) (l : loc) : option (loc * heap) :=
  match h !! l with
  | Some (OTicketInfo lv ll tel) =>
      '(lv', h) ← copy_leaf h lv;
      '(ll', h) ← copy_leaf h ll;
      Some (alloc (OTicketInfo lv' ll' tel) h)
  | _ => None
  end.

Definition copy_metadaten (h : heap) (l : loc) : option (loc * heap) :=
  match h !! l with
  | Some (OMetadaten lk lt lc lq v) =>
      '(lk', h) ← copy_leaf h lk;
      '(lt', h) ← copy_ticketinfo h lt;
      '(lc', h) ← copy_leaf h lc;
      '(lq', h) ← copy_leaf h lq;
      Some (alloc (OMetadaten lk' lt' lc' lq' v) h)
  | _ => None
  end.

(** [event_data.copy(deep=True)]: a new object for the model, for every
    nested model and for every list; [None] only on a store that does not
    hold a well-formed record at [l]. *)
Definition deep_copy (h : heap) (l : loc) : option (loc * heap) :=
  match h !! l with
  | Some (OEventData n lo lt lp b k lm ll lq sp) =>
      '(lo', h) ← copy_leaf h lo;
      '(lt', h) ← copy_leaf h lt;
      '(lp', h) ← copy_leaf h lp;
      '(lm', h) ← copy_metadaten h lm;
      '(ll', h) ← copy_leaf h ll;
      '(lq', h) ← copy_leaf h lq;
      Some (alloc (OEventData n lo' lt' lp' b k lm' ll' lq' sp) h)
  | _ => None
  end.

(** The object that holds part [p] of the record at [l]. *)
Definition locate {T} (p : part T) (h : heap) (l : loc) : option loc :=
  match h !! l with
  | Some (OEventData _ lo _ lp _ _ lm _ _ _) =>
      match p with
      | P_preise => Some lp
      | P_ort => Some lo
      | P_vertrauenswuerdigkeit => Some lm
      | P_kontakt =>
          match h !! lm with
          | Some (OMetadaten _ _ lc _ _) => Some lc
          | _ => None
          end
      | P_quellen =>
          match h !! lm with
          | Some (OMetadaten _ _ _ lq _) => Some lq
          | _ => None
          end
      | P_online_links =>
          match h !! lm with
          | Some (OMetadaten _ lt _ _ _) =>
              match h !! lt with
              | Some (OTicketInfo _ ll _) => Some ll
              | _ => None
              end
          | _ => None
          end
      end
  | _ => None
  end.

Definition read_part {T} (p : part T) (o : obj) : option T :=
  match p in part T, o return option T with
  | P_preise, OPreise v => Some v
  | P_ort, OOrt v => Some v
  | P_kontakt, OKontakt v => Some v
  | P_online_links, OList v => Some v
  | P_quellen, OList v => Some v
  | P_vertrauenswuerdigkeit, OMetadaten _ _ _ _ v => Some v
  | _, _ => None
  end.

Definition write_part {T} (p : part T) (v : T) (o : obj) : option obj :=
  match p in part T, o return T -> option obj with
  | P_preise, OPreise _ => fun v => Some (OPreise v)
  | P_ort, OOrt _ => fun v => Some (OOrt v)
  | P_kontakt, OKontakt _ => fun v => Some (OKontakt v)
  | P_online_links, OList _ => fun v => Some (OList v)
  | P_quellen, OList _ => fun v => Some (OList v)
  | P_vertrauenswuerdigkeit, OMetadaten a b c e _ =>
      fun v => Some (OMetadaten a b c e v)
  | _, _ => fun _ => None
  end v.

Definition hload {T} (p : part T) (h : heap) (l : loc) : option T :=
  lo ← locate p h l; o ← h !! lo; read_part p o.

Definition hstore {T} (p : part T) (v : T) (h : heap) (l : loc)
    : option heap :=
  lo ← locate p h l; o ← h !! lo; o' ← write_part p v o;
  Some (<[lo := o']> h).

(** The program run on the record object at [l]. *)
Fixpoint hrun {A} (m : prog A) (l : loc) (h : heap)
    : option (heap * (exn + A)) :=
  match m with
  | Ret a => Some (h, inr a)
  | Raise x => Some (h, inl x)
  | Load p k => v ← hload p h l; hrun (k v) l h
  | Store p v k => h' ← hstore p v h l; hrun k l h'
  end.

(** ** web_scraper.py and analyzer.py on objects *)

Section enrichment.
Context `{UnicodeData}.

(** [WebScraper._merge_scraped_data]: the store after the call and the
    object returned (or the exception). *)
Definition h_merge_scraped_data (h : heap) (event_data : loc)
    (scraped_data : list Scraped) : option (heap * (exn + loc)) :=
  '(enhanced, h) ← deep_copy h event_data;
  '(h, r) ← hrun (merge_program scraped_data) enhanced h;
  Some (h, match r with inr _ => inr enhanced | inl e => inl e end).

(** What the outside world does during one enrichment phase: whether
    opening or closing the scraper's session raises, and what
    [_scrape_urls] yields for the URLs. *)
Record World := {
  enter_raises : bool;
  scrape_urls : list str -> exn + list Scraped;
  exit_raises : bool }.

Variable world : World.

(** [WebScraper.enhance_event_data] *)
Definition h_enhance_event_data (h : heap) (event_data : loc)
    (urls : list str) : option (heap * (exn + loc)) :=
  if negb (truthy urls) then Some (h, inr event_data)
  else
    match scrape_urls world urls with
    | inl e => Some (h, inl e)
    | inr scraped_data => h_merge_scraped_data h event_data scraped_data
    end.

(** The [try] body of [_enhance_with_web_scraping]: the [async with]
    block, from [__aenter__] to [__aexit__]. *)
Definition enrichment_phase (h : heap) (event_data : loc)
    (urls : list str) : option (heap * (exn + loc)) :=
  if enter_raises world then Some (h, inl OtherException)
  else
    '(h, r) ← h_enhance_event_data h event_data urls;
    match r with
    | inl e => Some (h, inl e)
    | inr enhanced_data =>
        if exit_raises world then Some (h, inl OtherException)
        else Some (h, inr enhanced_data)
    end.

(** [PosterAnalyzer._enhance_with_web_scraping] *)
Definition h_enhance_with_web_scraping (h : heap) (event_data : loc)
    (urls : list str) : option (heap * loc) :=
  '(h, r) ← enrichment_phase h event_data urls;
  match r with
  | inr enhanced_data => Some (h, enhanced_data)
  | inl _ => Some (h, event_data)        (* except Exception *)
  end.
End enrichment.

(** The object graph of a record: where each of its objects lives. *)
Record Layout := {
  at_event : loc; at_ort : loc; at_termine : loc; at_preise : loc;
  at_metadaten : loc; at_kuenstler : loc; at_ticketinfo : loc;
  at_verkaufsstellen : loc; at_online_links : loc; at_kontakt : loc;
  at_quellen : loc; at_erkannte_links : loc; at_erkannte_qr_codes : loc }.

Definition objects (ly : Layout) : list loc :=
  [at_event ly; at_ort ly; at_termine ly; at_preise ly; at_metadaten ly;
   at_kuenstler ly; at_ticketinfo ly; at_verkaufsstellen ly;
   at_online_links ly; at_kontakt ly; at_quellen ly; at_erkannte_links ly;
   at_erkannte_qr_codes ly].

(** The store holds the record [e] at layout [ly], no object shared. *)
Record holds (h : heap) (ly : Layout) (e : EventData) : Prop := {
  holds_event :
    h !! at_event ly =
      Some (OEventData (veranstaltungsname e) (at_ort ly) (at_termine ly)
              (at_preise ly) (beschreibung e) (kategorie e) (at_metadaten ly)
              (at_erkannte_links ly) (at_erkannte_qr_codes ly) (sprache e));
  holds_ort : h !! at_ort ly = Some (OOrt (ort e));
  holds_termine : h !! at_termine ly = Some (OTermine (termine e));
  holds_preise : h !! at_preise ly = Some (OPreise (preise e));
  holds_metadaten :
    h !! at_metadaten ly =
      Some (OMetadaten (at_kuenstler ly) (at_ticketinfo ly) (at_kontakt ly)
              (at_quellen ly) (vertrauenswuerdigkeit (metadaten e)));
  holds_kuenstler :
    h !! at_kuenstler ly = Some (OKuenstlerList (kuenstler (metadaten e)));
  holds_ticketinfo :
    h !! at_ticketinfo ly =
      Some (OTicketInfo (at_verkaufsstellen ly) (at_online_links ly)
              (ticket_telefon (ticketinfo (metadaten e))));
  holds_verkaufsstellen :
    h !! at_verkaufsstellen ly =
      Some (OList (verkaufsstellen (ticketinfo (metadaten e))));
  holds_online_links :
    h !! at_online_links ly =
      Some (OList (online_links (ticketinfo (metadaten e))));
  holds_kontakt : h !! at_kontakt ly = Some (OKontakt (kontakt (metadaten e)));
  holds_quellen : h !! at_quellen ly = Some (OList (quellen (metadaten e)));
  holds_erkannte_links :
    h !! at_erkannte_links ly = Some (OList (erkannte_links e));
  holds_erkannte_qr_codes :
    h !! at_erkannte_qr_codes ly = Some (OList (erkannte_qr_codes e));
  holds_separate : NoDup (objects ly) }.

(** ** claude_client.py: the reply parser *)

(** [s.find(c)] and [s.rfind(c)] for a one-character [c]: an index or [-1]. *)
Fixpoint find_from (c : N) (s : str) (i : Z) : Z :=
  match s with
  | [] => (-1)%Z
  | x :: t => if (x =? c)%N then i else find_from c t (i + 1)%Z
  end.
Definition find (c : N) (s : str) : Z := find_from c s 0.

Fixpoint rfind_from (c : N) (s : str) (i last : Z) : Z :=
  match s with
  | [] => last
  | x :: t => rfind_from c t (i + 1)%Z (if (x =? c)%N then i else last)
  end.
Definition rfind (c : N) (s : str) : Z := rfind_from c s 0 (-1).

(** [s[a:b]] for [a], [b] that are not negative *)
Definition slice (s : str) (a b : Z) : str :=
  take (Z.to_nat (b - a)) (drop (Z.to_nat a) s).

Definition truthy_json (j : json) : bool :=
  match j with
  | JNull => false
  | JBool b => b
  | JNum q => truthy q
  | JStr s => truthy s
  | JArr xs => truthy xs
  | JObj kv => truthy kv
  end.
Global Instance truthy_json_inst : Truthy json := truthy_json.

(** A decoded object as a dict: [d[key]], [key in d] and [d[key] = v]. *)
Fixpoint dict_get (key : str) (d : list (str * json)) : option json :=
  match d with
  | [] => None
  | (k, v) :: d' => if decide (k = key) then Some v else dict_get key d'
  end.
Fixpoint dict_set (key : str) (v : json) (d : list (str * json))
    : list (str * json) :=
  match d with
  | [] => [(key, v)]
  | (k, w) :: d' =>
      if decide (k = key) then (k, v) :: d' else (k, w) :: dict_set key v d'
  end.

Section claude_client.
(** [json.loads]; [inl JSONDecodeError] or another exception on failure. *)
Variable json_loads : str -> exn + json.
(** [EventData.from_dict]; [inl] is a validation error. *)
Variable from_dict : json -> exn + EventData.

Definition json_text (response_text : str) : str :=
  slice response_text (find 123 response_text)
    (rfind 125 response_text + 1).

(** The [try] body of [_parse_response]. *)
Definition parse_body (response_text : str) (qr_codes urls : list str)
    : exn + option EventData :=
  let json_start := find 123 response_text in
  let json_end := (rfind 125 response_text + 1)%Z in
  if (json_start =? -1)%Z || (json_end =? 0)%Z then
    inr None                      (* "No JSON found in Claude response" *)
  else
    match json_loads (slice response_text json_start json_end) with
    | inl e => inl e
    | inr (JObj event_dict) =>
        let event_dict :=
          if truthy qr_codes
          then dict_set (lit "erkannte_qr_codes") (JArr (JStr <$> qr_codes))
                 event_dict
          else event_dict in
        let event_dict :=
          if truthy urls
          then dict_set (lit "erkannte_links") (JArr (JStr <$> urls))
                 event_dict
          else event_dict in
        match dict_get (lit "veranstaltungsname") event_dict with
        | None => inr None        (* key not in the dict *)
        | Some n =>
            if negb (truthy n) then inr None
            else
              match from_dict (JObj event_dict) with
              | inl e => inl e
              | inr event_data => inr (Some event_data)
              end
        end
    | inr _ =>
        (* a decoded value that is no dict: the statements that follow
           either reach [return None] or raise [TypeError]; the caller
           sees [None] in both cases *)
        inl TypeError
    end.

(** [_parse_response]: [inl] would be an exception reaching the caller. *)
Definition _parse_response (response_text : str) (qr_codes urls : list str)
    : exn + option EventData :=
  match parse_body response_text qr_codes urls with
  | inr r => inr r
  | inl JSONDecodeError => inr None    (* except json.JSONDecodeError *)
  | inl _ => inr None                  (* except Exception *)
  end.
End claude_client.

(** ** qr_detector.py: the URL filter *)

(** [list.sort(key=key)] for a Boolean key: a stable sort, [False] first. *)
Fixpoint insert_by {A} (key : A -> bool) (x : A) (l : list A) : list A :=
  match l with
  | [] => [x]
  | y :: l' =>
      if negb (key y) && key x then y :: insert_by key x l' else x :: l
  end.
Definition sort_by {A} (key : A -> bool) (l : list A) : list A :=
  foldr (insert_by key) [] l.

Section qr_detector.
Context `{UnicodeData}.
(** [validators.url], as a truth value *)
Variable validators_url : str -> bool.

Definition german_domains : list str := [lit ".de"; lit ".at"; lit ".ch"].

(** [any(domain in x.lower() for domain in german_domains)] *)
Definition any_german_domain (x : str) : bool :=
  existsb (fun domain => contains domain (lower x)) german_domains.

(** The [for] loop of [validate_german_urls], [valid_urls] being the list
    built so far. *)
Fixpoint collect_valid (urls valid_urls : list str) : list str :=
  match urls with
  | [] => valid_urls
  | url :: urls' =>
      if validators_url url then collect_valid urls' (valid_urls ++ [url])
      else if any_german_domain url then
        (* Try to fix common URL issues *)
        if negb (startswith (lit "http://") url
                 || startswith (lit "https://") url) then
          let fixed_url := lit "https://" ++ url in
          if validators_url fixed_url
          then collect_valid urls' (valid_urls ++ [fixed_url])
          else collect_valid urls' valid_urls
        else collect_valid urls' valid_urls
      else collect_valid urls' valid_urls
  end.

Definition validate_german_urls (urls : list str) : list str :=
  let valid_urls := collect_valid urls [] in
  (* Sort by German domains first *)
  sort_by (fun x => negb (any_german_domain x)) valid_urls.

(** The acceptance rule in the words of the specification: a candidate is
    accepted as it is when it is a well-formed absolute URL, and with a
    scheme put in front when it contains a fragment of [german_domains] and
    that makes it well-formed. *)
Definition accepted_spec (url : str) : option str :=
  if validators_url url then Some url
  else if any_german_domain url && validators_url (lit "https://" ++ url)
  then Some (lit "https://" ++ url)
  else None.
End qr_detector.

(** An object without references to other objects. *)
Definition leaf (o : obj) : bool :=
  match o with
  | OList _ | OKuenstlerList _ | OOrt _ | OTermine _ | OPreise _
  | OKontakt _ => true
  | OTicketInfo _ _ _ | OMetadaten _ _ _ _ _
  | OEventData _ _ _ _ _ _ _ _ _ _ => false
  end.

(** ** Sample data *)

Definition euro : N := 8364.

(** A page with the text "Eintritt 35,50€, Tel: +49 89 1234567,
    info@test.de". *)
Definition sample_page : Scraped :=
  {| url := Some (lit "https://test.de");
     title := Some (lit "Event Details");
     text_content :=
       Some (lit "Eintritt 35,50" ++ [euro]
             ++ lit ", Tel: +49 89 1234567, info@test.de");
     structured_data := JObj [];
     meta_data := [] |}.

(** [{name: "Rock Concert", confidence: 0.85}] *)
Definition rock_concert : EventData :=
  set_confidence (85 # 100) (EventData_default (lit "Rock Concert")).

(** The same with [preis = 0.0] (and [kostenlos = False]). *)
Definition zero_price_event : EventData :=
  set_preise (set_preis (Some 0%Q) Preise_default) rock_concert.

(** A record whose price, address and contact channels are all set. *)
Definition filled_event : EventData :=
  set_metadaten
    (set_kontakt
       (Build_Kontakt None (Some (lit "+49 30 1234567"))
          (Some (lit "kontakt@example.de")) (Some (lit "https://example.de")))
       (metadaten rock_concert))
    (set_ort
       (Build_Ort (Some (lit "Halle")) (Some (lit "Musterweg 1"))
          (Some (lit "Berlin")) (Some (lit "10115")) None)
       (set_preise (set_preis (Some (20 # 1)%Q) Preise_default) rock_concert)).

(** The objects of record [e], put into the store [h] at layout [ly]. *)
Definition store_record (ly : Layout) (e : EventData) (h : heap) : heap :=
  <[at_event ly :=
      OEventData (veranstaltungsname e) (at_ort ly) (at_termine ly)
        (at_preise ly) (beschreibung e) (kategorie e) (at_metadaten ly)
        (at_erkannte_links ly) (at_erkannte_qr_codes ly) (sprache e)]>
  (<[at_ort ly := OOrt (ort e)]>
  (<[at_termine ly := OTermine (termine e)]>
  (<[at_preise ly := OPreise (preise e)]>
  (<[at_metadaten ly :=
       OMetadaten (at_kuenstler ly) (at_ticketinfo ly) (at_kontakt ly)
         (at_quellen ly) (vertrauenswuerdigkeit (metadaten e))]>
  (<[at_kuenstler ly := OKuenstlerList (kuenstler (metadaten e))]>
  (<[at_ticketinfo ly :=
       OTicketInfo (at_verkaufsstellen ly) (at_online_links ly)
         (ticket_telefon (ticketinfo (metadaten e)))]>
  (<[at_verkaufsstellen ly :=
       OList (verkaufsstellen (ticketinfo (metadaten e)))]>
  (<[at_online_links ly := OList (online_links (ticketinfo (metadaten e)))]>
  (<[at_kontakt ly := OKontakt (kontakt (metadaten e))]>
  (<[at_quellen ly := OList (quellen (metadaten e))]>
  (<[at_erkannte_links ly := OList (erkannte_links e)]>
  (<[at_erkannte_qr_codes ly := OList (erkannte_qr_codes e)]> h)))))))))))).

Definition sample_layout : Layout :=
  Build_Layout 1 2 3 4 5 6 7 8 9 10 11 12 13.

(** A store that holds [rock_concert] and nothing else. *)
Definition sample_store : heap :=
  store_record sample_layout rock_concert ∅.

(** A world in which the page is fetched and merged, and closing the
    scraper's session then raises. *)
Definition failing_world : World :=
  {| enter_raises := false;
     scrape_urls := fun _ => inr [sample_page];
     exit_raises := true |}.

(** A validator that knows four well-formed URLs, and the candidates of the
    repository's test of [validate_german_urls]. *)
Definition sample_validator (u : str) : bool :=
  bool_decide (u ∈ [lit "https://example.com"; lit "https://events.de";
                    lit "https://www.tickets.de"; lit "https://venue.at"]).

Definition sample_urls : list str :=
  [lit "https://example.com"; lit "https://events.de"; lit "www.tickets.de";
   lit "invalid-url"; lit "https://venue.at"].

(** A reply decoder and a record builder to run the parser on: the decoder
    knows the empty object and the object whose only entry is an empty event
    name, and rejects every other text. *)
Definition quoted (s : str) : str := [34%N] ++ s ++ [34%N].

Definition empty_name_object : str :=
  lit "{" ++ quoted (lit "veranstaltungsname") ++ lit ": " ++ quoted []
    ++ lit "}".

Definition sample_json_loads (s : str) : exn + json :=
  if decide (s = lit "{}") then inr (JObj [])
  else if decide (s = empty_name_object)
       then inr (JObj [(lit "veranstaltungsname", JStr [])])
       else inl JSONDecodeError.

(** A reply object with an event name, and a decoder that knows it too. *)
Definition named_object : str :=
  lit "{" ++ quoted (lit "veranstaltungsname") ++ lit ": "
    ++ quoted (lit "Rock Night") ++ lit "}".

Definition sample_decoder (s : str) : exn + json :=
  if decide (s = named_object)
  then inr (JObj [(lit "veranstaltungsname", JStr (lit "Rock Night"))])
  else sample_json_loads s.

Definition sample_from_dict (j : json) : exn + EventData :=
  match j with
  | JObj d =>
      match dict_get (lit "veranstaltungsname") d with
      | Some (JStr n) => inr (EventData_default n)
      | _ => inl ValidationError
      end
  | _ => inl ValidationError
  end.

(** ** Statements of the specification, in its own words *)

(** The seven completeness factors of the quality pass: name present,
    location present, datetime present, pricing present, any contact channel
    present, any QR/URL evidence present, category not the catch-all.
    "Present" is Python's truth value of the field. *)
Definition completeness_factors (e : EventData) : list bool :=
  [ truthy (veranstaltungsname e);
    truthy (veranstaltungsort (ort e)) || truthy (adresse (ort e));
    truthy (beginn (termine e));
    kostenlos (preise e) || truthy (preis (preise e));
    truthy (telefon (kontakt (metadaten e)))
    || truthy (email (kontakt (metadaten e)))
    || truthy (website (kontakt (metadaten e)));
    truthy (erkannte_qr_codes e) || truthy (erkannte_links e);
    bool_decide (kategorie e <> ANDERE) ].

(** [k], the number of factors that hold. *)
Definition factors_holding (e : EventData) : nat :=
  length (filter (fun b => b = true) (completeness_factors e)).

(** One call of the pipeline on a record: an enrichment merge with some
    signals, or the quality pass. *)
Inductive Call :=
| MergeCall (scraped_data : list Scraped)
| QualityCall.

Definition apply_call `{UnicodeData} (c : Call) (e : EventData)
    : exn + EventData :=
  match c with
  | MergeCall scraped_data => _merge_scraped_data e scraped_data
  | QualityCall => inr (_assess_data_quality e)
  end.

Fixpoint apply_calls `{UnicodeData} (cs : list Call) (e : EventData)
    : exn + EventData :=
  match cs with
  | [] => inr e
  | c :: cs' =>
      match apply_call c e with
      | inr e' => apply_calls cs' e'
      | inl x => inl x
      end
  end.

(** ** The merge rules in closed form

    What one signal does to each part of the record, as a function of that
    part alone.  [merge_step_run] below shows that running [merge_signal]
    has exactly this effect. *)

(** A rule that fills a part only while the part still wants a value. *)
Definition fill {S V : Type} (wanted : S -> bool)
    (offer : Scraped -> option V) (put : V -> S -> S)
    (s : Scraped) (x : S) : S :=
  if wanted x then
    match offer s with Some v => put v x | None => x end
  else x.

(** [l.append(u)] unless [u in l] *)
Definition add_new (u : str) (l : list str) : list str :=
  if bool_decide (u ∈ l) then l else l ++ [u].

(** A rule applied for every signal in turn. *)
Definition steps {S : Type} (rule : Scraped -> S -> S) (x : S)
    (l : list Scraped) : S :=
  foldl (fun x s => rule s x) x l.

(** [p] replaced by [f] of its current value. *)
Definition update {T} (p : part T) (f : T -> T) (e : EventData) : EventData :=
  set_part p (f (get_part p e)) e.

Section rules.
Context `{UnicodeData}.

Definition price_offer (s : Scraped) : option Q :=
  price_match ← re_search price_pattern (lower (get_text_content s));
  price_str ← py_or (group price_match 1) (group price_match 2);
  py_float (replace 44 46 price_str).

Definition price_wanted (p : Preise) : bool :=
  negb (truthy (preis p)) && negb (truthy (kostenlos p)).

Definition price_rule : Scraped -> Preise -> Preise :=
  fill price_wanted price_offer
    (fun v p => set_kostenlos false (set_preis (Some v) p)).

Definition address_offer (s : Scraped) : option (str * str * str) :=
  m ← re_search address_pattern (lower (get_text_content s));
  Some (default [] (group m 1) ++ lit " " ++ default [] (group m 2),
        default [] (group m 3), default [] (group m 4)).

Definition address_rule : Scraped -> Ort -> Ort :=
  fill (fun o => negb (truthy (adresse o))) address_offer
    (fun '(a, plz, city) o =>
       set_stadt (Some city) (set_postleitzahl (Some plz)
         (set_adresse (Some a) o))).

Definition email_offer (s : Scraped) : option str :=
  group0 <$> re_search email_pattern (get_text_content s).
Definition phone_offer (s : Scraped) : option str :=
  group0 <$> re_search phone_pattern (get_text_content s).

(** Filling an optional string attribute. *)
Definition fill_str (offer : Scraped -> option str)
    : Scraped -> option str -> option str :=
  fill (fun x => negb (truthy x)) offer (fun v _ => Some v).

Definition kontakt_rule (s : Scraped) (k : Kontakt) : Kontakt :=
  Build_Kontakt (veranstalter k)
    (fill_str phone_offer s (telefon k))
    (fill_str email_offer s (email k))
    (fill_str url s (website k)).

Definition mentions_tickets (s : Scraped) : bool :=
  existsb (fun keyword => contains keyword (lower (get_text_content s)))
    ticket_keywords.

Definition links_rule (s : Scraped) (l : list str) : list str :=
  match url s with
  | Some u => if mentions_tickets s then add_new u l else l
  | None => l
  end.

Definition quellen_rule (s : Scraped) (l : list str) : list str :=
  match url s with Some u => add_new u l | None => l end.

Definition merge_step (s : Scraped) (e : EventData) : EventData :=
  update P_quellen (quellen_rule s)
    (update P_online_links (links_rule s)
       (update P_kontakt (kontakt_rule s)
          (update P_ort (address_rule s)
             (update P_preise (price_rule s) e)))).

(** All signals in turn. *)
Definition merge_steps (e : EventData) (scraped_data : list Scraped)
    : EventData :=
  steps merge_step e scraped_data.
End rules.

(** The fields of the record that lie outside every [part]. *)
Definition outside (e : EventData) :=
  (veranstaltungsname e, termine e, beschreibung e, kategorie e,
   kuenstler (metadaten e), verkaufsstellen (ticketinfo (metadaten e)),
   ticket_telefon (ticketinfo (metadaten e)),
   erkannte_links e, erkannte_qr_codes e, sprache e).

(** A pattern without capturing groups. *)
Fixpoint no_groups (r : regex) : bool :=
  match r with
  | Grp _ _ => false
  | Cat r1 r2 | Alt r1 r2 => no_groups r1 && no_groups r2
  | Rep r1 _ _ => no_groups r1
  | Eps | One _ | WordB => true
  end.

(** How a successful run of a matcher from [st] reaches its continuation:
    at some later position [st'], with the same groups. *)
Definition passes_on (strict : bool)
    (body : mstate -> (mstate -> option mstate) -> option mstate) : Prop :=
  forall st k m, body st k = Some m ->
    exists st', k st' = Some m /\ groups st' = groups st
      /\ (if strict then length (ahead st') < length (ahead st)
          else length (ahead st') <= length (ahead st))%nat.

(** The fields of the parts that no rule assigns to. *)
Definition unassigned (e : EventData) :=
  (kostenlos (preise e), waehrung (preise e), vorverkauf (preise e),
   abendkasse (preise e), veranstaltungsort (ort e), bundesland (ort e),
   veranstalter (kontakt (metadaten e))).

(** The capital letters of the address pattern: [[A-ZÄÖÜ]]. *)
Definition capital (c : N) : bool :=
  in_range 65 90 c || one_of [196; 214; 220]%N c.

(** ** web_scraper.py and analyzer.py on record values

    The enrichment step as a function of the record it is given: the value
    of the object it returns.  [enhancement_agrees] below shows that this is
    what the step on objects returns. *)

Section enrichment_values.
Context `{UnicodeData}.
Variable world : World.

(** [WebScraper.enhance_event_data] *)
Definition enhance_event_data (event_data : EventData) (urls : list str)
    : exn + EventData :=
  if negb (truthy urls) then inr event_data
  else
    match scrape_urls world urls with
    | inl e => inl e
    | inr scraped_data => _merge_scraped_data event_data scraped_data
    end.

(** [PosterAnalyzer._enhance_with_web_scraping] *)
Definition _enhance_with_web_scraping (event_data : EventData)
    (urls : list str) : EventData :=
  if enter_raises world then event_data          (* except Exception *)
  else
    match enhance_event_data event_data urls with
    | inl _ => event_data                        (* except Exception *)
    | inr enhanced_data =>
        if exit_raises world then event_data     (* except Exception *)
        else enhanced_data
    end.
End enrichment_values.

(** ** web_scraper.py: the text of a page *)

(** [x] put in front of the first item of a list of strings. *)
Definition cons_head (c : N) (l : list str) : list str :=
  match l with
  | p :: ps => (c :: p) :: ps
  | [] => [[c]]
  end.

(** The line boundaries of [str.splitlines]. *)
Definition is_linebreak (c : N) : bool :=
  one_of [10; 11; 12; 13; 28; 29; 30; 133; 8232; 8233]%N c.

(** [s.splitlines()]: the lines without their boundaries; a carriage return
    followed by a line feed is one boundary, and a boundary at the very end
    opens no further line. *)
Fixpoint splitlines (s : str) : list str :=
  match s with
  | [] => []
  | c :: t =>
      if is_linebreak c then
        [] :: match t with
              | c' :: t' =>
                  if (c =? 13)%N && (c' =? 10)%N then splitlines t'
                  else splitlines t
              | [] => splitlines t
              end
      else cons_head c (splitlines t)
  end.

(** [s.split("  ")]: the pieces between the occurrences of two spaces,
    found from the left. *)
Fixpoint split_double_space (s : str) : list str :=
  match s with
  | [] => [[]]
  | c :: t =>
      match t with
      | c' :: t' =>
          if (c =? 32)%N && (c' =? 32)%N then [] :: split_double_space t'
          else cons_head c (split_double_space t)
      | [] => cons_head c (split_double_space t)
      end
  end.

(** [sep.join(l)] *)
Fixpoint join (sep : str) (l : list str) : str :=
  match l with
  | [] => []
  | [x] => x
  | x :: l' => x ++ sep ++ join sep l'
  end.

Section text.
Context `{UnicodeData}.

(** [s.lstrip()], [s.rstrip()] and [s.strip()] *)
Fixpoint lstrip (s : str) : str :=
  match s with
  | c :: t => if cp_isspace c then lstrip t else s
  | [] => []
  end.
Definition rstrip (s : str) : str := reverse (lstrip (reverse s)).
Definition strip (s : str) : str := rstrip (lstrip s).

(** The clean-up of [_extract_text_content], from [text = soup.get_text()]
    to the [return]. *)
Definition clean_text (text : str) : str :=
  let lines := strip <$> splitlines text in
  let chunks := strip <$> (lines ≫= split_double_space) in
  join (lit " ") (filter (fun chunk => truthy chunk = true) chunks).
End text.

(** The text has no two spaces in a row. *)
Abbreviation single_spaced s := (contains (lit "  ") s = false).

Section text_shape.
Context `{UnicodeData}.

(** A text that neither starts nor ends with white space. *)
Definition trimmed (s : str) : Prop :=
  match head s with Some c => cp_isspace c = false | None => True end
  /\ match last s with Some c => cp_isspace c = false | None => True end.

(** A chunk as the clean-up keeps it. *)
Definition chunk_ok (chunk : str) : Prop :=
  chunk <> [] /\ trimmed chunk /\ single_spaced chunk
  /\ Forall (fun c => is_linebreak c = false) chunk.
End text_shape.

(** ** web_scraper.py: fetching the pages *)

(** What the parsed page of a response gives to the extraction methods: the
    text of the [title] tag if there is one, [soup.get_text()] once scripts
    and styles are removed, the structured data and the meta tags. *)
Record Page := {
  title_tag : option str;
  page_text : str;
  page_structured_data : json;
  page_meta_data : list (str * str) }.

(** The response to a GET request; [inl] stands for an exception raised
    while the body is read or parsed. *)
Record Response := {
  status : Z;
  page : exn + Page }.

Section scraping.
Context `{UnicodeData}.
(** [validators.url], as a truth value *)
Variable validators_url : str -> bool.
(** [self.session.get(url, headers=headers)]; [inl] is an exception raised
    by the request. *)
Variable session_get : str -> exn + Response.

(** [title_tag.get_text().strip() if title_tag else None] *)
Definition _extract_title (soup : Page) : option str :=
  strip <$> title_tag soup.

Definition _extract_text_content (soup : Page) : str :=
  clean_text (page_text soup).

(** [_scrape_single_url]: the dict of a page, or [None]. *)
Definition _scrape_single_url (u : str) : option Scraped :=
  match session_get u with
  | inl _ => None                                   (* except Exception *)
  | inr response =>
      if negb (status response =? 200)%Z then None
      else
        match page response with
        | inl _ => None                             (* except Exception *)
        | inr soup =>
            Some {| url := Some u;
                    title := _extract_title soup;
                    text_content := Some (_extract_text_content soup);
                    structured_data := page_structured_data soup;
                    meta_data := page_meta_data soup |}
        end
  end.

(** [_scrape_urls]: [asyncio.gather] yields one result per task, in the order
    of the tasks. *)
Definition _scrape_urls (urls : list str) : list Scraped :=
  let valid_urls := filter (fun u => validators_url u = true) urls in
  if negb (truthy valid_urls) then []
  else
    let results := _scrape_single_url <$> valid_urls in
    (* Filter out exceptions and None results *)
    omap id results.
End scraping.

(** The network of an enrichment phase in which the pages are fetched by
    [_scrape_urls]; [enter] and [exit] tell whether opening and closing the
    session raise. *)
Definition scraping_world `{UnicodeData} (validators_url : str -> bool)
    (session_get : str -> exn + Response) (enter exit : bool) : World :=
  {| enter_raises := enter;
     scrape_urls :=
       fun urls => inr (_scrape_urls validators_url session_get urls);
     exit_raises := exit |}.

(** ** analyzer.py: the analysis of a poster *)

Section analyzer.
Context `{UnicodeData}.
(** [self.enable_web_scraping] *)
Variable enable_web_scraping : bool.
(** [validators.url], as a truth value *)
Variable validators_url : str -> bool.
(** [Path(image_path).exists()] *)
Variable path_exists : str -> bool.
(** [self.qr_detector.detect_all(image_path)]; [inl] is an exception. *)
Variable qr_detector_detect_all : str -> exn + (list str * list str).
(** [self.claude_analyzer.analyze_poster(image_path, qr_codes, valid_urls)],
    which catches every exception itself and then returns [None]. *)
Variable claude_analyze_poster :
  str -> list str -> list str -> option EventData.
(** The network during the enrichment phase. *)
Variable world : World.

(** The [try] body of [analyze_poster]. *)
Definition analyze_body (image_path : str) : exn + option EventData :=
  if negb (path_exists image_path) then inr None
  else
    (* Phase 1: QR Code and URL Detection *)
    match qr_detector_detect_all image_path with
    | inl e => inl e
    | inr (qr_codes, urls) =>
        let valid_urls := validate_german_urls validators_url urls in
        (* Phase 2: Claude AI Analysis *)
        match claude_analyze_poster image_path qr_codes valid_urls with
        | None => inr None
        | Some event_data =>
            (* Phase 3: Web Scraping Enhancement (if enabled) *)
            let event_data :=
              if enable_web_scraping && truthy valid_urls
              then _enhance_with_web_scraping world event_data valid_urls
              else event_data in
            (* Phase 4: Final Quality Assessment *)
            let event_data := _assess_data_quality event_data in
            inr (Some event_data)
        end
    end.

(** [PosterAnalyzer.analyze_poster]: [inl] would be an exception reaching
    the caller. *)
Definition analyze_poster (image_path : str) : exn + option EventData :=
  match analyze_body image_path with
  | inr r => inr r
  | inl _ => inr None                                (* except Exception *)
  end.

(** [PosterAnalyzer.analyze_multiple_posters]: [asyncio.gather] with
    [return_exceptions=True] yields, in the order of the paths, what each
    analysis returned or the exception it raised. *)
Definition analyze_multiple_posters (image_paths : list str)
    : list EventData :=
  let results := analyze_poster <$> image_paths in
  (* Filter successful results *)
  foldl (fun event_data_list result =>
           match result with
           | inr (Some event_data) => event_data_list ++ [event_data]
           | _ => event_data_list
           end) [] results.
End analyzer.

(** ** qr_detector.py: detection *)

(** The three entries of [self.url_patterns]: URLs with an http or https
    scheme, [www.] domains under a few top-level domains, and e-mail
    addresses. *)
Inductive url_pattern := StandardUrl | WwwDomain | EmailAddress.

Definition url_patterns : list url_pattern :=
  [StandardUrl; WwwDomain; EmailAddress].

(** The loops of [detect_qr_codes] over the QR codes found in one image and
    over the preprocessed images.  An item [inl] is an exception raised at
    that point ([pyzbar.decode] for an image, [qr.data.decode('utf-8')] for a
    code); it ends the loops. *)
Fixpoint collect_codes (qr_codes : list (exn + str)) (qr_data : list str)
    : exn + list str :=
  match qr_codes with
  | [] => inr qr_data
  | inl e :: _ => inl e
  | inr decoded_data :: qr_codes' =>
      collect_codes qr_codes' (add_new decoded_data qr_data)
  end.

Fixpoint collect_images (preprocessed_images : list (exn + list (exn + str)))
    (qr_data : list str) : exn + list str :=
  match preprocessed_images with
  | [] => inr qr_data
  | inl e :: _ => inl e
  | inr qr_codes :: preprocessed_images' =>
      match collect_codes qr_codes qr_data with
      | inl e => inl e
      | inr qr_data => collect_images preprocessed_images' qr_data
      end
  end.

Section detection.
(** [validators.url] and [validators.domain], as truth values *)
Variable validators_url : str -> bool.
Variable validators_domain : str -> bool.
(** [re.findall(pattern, text, re.IGNORECASE)]; the patterns have no
    capturing group, so the items are the matched texts. *)
Variable re_findall_ignorecase : url_pattern -> str -> list str.
(** What OpenCV and pyzbar make of the image at a path in [detect_qr_codes]:
    an exception while the image is loaded and preprocessed, [None] for an
    image that cannot be read, or, for each preprocessed image, the decoded
    payloads of its QR codes. *)
Variable qr_scan : str -> exn + option (list (exn + list (exn + str))).
(** The image of [detect_urls_ocr] after loading and thresholding. *)
Variable ocr_threshold : str -> exn + option unit.
(** [list(set(urls))]: the order is that of the set's hash table. *)
Variable list_of_set : list str -> list str.

Definition detect_qr_codes (image_path : str) : list str :=
  match qr_scan image_path with
  | inl _ => []                                      (* except Exception *)
  | inr None => []                                   (* image is None *)
  | inr (Some preprocessed_images) =>
      match collect_images preprocessed_images [] with
      | inr qr_data => qr_data
      | inl _ => []                                  (* except Exception *)
      end
  end.

Definition detect_urls_ocr (image_path : str) : list str :=
  match ocr_threshold image_path with
  | inl _ => []                                      (* except Exception *)
  | inr None => []                                   (* image is None *)
  | inr (Some _) => []            (* OCR integration would go here *)
  end.

Definition extract_urls_from_text (text : str) : list str :=
  foldl (fun urls pattern =>
           let matches := re_findall_ignorecase pattern text in
           foldl (fun urls match_ =>
                    if validators_url match_ || validators_domain match_
                    then add_new match_ urls
                    else urls) urls matches)
    [] url_patterns.

Definition detect_all (image_path : str) : list str * list str :=
  let qr_codes := detect_qr_codes image_path in
  let urls := detect_urls_ocr image_path in
  (* Also extract URLs from QR code data *)
  let urls :=
    foldl (fun urls qr_data => urls ++ extract_urls_from_text qr_data)
      urls qr_codes in
  (* Remove duplicates *)
  let unique_urls := list_of_set urls in
  (qr_codes, unique_urls).
End detection.

(** The item is an exception. *)
Definition raised {A} (r : exn + A) : bool :=
  match r with inl _ => true | inr _ => false end.

(** Some item of a scan is an exception. *)
Definition scan_raises (preprocessed_images : list (exn + list (exn + str)))
    : Prop :=
  Exists (fun image =>
            match image with
            | inl _ => True
            | inr qr_codes => Exists (fun code => raised code = true) qr_codes
            end) preprocessed_images.

(** A detector to run on: [poster.jpg] shows one QR code, which is decoded
    from two of the preprocessed images and holds the address of an event
    page; no other image can be read.  The matcher finds a text that starts
    with a scheme, as a whole. *)
Definition sample_qr_scan (p : str)
    : exn + option (list (exn + list (exn + str))) :=
  if decide (p = lit "poster.jpg")
  then inr (Some [inr [inr (lit "https://events.de")]; inr [];
                  inr [inr (lit "https://events.de")]])
  else inr None.

Definition sample_findall (pattern : url_pattern) (text : str) : list str :=
  match pattern with
  | StandardUrl => if startswith (lit "https://") text then [text] else []
  | _ => []
  end.

Definition sample_detect_all (p : str) : list str * list str :=
  detect_all sample_validator (fun _ => false) sample_findall sample_qr_scan
    (fun _ => inr None) remove_dups p.

(** ** main.py: the export loop of [analyze_batch] *)

(** [zip(results, image_paths)]: the records the loop exports, each with the
    image path its file is named after. *)
Definition exported_pairs (results : list EventData) (image_paths : list str)
    : list (EventData * str) :=
  zip results image_paths.

(** An extractor and a network to run the analysis on: two images exist,
    [poster.jpg] is read as the rock concert, [blank.jpg] gives nothing. *)
Definition sample_path_exists (p : str) : bool :=
  bool_decide (p ∈ [lit "blank.jpg"; lit "poster.jpg"]).

Definition sample_extractor (p : str) (qr_codes urls : list str)
    : option EventData :=
  if decide (p = lit "poster.jpg") then Some rock_concert else None.

Definition sample_world : World :=
  {| enter_raises := false;
     scrape_urls := fun _ => inr [sample_page];
     exit_raises := false |}.

(** * Properties *)

(** ** Arithmetic of the confidence score *)

Lemma py_min_le_l (a b : Q) : (py_min a b <= a)%Q.
Proof. unfold py_min. destruct (Qlt_le_dec b a); lra. Qed.

Lemma py_min_le_r (a b : Q) : (py_min a b <= b)%Q.
Proof. unfold py_min. destruct (Qlt_le_dec b a); lra. Qed.

Lemma py_min_glb (a b c : Q) : (c <= a)%Q -> (c <= b)%Q -> (c <= py_min a b)%Q.
Proof. intros. unfold py_min. destruct (Qlt_le_dec b a); lra. Qed.

Lemma py_min_r (a b : Q) : (b < a)%Q -> py_min a b = b.
Proof. intros. unfold py_min. destruct (Qlt_le_dec b a); [done | lra]. Qed.

Lemma py_min_Qmin (a b : Q) : (py_min a b == Qmin a b)%Q.
Proof.
  unfold py_min. destruct (Qlt_le_dec b a).
  - symmetry. apply Q.min_r. lra.
  - symmetry. apply Q.min_l. lra.
Qed.

Lemma confidence_set_confidence c e : confidence (set_confidence c e) = c.
Proof. reflexivity. Qed.

Lemma set_confidence_same e : set_confidence (confidence e) e = e.
Proof. by destruct e as [? ? ? ? ? ? [] ? ? ?]. Qed.

(** ** The quality pass *)

Lemma length_snoc_if {A} (b : bool) (l : list A) (x : A) :
  length (if b then l ++ [x] else l) = (length l + Nat.b2n b)%nat.
Proof. destruct b; rewrite ?length_app; simpl; lia. Qed.

Lemma kategorie_factor (k : EventKategorie) :
  truthy k && negb (bool_decide (value k = lit "andere"))
  = bool_decide (k <> ANDERE).
Proof. by destruct k. Qed.

Lemma count_true_cons (b : bool) (l : list bool) :
  length (filter (fun b => b = true) (b :: l))
  = (Nat.b2n b + length (filter (fun b => b = true) l))%nat.
Proof. by destruct b. Qed.

Lemma quality_factors_length (e : EventData) :
  length (quality_factors e) = factors_holding e.
Proof.
  unfold quality_factors, factors_holding, completeness_factors.
  rewrite kategorie_factor, !length_snoc_if, !count_true_cons.
  change (truthy (kostenlos (preise e))) with (kostenlos (preise e)).
  simpl length. lia.
Qed.

Lemma quality_score_le_1 (e : EventData) : (quality_score e <= 1)%Q.
Proof.
  unfold quality_score. rewrite quality_factors_length.
  assert (factors_holding e <= 7)%nat as Hk.
  { unfold factors_holding.
    etrans; [apply length_filter|]. reflexivity. }
  assert (inject_Z (Z.of_nat (factors_holding e)) <= inject_Z 7)%Q as Hq.
  { rewrite <- Zle_Qle. lia. }
  apply Qle_shift_div_r; [reflexivity|].
  change (inject_Z 7) with 7%Q in Hq. lra.
Qed.

Lemma quality_score_nonneg (e : EventData) : (0 <= quality_score e)%Q.
Proof.
  unfold quality_score.
  apply Qle_shift_div_l; [reflexivity|].
  rewrite Qmult_0_l. change 0%Q with (inject_Z 0). rewrite <- Zle_Qle. lia.
Qed.

(** What the pass does to the confidence: nothing, or the mean with a
    larger quality score. *)
Lemma assess_confidence_cases (e : EventData) :
  confidence (_assess_data_quality e) = confidence e
  \/ ((confidence e < quality_score e)%Q
      /\ (confidence (_assess_data_quality e)
          == (confidence e + quality_score e) / 2)%Q).
Proof.
  unfold _assess_data_quality.
  pose proof (quality_score_le_1 e).
  destruct (Qlt_le_dec (confidence e) (quality_score e)); [right|by left].
  split; [done|]. rewrite confidence_set_confidence.
  rewrite py_min_r; [reflexivity|].
  apply Qlt_shift_div_r; [reflexivity|]. lra.
Qed.

(** C4.  The quality pass counts the [k] completeness factors that hold, takes
    [k/7] as quality score and, exactly when that exceeds the confidence, sets
    the confidence to the mean of the two, touching no other field; otherwise
    the record stays as it is.  A record in which only the name factor holds
    has quality score [1/7]. *)
Theorem assess_data_quality_spec (e : EventData) :
  let q := (inject_Z (Z.of_nat (factors_holding e)) / 7)%Q in
  quality_score e = q
  /\ ((confidence e < q)%Q ->
      exists c', _assess_data_quality e = set_confidence c' e
                 /\ (c' == (confidence e + q) / 2)%Q)
  /\ (~ (confidence e < q)%Q -> _assess_data_quality e = e)
  /\ (completeness_factors e = [true; false; false; false; false; false; false]
      -> (q == 1 / 7)%Q).
Proof.
  intros q.
  assert (quality_score e = q) as Hq.
  { unfold quality_score. by rewrite quality_factors_length. }
  split; [exact Hq|].
  pose proof (quality_score_le_1 e) as Hle. rewrite Hq in Hle.
  unfold _assess_data_quality. rewrite Hq.
  repeat split.
  - intros Hlt. destruct (Qlt_le_dec (confidence e) q); [|lra].
    eexists; split; [reflexivity|].
    rewrite py_min_r; [reflexivity|].
    apply Qlt_shift_div_r; [reflexivity|]. lra.
  - intros Hnlt. destruct (Qlt_le_dec (confidence e) q); [contradiction|done].
  - intros Hf. subst q. unfold factors_holding. rewrite Hf. reflexivity.
Qed.

Lemma assess_data_quality_spec_witness :
  let e := EventData_default (lit "Minimal Event") in
  quality_score e = (1 / 7)%Q
  /\ (confidence (_assess_data_quality e) == 1 / 14)%Q.
Proof.
  intros e.
  pose proof (assess_data_quality_spec e) as (Hq & Hup & _ & Hmin).
  split; [exact Hq|].
  destruct Hup as (c' & -> & Hc'); [reflexivity|].
  rewrite confidence_set_confidence, Hc'. reflexivity.
Defined.

(** C10.  The quality pass never lowers the confidence. *)
Theorem assess_data_quality_monotone (e : EventData) :
  (confidence e <= confidence (_assess_data_quality e))%Q.
Proof.
  destruct (assess_confidence_cases e) as [-> | [Hlt Heq]]; [lra|].
  rewrite Heq. apply Qle_shift_div_l; [reflexivity|]. lra.
Qed.

(** ** The matcher *)

Section matcher_facts.
Context `{UnicodeData}.

Lemma passes_on_weaken body : passes_on true body -> passes_on false body.
Proof.
  intros Hb st k m Hm. destruct (Hb st k m Hm) as (st' & ? & ? & ?).
  exists st'. repeat split; [done..|]. simpl in *. lia.
Qed.

Lemma rep_loop_passes_on body k fuel lo hi st m :
  passes_on false body ->
  rep_loop body k fuel lo hi st = Some m ->
  exists st', k st' = Some m /\ groups st' = groups st
    /\ (length (ahead st') <= length (ahead st))%nat
    /\ (0 < lo -> length (ahead st') < length (ahead st))%nat.
Proof.
  intros Hbody. revert lo hi st.
  induction fuel as [|fuel IH]; intros lo hi st Hm; simpl in Hm.
  - destruct lo; [|by destruct hi].
    exists st. repeat split; [by destruct hi|lia..].
  - assert (match lo with O => k st | S _ => None end = Some m ->
            exists st', k st' = Some m /\ groups st' = groups st
              /\ (length (ahead st') <= length (ahead st))%nat
              /\ (0 < lo -> length (ahead st') < length (ahead st))%nat)
      as Hstop.
    { destruct lo; [|done]. intros ?. exists st. repeat split; [done|lia..]. }
    destruct hi as [[|hi]|]; [by apply Hstop| |].
    all: match type of Hm with
         | match ?b with _ => _ end = _ => destruct b eqn:Hround
         end; [|by apply Hstop].
    all: simplify_eq; apply Hbody in Hround as (st1 & Hk & Hg & _).
    all: destruct (decide _) as [Hlt|]; [|done].
    all: apply IH in Hk as (st' & ? & Hg' & ? & _).
    all: exists st'; repeat split; [done|congruence|lia..].
Qed.

Lemma bt_passes_on (r : regex) :
  no_groups r = true -> passes_on false (bt r).
Proof.
  induction r as [|p|r1 IH1 r2 IH2|r1 IH1 r2 IH2|r1 IH1 lo hi|i r1 IH1|];
    intros Hng st k m Hm; simpl in Hng; cbn [bt] in Hm.
  - exists st. by repeat split.
  - destruct (ahead st) as [|c t] eqn:Ha; [done|].
    destruct (p c); [|done].
    eexists. split; [exact Hm|]. simpl. split; [done|lia].
  - apply andb_prop in Hng as [Hn1 Hn2].
    apply (IH1 Hn1) in Hm as (st1 & Hm & Hg1 & Hl1).
    apply (IH2 Hn2) in Hm as (st2 & Hm & Hg2 & Hl2).
    exists st2. repeat split; [done|congruence|lia].
  - apply andb_prop in Hng as [Hn1 Hn2].
    destruct (bt r1 st k) eqn:H1.
    + simplify_eq. by apply (IH1 Hn1) in H1.
    + by apply (IH2 Hn2) in Hm.
  - apply rep_loop_passes_on in Hm as (st' & ? & ? & ? & _); [|by apply IH1].
    by exists st'.
  - done.
  - destruct (at_boundary st); [|done]. exists st. by repeat split.
Qed.

Lemma bt_plus_passes_on (r : regex) :
  no_groups r = true -> passes_on true (bt (plus r)).
Proof.
  intros Hng st k m Hm. cbn [bt plus] in Hm.
  apply rep_loop_passes_on in Hm as (st' & ? & ? & _ & Hlt);
    [|by apply bt_passes_on].
  exists st'. repeat split; [done..|]. apply Hlt. lia.
Qed.

Lemma consumed_truthy (st st1 : mstate) :
  (length (ahead st1) < length (ahead st))%nat ->
  truthy (consumed st st1) = true.
Proof.
  unfold consumed. intros Hlt.
  destruct (ahead st) as [|c t]; simpl in *; [lia|].
  destruct (S (length t) - length (ahead st1))%nat eqn:Hd; [lia|done].
Qed.

Lemma bt_Cat r1 r2 st k :
  bt (Cat r1 r2) st k = bt r1 st (fun st1 => bt r2 st1 k).
Proof. reflexivity. Qed.

Lemma bt_Alt r1 r2 st k :
  bt (Alt r1 r2) st k
  = match bt r1 st k with Some m => Some m | None => bt r2 st k end.
Proof. reflexivity. Qed.

Lemma bt_Grp i r1 st k :
  bt (Grp i r1) st k
  = bt r1 st (fun st1 =>
      k {| seen := seen st1; ahead := ahead st1;
           groups := (i, consumed st st1) :: groups st1 |}).
Proof. reflexivity. Qed.

(** A run of [amount i] hands on a non-empty capture of group [i] on top
    of the groups it started with. *)
Lemma bt_amount (i : nat) st k m :
  bt (amount i) st k = Some m ->
  exists st' c, k st' = Some m /\ truthy c = true
                /\ groups st' = (i, c) :: groups st.
Proof.
  unfold amount. rewrite bt_Grp, bt_Cat. intros Hm.
  apply bt_plus_passes_on in Hm as (st1 & Hm & Hg1 & Hl1); [|done].
  apply bt_passes_on in Hm as (st2 & Hm & Hg2 & Hl2); [|done].
  eexists _, (consumed st st2). split; [exact Hm|].
  simpl in Hl1, Hl2 |- *. split.
  - apply consumed_truthy. lia.
  - congruence.
Qed.

Lemma bt_price_pattern st st' :
  groups st = [] ->
  bt price_pattern st Some = Some st' ->
  exists c, truthy c = true
            /\ (groups st' = [(1%nat, c)] \/ groups st' = [(2%nat, c)]).
Proof.
  intros Hg0. unfold price_pattern. cbn [seq foldr]. rewrite bt_Alt.
  destruct (bt (Cat (amount 1) _) st Some) as [m|] eqn:Hfirst.
  - intros ?; simplify_eq. rewrite bt_Cat in Hfirst.
    apply bt_amount in Hfirst as (st1 & c & Hk & Hc & Hg).
    apply bt_passes_on in Hk as (st2 & ? & Hg2 & _); [|done].
    simplify_eq. exists c. split; [done|]. left. congruence.
  - clear Hfirst. rewrite bt_Cat. intros Hm.
    apply bt_passes_on in Hm as (st1 & Hm & Hg1 & _); [|done].
    rewrite bt_Cat in Hm.
    apply bt_passes_on in Hm as (st2 & Hm & Hg2 & _); [|done].
    rewrite bt_Cat in Hm.
    apply bt_passes_on in Hm as (st3 & Hm & Hg3 & _); [|done].
    rewrite bt_Cat in Hm.
    apply bt_amount in Hm as (st4 & c & Hk & Hc & Hg).
    cbn [bt] in Hk. simplify_eq.
    exists c. split; [done|]. right. congruence.
Qed.

(** A match of the price pattern always has an amount to convert:
    [price_match.group(1) or price_match.group(2)] is a non-empty string. *)
Lemma price_match_amount (text : str) (price_match : Match) :
  re_search price_pattern text = Some price_match ->
  exists price_str,
    py_or (group price_match 1) (group price_match 2) = Some price_str.
Proof.
  unfold re_search. generalize (@nil N) as before.
  induction text as [|c text IH]; intros before Hs; cbn [scan] in Hs.
  all: destruct (bt price_pattern _ Some) as [st'|] eqn:Hbt;
    [|try done; by eapply IH].
  all: simplify_eq; unfold group; cbn [captures].
  all: apply bt_price_pattern in Hbt as (c' & Hc & Hg); [|done].
  all: exists c'; unfold py_or.
  all: destruct Hg as [-> | ->]; simpl; [|done].
  all: change (truthy (Some c')) with (truthy c'); by rewrite Hc.
Qed.
End matcher_facts.

(** ** Running programs on a record value *)

Lemma run_bind {A B} (m : prog A) (f : A -> prog B) (e : EventData) :
  run (m ≫= f) e
  = match run m e with
    | (e', inr a) => run (f a) e'
    | (e', inl x) => (e', inl x)
    end.
Proof.
  revert e. induction m as [a|x|T p k IH|T p v k IH]; intros e; simpl; auto.
  all: unfold mbind, prog_mbind; simpl; auto.
Qed.

Lemma run_try_except {A} (m : prog A) (h : exn -> prog A) (e : EventData) :
  run (try_except m h) e
  = match run m e with
    | (e', inr a) => (e', inr a)
    | (e', inl x) => run (h x) e'
    end.
Proof.
  revert e. induction m as [a|x|T p k IH|T p v k IH]; intros e; simpl; auto.
Qed.

Lemma run_assign {T} (p : part T) (f : T -> T) (e : EventData) :
  run (assign p f) e = (update p f e, inr tt).
Proof. reflexivity. Qed.

Lemma get_set_part {T} (p : part T) (v : T) (e : EventData) :
  get_part p (set_part p v e) = v.
Proof. by destruct p. Qed.

Lemma set_set_part {T} (p : part T) (v w : T) (e : EventData) :
  set_part p w (set_part p v e) = set_part p w e.
Proof. by destruct p. Qed.

Lemma set_get_part {T} (p : part T) (e : EventData) :
  set_part p (get_part p e) e = e.
Proof.
  destruct e as [? [] ? [] ? ? [? [] [] ? ?] ? ? ?]; destruct p; reflexivity.
Qed.

Lemma update_update {T} (p : part T) (f g : T -> T) (e : EventData) :
  update p g (update p f e) = update p (g ∘ f) e.
Proof. unfold update. by rewrite get_set_part, set_set_part. Qed.

Lemma update_id {T} (p : part T) (f : T -> T) (e : EventData) :
  f (get_part p e) = get_part p e -> update p f e = e.
Proof. unfold update. intros ->. apply set_get_part. Qed.

Lemma outside_set_part {T} (p : part T) (v : T) (e : EventData) :
  outside (set_part p v e) = outside e.
Proof. by destruct p. Qed.

(** Two records agree when they agree on every part and outside them. *)
Lemma EventData_ext (e1 e2 : EventData) :
  get_part P_preise e1 = get_part P_preise e2 ->
  get_part P_ort e1 = get_part P_ort e2 ->
  get_part P_kontakt e1 = get_part P_kontakt e2 ->
  get_part P_online_links e1 = get_part P_online_links e2 ->
  get_part P_quellen e1 = get_part P_quellen e2 ->
  get_part P_vertrauenswuerdigkeit e1 = get_part P_vertrauenswuerdigkeit e2 ->
  outside e1 = outside e2 ->
  e1 = e2.
Proof.
  destruct e1 as [? ? ? ? ? ? [? [] ? ? ?] ? ? ?].
  destruct e2 as [? ? ? ? ? ? [? [] ? ? ?] ? ? ?].
  unfold outside; cbn -[confidence]. unfold confidence; cbn.
  intros. by simplify_eq.
Qed.

(** ** The merge engine in closed form *)

Section merge_facts.
Context `{UnicodeData}.
#[local] Arguments set_part : simpl never.
#[local] Arguments get_part : simpl never.

Lemma run_merge_event_info s e :
  run (_merge_event_info s) e
  = (update P_ort (address_rule s) (update P_preise (price_rule s) e), inr tt).
Proof.
  unfold _merge_event_info.
  cbn [load mbind prog_mbind prog_bind run].
  rewrite run_bind.
  match goal with
  | |- context [run ?m e] =>
      assert (run m e = (update P_preise (price_rule s) e, inr tt)) as ->
  end.
  { unfold update, price_rule, fill, price_offer, price_wanted.
    destruct (negb (truthy (preis (get_part P_preise e))) && _);
      [|by rewrite set_get_part].
    destruct (re_search price_pattern _) as [m|] eqn:Hm; simpl;
      [|by rewrite set_get_part].
    destruct (price_match_amount _ _ Hm) as [ps ->]. simpl.
    destruct (py_float _) as [v|]; [|by rewrite set_get_part].
    by rewrite ?get_set_part, ?set_set_part. }
  cbn [run].
  set (e1 := update P_preise (price_rule s) e).
  unfold update at 1. unfold address_rule, fill, address_offer.
  destruct (negb (truthy (adresse (get_part P_ort e1))));
    [|by rewrite set_get_part].
  destruct (re_search address_pattern _) as [m|]; simpl;
    [|by rewrite set_get_part].
  by rewrite ?get_set_part, ?set_set_part.
Qed.

Lemma run_merge_contact_info s e :
  exists r, run (_merge_contact_info s) e
            = (update P_kontakt (kontakt_rule s) e, r)
            /\ (is_Some (url s) -> r = inr tt).
Proof.
  unfold _merge_contact_info, update, kontakt_rule, fill_str, fill,
    email_offer, phone_offer, getitem_url.
  cbn [load mbind prog_mbind prog_bind run].
  set (k := get_part P_kontakt e).
  rewrite run_bind.
  destruct (negb (truthy (email k)));
    [destruct (re_search email_pattern _)|]; simpl.
  all: rewrite ?get_set_part; simpl; fold k.
  all: rewrite run_bind.
  all: destruct (negb (truthy (telefon k)));
    [destruct (re_search phone_pattern _)|]; simpl.
  all: rewrite ?get_set_part, ?set_set_part; simpl; fold k.
  all: destruct (negb (truthy (website k))); [destruct (url s)|]; simpl.
  all: rewrite ?get_set_part, ?set_set_part; simpl; fold k.
  all: eexists; split; [apply (f_equal2 pair); [|reflexivity]|].
  all: try done; try by intros [? [=]].
  all: rewrite <- (set_get_part P_kontakt e) at 1; fold k; by destruct k.
Qed.

Lemma run_merge_ticket_info s e :
  exists r, run (_merge_ticket_info s) e
            = (update P_online_links (links_rule s) e, r)
            /\ (is_Some (url s) -> r = inr tt).
Proof.
  unfold _merge_ticket_info, links_rule, mentions_tickets.
  generalize (lower (get_text_content s)) as text.
  generalize ticket_keywords as kws.
  intros kws text.
  induction kws as [|kw kws IH]; simpl.
  - exists (inr tt). destruct (url s); by rewrite update_id.
  - destruct (contains kw text); simpl; [|done].
    unfold getitem_url, update, add_new.
    destruct (url s) as [u|]; simpl.
    + exists (inr tt). split; [|done].
      destruct (bool_decide _); simpl; by rewrite ?set_get_part.
    + exists (inl KeyError). split; [by rewrite set_get_part|by intros [? [=]]].
Qed.

Lemma run_merge_signal s e :
  run (merge_signal s) e = (merge_step s e, inr tt).
Proof.
  unfold merge_signal, merge_step.
  rewrite run_try_except, run_bind, run_merge_event_info.
  set (e1 := update P_ort _ _). cbn beta iota.
  rewrite run_bind.
  destruct (run_merge_contact_info s e1) as (r2 & -> & Hr2).
  set (e2 := update P_kontakt _ _).
  destruct (run_merge_ticket_info s e2) as (r3 & Ht & Hr3).
  set (e3 := update P_online_links _ _) in *.
  unfold quellen_rule, getitem_url.
  destruct (url s) as [u|] eqn:Hu.
  - rewrite Hr2 by done. cbn beta iota. rewrite run_bind, Ht, Hr3 by done.
    simpl. unfold update, add_new.
    destruct (bool_decide _); simpl; by rewrite ?set_get_part.
  - rewrite (update_id P_quellen) by done.
    assert (e3 = e2) as He3.
    { apply update_id. unfold links_rule. by rewrite Hu. }
    destruct r2; cbn beta iota; [by rewrite He3|].
    rewrite run_bind, Ht, He3. by destruct r3.
Qed.

Lemma run_for_each_merge_signal scraped_data e :
  run (for_each scraped_data merge_signal) e
  = (merge_steps e scraped_data, inr tt).
Proof.
  revert e. induction scraped_data as [|s l IH]; intros e; [done|].
  cbn [for_each]. rewrite run_bind, run_merge_signal. apply IH.
Qed.

Lemma run_merge_program scraped_data e :
  run (merge_program scraped_data) e
  = (let e' := merge_steps e scraped_data in
     if truthy scraped_data
     then set_confidence
            (py_min 1 (confidence e' + source_bonus scraped_data)) e'
     else e', inr tt).
Proof.
  unfold merge_program.
  rewrite run_bind, run_for_each_merge_signal.
  by destruct (truthy scraped_data).
Qed.

Lemma merge_scraped_data_closed event_data scraped_data :
  _merge_scraped_data event_data scraped_data
  = inr (let e' := merge_steps event_data scraped_data in
         if truthy scraped_data
         then set_confidence
                (py_min 1 (confidence e' + source_bonus scraped_data)) e'
         else e').
Proof. unfold _merge_scraped_data. by rewrite run_merge_program. Qed.
End merge_facts.

(** ** Rules that settle *)

Section settle.
Context {S : Type} (rule : Scraped -> S -> S).
Hypothesis rule_idem : forall s x, rule s (rule s x) = rule s x.
Hypothesis rule_stable :
  forall s s' x, rule s x = x -> rule s (rule s' x) = rule s' x.

Lemma steps_stable s l x : rule s x = x -> rule s (steps rule x l) = steps rule x l.
Proof.
  revert x. induction l as [|s' l IH]; intros x Hx; [done|].
  apply IH. by apply rule_stable.
Qed.

Lemma steps_settled s l x : s ∈ l -> rule s (steps rule x l) = steps rule x l.
Proof.
  revert x. induction l as [|s' l IH]; intros x Hin.
  - by apply elem_of_nil in Hin.
  - apply elem_of_cons in Hin as [->|Hin]; simpl.
    + apply steps_stable, rule_idem.
    + by apply IH.
Qed.

Lemma steps_fixed l x : (forall s, s ∈ l -> rule s x = x) -> steps rule x l = x.
Proof.
  induction l as [|s l IH]; intros Hfix; [done|]. simpl.
  rewrite Hfix by left. apply IH. intros s' Hs'. apply Hfix. by right.
Qed.

Lemma steps_idem l x : steps rule (steps rule x l) l = steps rule x l.
Proof. apply steps_fixed. intros s Hs. by apply steps_settled. Qed.
End settle.

Section fill_facts.
Context {S V : Type} (wanted : S -> bool) (offer : Scraped -> option V)
  (put : V -> S -> S).
Hypothesis put_put : forall v w x, put v (put w x) = put v x.
Hypothesis wanted_put :
  forall s s' v w x, offer s = Some v -> offer s' = Some w ->
    wanted (put v x) = true -> wanted (put w x) = true -> put v x = put w x.

Lemma fill_unwanted s x : wanted x = false -> fill wanted offer put s x = x.
Proof. unfold fill. by intros ->. Qed.

Lemma fill_idem s x :
  fill wanted offer put s (fill wanted offer put s x)
  = fill wanted offer put s x.
Proof.
  unfold fill. destruct (wanted x) eqn:Hw; [|by rewrite Hw].
  destruct (offer s) as [v|] eqn:Ho; [|by rewrite Hw].
  destruct (wanted (put v x)); [|done]. by rewrite put_put.
Qed.

Lemma fill_stable s s' x :
  fill wanted offer put s x = x ->
  fill wanted offer put s (fill wanted offer put s' x)
  = fill wanted offer put s' x.
Proof.
  unfold fill. destruct (wanted x) eqn:Hw; [|by rewrite Hw].
  destruct (offer s') as [w|] eqn:Ho'; [|by rewrite Hw].
  destruct (wanted (put w x)) eqn:Hw'; [|done].
  destruct (offer s) as [v|] eqn:Ho; [|done].
  intros Hx. rewrite put_put. apply (wanted_put s s'); try done.
  by rewrite Hx.
Qed.

Lemma steps_unwanted l x :
  wanted x = false -> steps (fill wanted offer put) x l = x.
Proof. intros Hw. apply steps_fixed. intros. by apply fill_unwanted. Qed.

Lemma steps_fill_idem l x :
  steps (fill wanted offer put) (steps (fill wanted offer put) x l) l
  = steps (fill wanted offer put) x l.
Proof. apply steps_idem; [apply fill_idem|apply fill_stable]. Qed.
End fill_facts.

(** ** The rules of the merge engine settle *)

Section rules_settle.
Context `{UnicodeData}.

Lemma py_float_reduced text v : py_float text = Some v -> Qred v = v.
Proof.
  unfold py_float. destruct (break_at 46 text) as [ip fp].
  destruct (mapM cp_decimal ip); [|done].
  destruct (mapM cp_decimal _); [|done].
  destruct (truthy _); [|done].
  intros [= <-]. apply Qred_complete, Qred_correct.
Qed.

Lemma price_offer_reduced s v : price_offer s = Some v -> Qred v = v.
Proof.
  unfold price_offer. intros Hv.
  destruct (re_search price_pattern _); [|done]. simpl in Hv.
  destruct (py_or _ _); [|done]. by apply py_float_reduced in Hv.
Qed.

Lemma falsy_reduced_unique (v w : Q) :
  Qred v = v -> Qred w = w -> truthy v = false -> truthy w = false -> v = w.
Proof.
  unfold truthy, truthy_float. intros Hv Hw Hv0 Hw0.
  apply negb_false_iff, Qeq_bool_iff in Hv0, Hw0.
  rewrite <- Hv, <- Hw. apply Qred_complete. by rewrite Hv0, Hw0.
Qed.

Lemma price_steps_idem l p :
  steps price_rule (steps price_rule p l) l = steps price_rule p l.
Proof.
  apply steps_fill_idem.
  - by intros v w [].
  - intros s s' v w [ko pr wa vv ab] Hv Hw. unfold price_wanted. simpl.
    rewrite !andb_true_r, !negb_true_iff. intros Hv0 Hw0.
    assert (v = w) as ->; [|done].
    eapply falsy_reduced_unique; eauto using price_offer_reduced.
Qed.

Lemma price_steps_kept l p :
  truthy (preis p) = true \/ kostenlos p = true -> steps price_rule p l = p.
Proof.
  intros Hp. apply steps_unwanted. unfold price_wanted.
  destruct Hp as [-> | Hk]; [done|].
  change (truthy (kostenlos p)) with (kostenlos p). rewrite Hk.
  by rewrite andb_false_r.
Qed.

Lemma address_offer_truthy s a plz city :
  address_offer s = Some (a, plz, city) -> truthy a = true.
Proof.
  unfold address_offer. destruct (re_search address_pattern _); [|done].
  intros [= <- _ _]. by destruct (default [] _).
Qed.

Lemma address_steps_idem l o :
  steps address_rule (steps address_rule o l) l = steps address_rule o l.
Proof.
  apply steps_fill_idem.
  - by intros [[] ?] [[] ?] [].
  - intros s s' [[a plz] city] w o' Ha _. simpl.
    apply address_offer_truthy in Ha.
    change (truthy (Some a)) with (truthy a). by rewrite Ha.
Qed.

Lemma address_steps_kept l o :
  truthy (adresse o) = true -> steps address_rule o l = o.
Proof. intros Ho. apply steps_unwanted. by rewrite Ho. Qed.

Lemma fill_str_steps_idem offer l (x : option str) :
  steps (fill_str offer) (steps (fill_str offer) x l) l
  = steps (fill_str offer) x l.
Proof.
  apply steps_fill_idem; [done|].
  intros _ _ v w _ _ _. simpl.
  change (truthy (Some v)) with (truthy v).
  change (truthy (Some w)) with (truthy w).
  by destruct v, w.
Qed.

Lemma fill_str_steps_kept offer l (x : option str) :
  truthy x = true -> steps (fill_str offer) x l = x.
Proof. intros Hx. apply steps_unwanted. by rewrite Hx. Qed.

Lemma kontakt_steps l k :
  steps kontakt_rule k l
  = Build_Kontakt (veranstalter k)
      (steps (fill_str phone_offer) (telefon k) l)
      (steps (fill_str email_offer) (email k) l)
      (steps (fill_str url) (website k) l).
Proof.
  revert k. induction l as [|s l IH]; intros k; [by destruct k|].
  cbn [steps foldl]. fold (steps kontakt_rule (kontakt_rule s k) l).
  by rewrite IH.
Qed.

Lemma kontakt_steps_idem l k :
  steps kontakt_rule (steps kontakt_rule k l) l = steps kontakt_rule k l.
Proof.
  rewrite (kontakt_steps l (steps _ _ _)), (kontakt_steps l k). simpl.
  by rewrite !fill_str_steps_idem.
Qed.

Lemma add_new_fixed u l : add_new u l = l <-> u ∈ l.
Proof.
  unfold add_new. case_bool_decide as Hin; [done|]. split; [|done].
  intros Hl. apply (f_equal length) in Hl. rewrite length_app in Hl.
  simpl in Hl. lia.
Qed.

Lemma add_new_subseteq u l : l ⊆ add_new u l.
Proof.
  unfold add_new. case_bool_decide; [done|]. by apply sublist_subseteq, sublist_inserts_r.
Qed.

Lemma elem_of_add_new u l : u ∈ add_new u l.
Proof. unfold add_new. case_bool_decide; [done|]. set_solver. Qed.

Lemma links_steps_idem l x :
  steps links_rule (steps links_rule x l) l = steps links_rule x l.
Proof.
  apply steps_idem.
  - intros s y. unfold links_rule. destruct (url s) as [u|]; [|done].
    destruct (mentions_tickets s); [|done].
    apply add_new_fixed, elem_of_add_new.
  - intros s s' y. unfold links_rule.
    destruct (url s) as [u|]; [|done].
    destruct (mentions_tickets s); [|done].
    rewrite !add_new_fixed. intros Hu.
    destruct (url s') as [u'|]; [|done].
    destruct (mentions_tickets s'); [|done]. by apply add_new_subseteq.
Qed.

Lemma quellen_steps_idem l x :
  steps quellen_rule (steps quellen_rule x l) l = steps quellen_rule x l.
Proof.
  apply steps_idem.
  - intros s y. unfold quellen_rule. destruct (url s) as [u|]; [|done].
    apply add_new_fixed, elem_of_add_new.
  - intros s s' y. unfold quellen_rule.
    destruct (url s) as [u|]; [|done].
    rewrite !add_new_fixed. intros Hu.
    destruct (url s') as [u'|]; [|done]. by apply add_new_subseteq.
Qed.

(** *** The rules on the whole record *)

Lemma merge_steps_part {T} (p : part T) (rule : Scraped -> T -> T) l e :
  (forall s e', get_part p (merge_step s e') = rule s (get_part p e')) ->
  get_part p (merge_steps e l) = steps rule (get_part p e) l.
Proof.
  intros Hstep. revert e. induction l as [|s l IH]; intros e; [done|].
  unfold merge_steps. cbn [steps foldl].
  fold (steps merge_step (merge_step s e) l).
  fold (merge_steps (merge_step s e) l).
  fold (steps rule (rule s (get_part p e)) l).
  by rewrite IH, Hstep.
Qed.

Lemma merge_steps_preise l e :
  preise (merge_steps e l) = steps price_rule (preise e) l.
Proof. by apply (merge_steps_part P_preise). Qed.
Lemma merge_steps_ort l e :
  ort (merge_steps e l) = steps address_rule (ort e) l.
Proof. by apply (merge_steps_part P_ort). Qed.
Lemma merge_steps_kontakt l e :
  kontakt (metadaten (merge_steps e l))
  = steps kontakt_rule (kontakt (metadaten e)) l.
Proof. by apply (merge_steps_part P_kontakt). Qed.
Lemma merge_steps_online_links l e :
  online_links (ticketinfo (metadaten (merge_steps e l)))
  = steps links_rule (online_links (ticketinfo (metadaten e))) l.
Proof. by apply (merge_steps_part P_online_links). Qed.
Lemma merge_steps_quellen l e :
  quellen (metadaten (merge_steps e l))
  = steps quellen_rule (quellen (metadaten e)) l.
Proof. by apply (merge_steps_part P_quellen). Qed.
Lemma merge_steps_confidence l e :
  confidence (merge_steps e l) = confidence e.
Proof.
  rewrite <- (steps_fixed (fun _ c => c) l (confidence e)) by done.
  by apply (merge_steps_part P_vertrauenswuerdigkeit).
Qed.
Lemma merge_steps_outside l e : outside (merge_steps e l) = outside e.
Proof.
  revert e. induction l as [|s l IH]; intros e; [done|].
  unfold merge_steps. cbn [steps foldl]. 
  fold (steps merge_step (merge_step s e) l).
  fold (merge_steps (merge_step s e) l). by rewrite IH.
Qed.

Lemma merge_steps_set_confidence c l e :
  merge_steps (set_confidence c e) l = set_confidence c (merge_steps e l).
Proof.
  apply EventData_ext.
  - change (preise (merge_steps (set_confidence c e) l) = preise (merge_steps e l)).
    by rewrite !merge_steps_preise.
  - change (ort (merge_steps (set_confidence c e) l) = ort (merge_steps e l)).
    by rewrite !merge_steps_ort.
  - change (kontakt (metadaten (merge_steps (set_confidence c e) l))
            = kontakt (metadaten (merge_steps e l))).
    by rewrite !merge_steps_kontakt.
  - change (online_links (ticketinfo (metadaten (merge_steps (set_confidence c e) l)))
            = online_links (ticketinfo (metadaten (merge_steps e l)))).
    by rewrite !merge_steps_online_links.
  - change (quellen (metadaten (merge_steps (set_confidence c e) l))
            = quellen (metadaten (merge_steps e l))).
    by rewrite !merge_steps_quellen.
  - change (confidence (merge_steps (set_confidence c e) l) = c).
    by rewrite merge_steps_confidence.
  - rewrite outside_set_part with (p := P_vertrauenswuerdigkeit).
    by rewrite !merge_steps_outside.
Qed.

Lemma merge_steps_idem l e :
  merge_steps (merge_steps e l) l = merge_steps e l.
Proof.
  apply EventData_ext.
  - change (preise (merge_steps (merge_steps e l) l) = preise (merge_steps e l)).
    by rewrite !merge_steps_preise, price_steps_idem.
  - change (ort (merge_steps (merge_steps e l) l) = ort (merge_steps e l)).
    by rewrite !merge_steps_ort, address_steps_idem.
  - change (kontakt (metadaten (merge_steps (merge_steps e l) l))
            = kontakt (metadaten (merge_steps e l))).
    by rewrite !merge_steps_kontakt, kontakt_steps_idem.
  - change (online_links (ticketinfo (metadaten (merge_steps (merge_steps e l) l)))
            = online_links (ticketinfo (metadaten (merge_steps e l)))).
    by rewrite !merge_steps_online_links, links_steps_idem.
  - change (quellen (metadaten (merge_steps (merge_steps e l) l))
            = quellen (metadaten (merge_steps e l))).
    by rewrite !merge_steps_quellen, quellen_steps_idem.
  - change (confidence (merge_steps (merge_steps e l) l)
            = confidence (merge_steps e l)).
    by rewrite !merge_steps_confidence.
  - by rewrite !merge_steps_outside.
Qed.
End rules_settle.

(** ** The merge engine: confidence and filling *)

Section merge_theorems.
Context `{UnicodeData}.

Lemma source_bonus_range sd : (0 <= source_bonus sd <= 2 # 10)%Q.
Proof.
  unfold source_bonus. split; [|apply py_min_le_l].
  apply py_min_glb; [lra|].
  apply Qmult_le_0_compat; [|lra].
  change 0%Q with (inject_Z 0). rewrite <- Zle_Qle. lia.
Qed.

(** C3.  One merge call with a non-empty list of [n] signals returns a
    record whose confidence is [min(1, c + min(0.2, 0.05 * n))] for the
    confidence [c] it was called with: the source bonus is added once, after
    all rules have run.  The bonus never exceeds [0.2] and is [0.2] for ten
    signals. *)
Theorem merge_confidence_bonus (e : EventData) (sd : list Scraped) :
  sd <> [] ->
  exists enhanced,
    _merge_scraped_data e sd = inr enhanced
    /\ (confidence enhanced ==
        Qmin 1 (confidence e
                + Qmin (2 # 10) ((5 # 100) * inject_Z (Z.of_nat (length sd)))))%Q
    /\ (source_bonus sd <= 2 # 10)%Q
    /\ (length sd = 10%nat -> source_bonus sd == 2 # 10)%Q.
Proof.
  intros Hsd. rewrite merge_scraped_data_closed.
  eexists; split; [reflexivity|]. cbn zeta.
  destruct sd as [|s sd]; [done|]. cbn [truthy truthy_list].
  rewrite confidence_set_confidence, merge_steps_confidence.
  repeat split.
  - rewrite py_min_Qmin. unfold source_bonus. rewrite py_min_Qmin.
    by rewrite (Qmult_comm (5 # 100)).
  - apply source_bonus_range.
  - intros Hlen. unfold source_bonus. rewrite Hlen. reflexivity.
Qed.

Lemma merge_confidence_range e sd enhanced :
  (0 <= confidence e <= 1)%Q ->
  _merge_scraped_data e sd = inr enhanced ->
  (0 <= confidence enhanced <= 1)%Q.
Proof.
  intros Hc. rewrite merge_scraped_data_closed. intros [= <-]. cbn zeta.
  destruct (truthy sd).
  - rewrite confidence_set_confidence, merge_steps_confidence.
    pose proof (source_bonus_range sd).
    split; [apply py_min_glb; lra|apply py_min_le_l].
  - by rewrite merge_steps_confidence.
Qed.

Lemma assess_confidence_range e :
  (0 <= confidence e <= 1)%Q ->
  (0 <= confidence (_assess_data_quality e) <= 1)%Q.
Proof.
  intros Hc. pose proof (quality_score_le_1 e).
  destruct (assess_confidence_cases e) as [-> | [Hlt Heq]]; [done|].
  rewrite Heq. split.
  - apply Qle_shift_div_l; [reflexivity|]. lra.
  - apply Qle_shift_div_r; [reflexivity|]. lra.
Qed.

(** C1.  A record whose confidence lies in [[0, 1]] keeps it there through
    any sequence of enrichment merges and quality passes, and every call of
    the sequence returns. *)
Theorem confidence_stays_in_unit_interval (e : EventData)
    (calls : list Call) :
  (0 <= confidence e <= 1)%Q ->
  exists e', apply_calls calls e = inr e' /\ (0 <= confidence e' <= 1)%Q.
Proof.
  revert e. induction calls as [|c calls IH]; intros e Hc.
  - by exists e.
  - cbn [apply_calls]. destruct c as [sd|]; cbn [apply_call].
    + destruct (_merge_scraped_data e sd) as [x|e1] eqn:He1.
      { by rewrite merge_scraped_data_closed in He1. }
      apply IH. by eapply merge_confidence_range.
    + apply IH. by apply assess_confidence_range.
Qed.

(** C2, as amended.  The merge returns, and each rule writes only where its
    guard finds a falsy value: a price that is truthy (neither [None] nor
    [0.0]) or flagged free is kept, and so are a non-empty address (with
    it the whole location), email, phone and website.  Merging the result
    again with the same signals changes no field except the confidence. *)
Theorem merge_fills_only_empty (e : EventData) (sd : list Scraped) :
  exists enhanced,
    _merge_scraped_data e sd = inr enhanced
    /\ (truthy (preis (preise e)) = true \/ kostenlos (preise e) = true ->
        preise enhanced = preise e)
    /\ (truthy (adresse (ort e)) = true -> ort enhanced = ort e)
    /\ (truthy (email (kontakt (metadaten e))) = true ->
        email (kontakt (metadaten enhanced))
        = email (kontakt (metadaten e)))
    /\ (truthy (telefon (kontakt (metadaten e))) = true ->
        telefon (kontakt (metadaten enhanced))
        = telefon (kontakt (metadaten e)))
    /\ (truthy (website (kontakt (metadaten e))) = true ->
        website (kontakt (metadaten enhanced))
        = website (kontakt (metadaten e)))
    /\ exists again,
         _merge_scraped_data enhanced sd = inr again
         /\ set_confidence (confidence enhanced) again = enhanced.
Proof.
  rewrite merge_scraped_data_closed. eexists; split; [reflexivity|].
  cbn zeta.
  set (enhanced := if truthy sd then _ else _).
  assert (exists c, enhanced = set_confidence c (merge_steps e sd))
    as [c Hen].
  { subst enhanced. destruct (truthy sd); eauto.
    exists (confidence (merge_steps e sd)).
    by rewrite set_confidence_same. }
  clearbody enhanced. subst enhanced.
  change (preise (set_confidence c ?x)) with (preise x).
  change (ort (set_confidence c ?x)) with (ort x).
  change (kontakt (metadaten (set_confidence c ?x)))
    with (kontakt (metadaten x)).
  rewrite merge_steps_preise, merge_steps_ort, merge_steps_kontakt,
    kontakt_steps. cbn [email telefon website].
  repeat split.
  - apply price_steps_kept.
  - apply address_steps_kept.
  - apply fill_str_steps_kept.
  - apply fill_str_steps_kept.
  - apply fill_str_steps_kept.
  - rewrite merge_scraped_data_closed. eexists; split; [reflexivity|].
    cbn zeta. rewrite merge_steps_set_confidence, merge_steps_idem.
    rewrite confidence_set_confidence.
    destruct (truthy sd);
      by rewrite ?(set_set_part P_vertrauenswuerdigkeit).
Qed.
End merge_theorems.

Lemma merge_confidence_bonus_witness :
  [sample_page] <> []
  /\ exists enhanced,
       @_merge_scraped_data latin1 rock_concert [sample_page] = inr enhanced
       /\ (confidence enhanced == 90 # 100)%Q.
Proof.
  assert ([sample_page] <> []) as Hne by discriminate.
  split; [exact Hne|].
  destruct (@merge_confidence_bonus latin1 rock_concert [sample_page] Hne)
    as (enhanced & Hm & Hc & _).
  exists enhanced. split; [exact Hm|]. rewrite Hc. vm_compute. reflexivity.
Defined.

Lemma confidence_stays_in_unit_interval_witness :
  (0 <= confidence rock_concert <= 1)%Q
  /\ exists e',
       @apply_calls latin1
         [MergeCall [sample_page]; QualityCall;
          MergeCall [sample_page; sample_page]] rock_concert = inr e'
       /\ (0 <= confidence e' <= 1)%Q.
Proof.
  assert (0 <= confidence rock_concert <= 1)%Q as Hc
    by (split; discriminate).
  split; [exact Hc|].
  exact (@confidence_stays_in_unit_interval latin1 rock_concert _ Hc).
Defined.

(** C2, as stated, fails: a price of [0.0] on a record not flagged free is a
    set value, and the price rule replaces it by the page's [35,50]. *)
Lemma merge_overwrites_zero_price :
  preis (preise zero_price_event) = Some 0%Q
  /\ match @_merge_scraped_data latin1 zero_price_event [sample_page] with
     | inr enhanced => preis (preise enhanced)
     | inl _ => None
     end = Some (71 # 2)%Q.
Proof. split; reflexivity. Qed.

(** Merging again moves the confidence once more. *)
Example merge_again_moves_confidence :
  match @_merge_scraped_data latin1 rock_concert [sample_page] with
  | inr enhanced =>
      match @_merge_scraped_data latin1 enhanced [sample_page] with
      | inr again =>
          (confidence enhanced == 90 # 100)%Q
          /\ (confidence again == 95 # 100)%Q
      | inl _ => False
      end
  | inl _ => False
  end.
Proof. vm_compute. split; reflexivity. Qed.

Lemma merge_fills_only_empty_witness :
  truthy (preis (preise filled_event)) = true
  /\ truthy (adresse (ort filled_event)) = true
  /\ truthy (email (kontakt (metadaten filled_event))) = true
  /\ exists enhanced,
       @_merge_scraped_data latin1 filled_event [sample_page] = inr enhanced
       /\ preise enhanced = preise filled_event
       /\ ort enhanced = ort filled_event
       /\ email (kontakt (metadaten enhanced))
          = email (kontakt (metadaten filled_event)).
Proof.
  assert (truthy (preis (preise filled_event)) = true) as Hp by reflexivity.
  assert (truthy (adresse (ort filled_event)) = true) as Ho by reflexivity.
  assert (truthy (email (kontakt (metadaten filled_event))) = true) as He
    by reflexivity.
  split; [exact Hp|]. split; [exact Ho|]. split; [exact He|].
  destruct (@merge_fills_only_empty latin1 filled_event [sample_page])
    as (enhanced & Hm & Kp & Ko & Ke & _).
  exists enhanced. split; [exact Hm|].
  split; [apply Kp; left; exact Hp|].
  split; [apply Ko; exact Ho|apply Ke; exact He].
Defined.


(** ** Objects: copying and running *)

Lemma lookup_insert_old (h : heap) (l l' : loc) (o o' : obj) :
  h !! l' = None -> h !! l = Some o -> <[l' := o']> h !! l = Some o.
Proof. intros Hf Hl. rewrite lookup_insert_ne; [done|]. congruence. Qed.

Lemma lookup_None_ne (h : heap) (l l' : loc) (o : obj) :
  h !! l' = None -> h !! l = Some o -> l' <> l.
Proof. congruence. Qed.

Lemma alloc_ok (h : heap) (o : obj) :
  exists l', h !! l' = None /\ alloc o h = (l', <[l' := o]> h).
Proof.
  exists (fresh (dom h)). split; [|done]. apply not_elem_of_dom, is_fresh.
Qed.

Lemma copy_leaf_ok (h : heap) (l : loc) (o : obj) :
  h !! l = Some o -> leaf o = true ->
  exists l', h !! l' = None /\ copy_leaf h l = Some (l', <[l' := o]> h).
Proof.
  intros Hl Ho. destruct (alloc_ok h o) as (l' & Hf & Ha).
  exists l'. split; [done|]. unfold copy_leaf. rewrite Hl, <- Ha.
  by destruct o.
Qed.

Ltac old_lookup :=
  repeat lazymatch goal with
         | |- <[?k := _]> _ !! ?k = Some _ => apply lookup_insert_eq
         | |- <[_ := _]> _ !! _ = Some _ =>
             apply lookup_insert_old; [eassumption|]
         end;
  try eassumption.

Ltac leaf_step :=
  lazymatch goal with
  | |- context [copy_leaf ?h1 ?l1] =>
      let l' := fresh "l" in
      let Hf := fresh "Hf" in
      let Hc := fresh "Hc" in
      edestruct (copy_leaf_ok h1 l1) as (l' & Hf & Hc);
        [old_lookup|reflexivity|];
      rewrite Hc; clear Hc; cbn [mbind option_bind]
  end.

Ltac alloc_step :=
  lazymatch goal with
  | |- context [alloc ?o1 ?h1] =>
      let l' := fresh "l" in
      let Hf := fresh "Hf" in
      let Hc := fresh "Hc" in
      destruct (alloc_ok h1 o1) as (l' & Hf & Hc);
      rewrite Hc; clear Hc; cbn [mbind option_bind]
  end.

Ltac node_step :=
  lazymatch goal with
  | |- context [match ?h1 !! ?l1 with _ => _ end] =>
      let Hx := fresh "Hx" in
      eassert (h1 !! l1 = Some _) as Hx; [old_lookup|];
      rewrite Hx; clear Hx
  end.

Ltac distinct :=
  solve [ eapply lookup_None_ne; [eassumption|old_lookup]
        | apply not_eq_sym; eapply lookup_None_ne; [eassumption|old_lookup] ].

Lemma holds_weaken h h' ly e : holds h ly e -> h ⊆ h' -> holds h' ly e.
Proof.
  intros [] Hsub. constructor; try done; by eapply lookup_weaken.
Qed.

Lemma deep_copy_holds (h : heap) (ly : Layout) (e : EventData) :
  holds h ly e ->
  exists h' ly',
    deep_copy h (at_event ly) = Some (at_event ly', h')
    /\ holds h' ly' e
    /\ h ⊆ h'
    /\ (forall l, l ∈ objects ly' -> h !! l = None).
Proof.
  intros [He Ho Ht Hp Hm Hk Hti Hv Hl Hc Hq Hel Heq Hnd].
  unfold deep_copy. node_step. do 3 leaf_step.
  unfold copy_metadaten. node_step. leaf_step.
  unfold copy_ticketinfo. node_step. do 2 leaf_step. alloc_step.
  do 2 leaf_step. alloc_step. do 2 leaf_step. alloc_step.
  eexists _, (Build_Layout l11 l l0 l1 l8 l2 l5 l3 l4 l6 l7 l9 l10).
  split; [reflexivity|].
  assert (forall x, x ∈ [l11; l; l0; l1; l8; l2; l5; l3; l4; l6; l7; l9; l10]
                    -> h !! x = None) as Hnew.
  { intros x Hx. repeat (apply elem_of_cons in Hx as [->|Hx]).
    all: try by apply elem_of_nil in Hx.
    all: eapply lookup_weaken_None; [eassumption|].
    all: repeat (etrans; [|apply insert_subseteq; eassumption]); done. }
  split; [|split; [|exact Hnew]].
  - constructor; cbn [at_event at_ort at_termine at_preise at_metadaten
      at_kuenstler at_ticketinfo at_verkaufsstellen at_online_links
      at_kontakt at_quellen at_erkannte_links at_erkannte_qr_codes objects];
      try old_lookup.
    unfold objects; simpl.
    repeat (apply NoDup_cons_2;
            [rewrite ?not_elem_of_cons; repeat split;
             first [apply not_elem_of_nil|distinct]|]).
    apply NoDup_nil_2.
  - repeat (etrans; [|apply insert_subseteq; eassumption]). done.
Qed.

Ltac unpack_distinct Hnd :=
  unfold objects in Hnd;
  repeat (let Hx := fresh "Hne" in apply NoDup_cons in Hnd as [Hx Hnd]);
  repeat match goal with
         | Hx : _ ∉ _ :: _ |- _ =>
             let Hy := fresh "Hne" in
             apply not_elem_of_cons in Hx as [Hy Hx]
         end.

Ltac lookup_after_store :=
  first [ apply lookup_insert_eq
        | rewrite lookup_insert_ne
            by (first [assumption|apply not_eq_sym; assumption]);
          eassumption ].

Ltac in_objects :=
  unfold objects;
  repeat first [ apply list_elem_of_here | apply list_elem_of_further ].

Lemma hload_holds {T} (p : part T) h ly e :
  holds h ly e -> hload p h (at_event ly) = Some (get_part p e).
Proof.
  intros [He Ho Ht Hp Hm Hk Hti Hv Hl Hc Hq Hel Heq Hnd].
  destruct p; unfold hload, locate; rewrite He; simpl;
    rewrite ?Hm, ?Hti; simpl; rewrite ?Ho, ?Hp, ?Hm, ?Hl, ?Hc, ?Hq;
    reflexivity.
Qed.

Lemma hstore_holds {T} (p : part T) (v : T) h ly e :
  holds h ly e ->
  exists h', hstore p v h (at_event ly) = Some h'
    /\ holds h' ly (set_part p v e)
    /\ (forall l, l ∉ objects ly -> h' !! l = h !! l).
Proof.
  intros [He Ho Ht Hp Hm Hk Hti Hv Hl Hc Hq Hel Heq Hnd].
  pose proof Hnd as Hnd'. unpack_distinct Hnd'.
  destruct p; unfold hstore, locate; rewrite He; simpl;
    rewrite ?Hm, ?Hti; simpl; rewrite ?Ho, ?Hp, ?Hm, ?Hl, ?Hc, ?Hq; simpl.
  all: eexists; split; [reflexivity|]; split;
    [constructor; simpl; first [lookup_after_store|exact Hnd]
    |intros l Hl'; apply lookup_insert_ne; intros <-; apply Hl';
     in_objects].
Qed.

Lemma hrun_holds {A} (m : prog A) h ly e :
  holds h ly e ->
  exists h',
    hrun m (at_event ly) h = Some (h', (run m e).2)
    /\ holds h' ly (run m e).1
    /\ (forall l, l ∉ objects ly -> h' !! l = h !! l).
Proof.
  revert h e. induction m as [a|x|T p k IH|T p v k IH]; intros h e Hh; simpl.
  - exists h. split; [reflexivity|]. split; [exact Hh|reflexivity].
  - exists h. split; [reflexivity|]. split; [exact Hh|reflexivity].
  - rewrite (hload_holds p h ly e Hh). simpl. by apply IH.
  - destruct (hstore_holds p v h ly e Hh) as (h1 & -> & Hh1 & Hfr1). simpl.
    destruct (IH h1 _ Hh1) as (h' & ? & ? & Hfr).
    exists h'. split; [assumption|]. split; [assumption|].
    intros l Hl. rewrite Hfr by exact Hl. by apply Hfr1.
Qed.

(** ** The merge engine and the enrichment step on objects *)

Section enrichment_theorems.
Context `{UnicodeData}.

Lemma h_merge_scraped_data_run (h : heap) (ly : Layout) (e : EventData)
    (scraped_data : list Scraped) :
  holds h ly e ->
  exists h' ly',
    h_merge_scraped_data h (at_event ly) scraped_data
    = Some (h', inr (at_event ly'))
    /\ holds h' ly' (run (merge_program scraped_data) e).1
    /\ (forall l, l ∈ objects ly' -> h !! l = None)
    /\ (forall l o, h !! l = Some o -> h' !! l = Some o).
Proof.
  intros Hh. unfold h_merge_scraped_data.
  destruct (deep_copy_holds h ly e Hh) as (h1 & ly' & -> & Hh1 & Hsub & Hnew).
  cbn [mbind option_bind].
  destruct (hrun_holds (merge_program scraped_data) h1 ly' e Hh1)
    as (h' & -> & Hh' & Hframe).
  cbn [mbind option_bind].
  assert ((run (merge_program scraped_data) e).2 = inr tt) as ->
    by by rewrite run_merge_program.
  exists h', ly'. split; [reflexivity|]. split; [exact Hh'|].
  split; [exact Hnew|].
  intros l o Hl. rewrite Hframe; [by eapply lookup_weaken|].
  intros Hin. apply Hnew in Hin. congruence.
Qed.

(** C9.  The merge works on a deep copy: given a store that holds the record
    at the location passed in, it returns a record all of whose objects are
    new, holding the merged value, and leaves every object that existed
    before the call as it was, so the caller's record keeps its value. *)
Theorem merge_leaves_input_untouched (h : heap) (ly : Layout)
    (e : EventData) (scraped_data : list Scraped) :
  holds h ly e ->
  exists h' ly' enhanced,
    h_merge_scraped_data h (at_event ly) scraped_data
    = Some (h', inr (at_event ly'))
    /\ _merge_scraped_data e scraped_data = inr enhanced
    /\ holds h' ly' enhanced
    /\ (forall l, l ∈ objects ly' -> h !! l = None)
    /\ h ⊆ h'
    /\ holds h' ly e.
Proof.
  intros Hh.
  destruct (h_merge_scraped_data_run h ly e scraped_data Hh)
    as (h' & ly' & Hrun & Hh' & Hnew & Hkept).
  assert (h ⊆ h') as Hsub by by apply map_subseteq_spec.
  exists h', ly', (run (merge_program scraped_data) e).1.
  split; [exact Hrun|]. split.
  { unfold _merge_scraped_data. by rewrite run_merge_program. }
  split; [exact Hh'|]. split; [exact Hnew|]. split; [exact Hsub|].
  by eapply holds_weaken.
Qed.

(** C6.  The enrichment phase always completes; whatever it does, every
    object that existed before is left as it was, and when it ends in an
    exception the enhancement step returns the very object it was given, which
    still holds the pre-enrichment record. *)
Theorem enhance_failure_returns_original (world : World) (h : heap)
    (ly : Layout) (e : EventData) (urls : list str) :
  holds h ly e ->
  exists h' r,
    enrichment_phase world h (at_event ly) urls = Some (h', r)
    /\ h ⊆ h'
    /\ holds h' ly e
    /\ match r with
       | inl _ =>
           h_enhance_with_web_scraping world h (at_event ly) urls
           = Some (h', at_event ly)
       | inr enhanced_data =>
           h_enhance_with_web_scraping world h (at_event ly) urls
           = Some (h', enhanced_data)
       end.
Proof.
  intros Hh.
  assert (exists h' r,
            enrichment_phase world h (at_event ly) urls = Some (h', r)
            /\ h ⊆ h' /\ holds h' ly e) as (h' & r & Hphase & Hsub & Hh').
  { unfold enrichment_phase, h_enhance_event_data.
    destruct (enter_raises world); [by eexists h, _|].
    destruct (negb (truthy urls)); cbn [mbind option_bind].
    { destruct (exit_raises world); by eexists h, _. }
    destruct (scrape_urls world urls) as [x|scraped_data];
      cbn [mbind option_bind]; [by eexists h, _|].
    destruct (h_merge_scraped_data_run h ly e scraped_data Hh)
      as (h' & ly' & -> & _ & _ & Hkept).
    assert (h ⊆ h') as Hsub by by apply map_subseteq_spec.
    pose proof (holds_weaken _ _ _ _ Hh Hsub).
    destruct (exit_raises world); by eexists h', _. }
  exists h', r. split; [exact Hphase|]. split; [exact Hsub|].
  split; [exact Hh'|].
  unfold h_enhance_with_web_scraping. rewrite Hphase.
  cbn [mbind option_bind]. by destruct r.
Qed.
End enrichment_theorems.

Lemma enrichment_phase_exit_raises `{UnicodeData} (world : World)
    (h h' : heap) (l : loc) (urls : list str) (r : exn + loc) :
  exit_raises world = true ->
  enrichment_phase world h l urls = Some (h', r) ->
  exists x, r = inl x.
Proof.
  unfold enrichment_phase, h_enhance_event_data. intros ->.
  destruct (enter_raises world); [intros [= <- <-]; eauto|].
  destruct (negb (truthy urls)); cbn [mbind option_bind];
    [intros [= <- <-]; eauto|].
  destruct (scrape_urls world urls); cbn [mbind option_bind];
    [intros [= <- <-]; eauto|].
  destruct (h_merge_scraped_data _ _ _) as [[? []]|];
    cbn [mbind option_bind]; intros [= <- <-]; eauto.
Qed.

Lemma sample_store_holds : holds sample_store sample_layout rock_concert.
Proof.
  constructor; try (vm_compute; reflexivity).
  apply (bool_decide_unpack (NoDup (objects sample_layout))).
  vm_compute. exact I.
Defined.

Lemma merge_leaves_input_untouched_witness :
  holds sample_store sample_layout rock_concert
  /\ exists h' ly',
       @h_merge_scraped_data latin1 sample_store (at_event sample_layout)
         [sample_page] = Some (h', inr (at_event ly'))
       /\ sample_store !! at_event ly' = None
       /\ holds h' sample_layout rock_concert.
Proof.
  split; [exact sample_store_holds|].
  destruct (@merge_leaves_input_untouched latin1 sample_store sample_layout
              rock_concert [sample_page] sample_store_holds)
    as (h' & ly' & enhanced & Hrun & _ & _ & Hnew & _ & Hkept).
  exists h', ly'. split; [exact Hrun|]. split; [|exact Hkept].
  apply Hnew. apply list_elem_of_here.
Defined.

Lemma enhance_failure_returns_original_witness :
  holds sample_store sample_layout rock_concert
  /\ exists h',
       @h_enhance_with_web_scraping latin1 failing_world sample_store
         (at_event sample_layout) [lit "https://test.de"]
       = Some (h', at_event sample_layout)
       /\ holds h' sample_layout rock_concert.
Proof.
  split; [exact sample_store_holds|].
  destruct (@enhance_failure_returns_original latin1 failing_world
              sample_store sample_layout rock_concert
              [lit "https://test.de"] sample_store_holds)
    as (h' & r & Hphase & _ & Hkept & Hret).
  exists h'. split; [|exact Hkept].
  destruct (@enrichment_phase_exit_raises latin1 failing_world _ _ _ _ _
              eq_refl Hphase) as [x ->].
  exact Hret.
Defined.

(** ** Postal codes *)

Section plz.
Context `{UnicodeData}.

Lemma isdigit_spec (v : str) :
  isdigit v = true <-> v <> [] /\ Forall (fun c => cp_isdigit c = true) v.
Proof.
  unfold isdigit. rewrite andb_true_iff, forallb_forall, Forall_forall.
  split; intros [Hv Hd]; (split; [by destruct v|]).
  - intros c Hc. by apply Hd, list_elem_of_In.
  - intros c Hc. by apply Hd, list_elem_of_In.
Qed.

Lemma validate_plz_accepts_iff (v : str) :
  validate_plz v = inr v
  <-> v = [] \/ (length v = 5%nat /\ Forall (fun c => cp_isdigit c = true) v).
Proof.
  unfold validate_plz. destruct v as [|c0 v]; [by split; [left|]|].
  cbn [truthy truthy_list andb].
  destruct (isdigit (c0 :: v)) eqn:Hd.
  - apply isdigit_spec in Hd as [_ Hall]. cbn [andb].
    case_bool_decide as Hlen; cbn [negb]; split; try done.
    + by right.
    + by intros [?|[? _]].
  - cbn [andb negb]. split; [done|]. intros [?|[_ Hall]]; [done|].
    assert (isdigit (c0 :: v) = true) as Hd'; [|congruence].
    by apply isdigit_spec.
Qed.

Lemma validate_plz_cases (v : str) :
  validate_plz v = inr v
  \/ validate_plz v = inl "PLZ must be 5 digits"%string.
Proof. unfold validate_plz. destruct (_ && _); [by right|by left]. Qed.

(** C8, as amended.  Validation accepts a value exactly when it is empty or
    consists of exactly five digit characters, and otherwise raises the
    [ValueError]; so values of four or six characters and non-empty values
    with a non-digit character are rejected. *)
Theorem validate_plz_spec (v : str) :
  (validate_plz v = inr v
   <-> v = [] \/ (length v = 5%nat /\ Forall (fun c => cp_isdigit c = true) v))
  /\ (validate_plz v = inr v
      \/ validate_plz v = inl "PLZ must be 5 digits"%string)
  /\ (length v = 4%nat \/ length v = 6%nat ->
      validate_plz v = inl "PLZ must be 5 digits"%string)
  /\ (forall c, c ∈ v -> cp_isdigit c = false ->
      validate_plz v = inl "PLZ must be 5 digits"%string).
Proof.
  split; [apply validate_plz_accepts_iff|].
  split; [apply validate_plz_cases|].
  split.
  - intros Hlen. destruct (validate_plz_cases v) as [Hok|]; [|done].
    apply validate_plz_accepts_iff in Hok as [->|[? _]]; simpl in *; lia.
  - intros c Hc Hcd. destruct (validate_plz_cases v) as [Hok|]; [|done].
    apply validate_plz_accepts_iff in Hok as [->|[_ Hall]].
    + by apply elem_of_nil in Hc.
    + rewrite Forall_forall in Hall. apply Hall in Hc. congruence.
Qed.
End plz.

Lemma validate_plz_spec_witness :
  (length (lit "12345") = 5%nat
   /\ Forall (fun c => @cp_isdigit latin1 c = true) (lit "12345"))
  /\ @validate_plz latin1 (lit "12345") = inr (lit "12345")
  /\ @validate_plz latin1 (lit "1234") = inl "PLZ must be 5 digits"%string.
Proof.
  assert (length (lit "12345") = 5%nat
          /\ Forall (fun c => @cp_isdigit latin1 c = true) (lit "12345"))
    as Hok by (split; [reflexivity|repeat constructor]).
  split; [exact Hok|]. split.
  - apply (@validate_plz_spec latin1). right. exact Hok.
  - apply (@validate_plz_spec latin1). left. reflexivity.
Defined.

(** C8, as stated, fails: the empty string is accepted, and it does not
    consist of five digits. *)
Lemma validate_plz_accepts_empty :
  @validate_plz latin1 [] = inr [] /\ length (@nil N) <> 5%nat.
Proof. split; [reflexivity|discriminate]. Qed.

(** ** The URL filter *)

Lemma insert_by_false {A} (key : A -> bool) (x : A) (l : list A) :
  key x = false -> insert_by key x l = x :: l.
Proof. intros Hx. destruct l; simpl; [done|]. by rewrite Hx, andb_false_r. Qed.

Lemma insert_by_true {A} (key : A -> bool) (x : A) (front back : list A) :
  key x = true ->
  Forall (fun y => key y = false) front ->
  Forall (fun y => key y = true) back ->
  insert_by key x (front ++ back) = front ++ x :: back.
Proof.
  intros Hx Hfront Hback.
  induction Hfront as [|y front Hy _ IH]; simpl.
  - destruct Hback as [|y back Hy _]; simpl; [done|]. by rewrite Hy.
  - by rewrite Hy, Hx, IH.
Qed.

(** A stable sort on a Boolean key puts the [False] elements first and
    keeps the order inside both groups. *)
Lemma sort_by_partition {A} (key : A -> bool) (l : list A) :
  sort_by key l
  = filter (fun x => key x = false) l ++ filter (fun x => key x = true) l.
Proof.
  induction l as [|x l IH]; [done|].
  unfold sort_by in *. cbn [foldr]. rewrite IH.
  rewrite !filter_cons. destruct (key x) eqn:Hx.
  - rewrite decide_False by done. rewrite decide_True by done.
    apply insert_by_true; [done|..]; apply Forall_forall; intros y Hy;
      by apply list_elem_of_filter in Hy as [? _].
  - rewrite decide_True by done. rewrite decide_False by done.
    by apply insert_by_false.
Qed.

Section qr_detector_facts.
Context `{UnicodeData}.
Variable validators_url : str -> bool.

Lemma collect_valid_spec (urls valid_urls : list str) :
  (forall url, url ∈ urls ->
     validators_url url = false ->
     startswith (lit "http://") url || startswith (lit "https://") url = true ->
     validators_url (lit "https://" ++ url) = false) ->
  collect_valid validators_url urls valid_urls
  = valid_urls ++ omap (accepted_spec validators_url) urls.
Proof.
  revert valid_urls. induction urls as [|url urls IH]; intros valid_urls Hfix.
  - by rewrite app_nil_r.
  - assert (forall u, u ∈ urls ->
              validators_url u = false ->
              startswith (lit "http://") u || startswith (lit "https://") u
              = true ->
              validators_url (lit "https://" ++ u) = false) as Hfix'
      by (intros u Hu; apply Hfix; by right).
    cbn [collect_valid omap list_omap]. unfold accepted_spec at 1.
    destruct (validators_url url) eqn:Hv.
    { rewrite IH by done. by rewrite <- app_assoc. }
    destruct (any_german_domain url); cbn [andb]; [|by apply IH].
    destruct (startswith (lit "http://") url || startswith (lit "https://") url)
      eqn:Hs; cbn [negb].
    { rewrite (Hfix url) by (done || by left). by apply IH. }
    destruct (validators_url (lit "https://" ++ url)); [|by apply IH].
    rewrite IH by done. by rewrite <- app_assoc.
Qed.

(** C7.  Provided the validator does not take a malformed candidate that
    already starts with a scheme for well-formed once a second scheme is put
    in front, [validate_german_urls] accepts exactly the candidates of
    [accepted_spec], and returns them with those that contain a fragment of
    [german_domains] first, in input order inside both groups. *)
Theorem validate_german_urls_spec (urls : list str) :
  (forall url, url ∈ urls ->
     validators_url url = false ->
     startswith (lit "http://") url || startswith (lit "https://") url = true ->
     validators_url (lit "https://" ++ url) = false) ->
  let accepted := omap (accepted_spec validators_url) urls in
  validate_german_urls validators_url urls
  = filter (fun x => any_german_domain x = true) accepted
    ++ filter (fun x => any_german_domain x = false) accepted.
Proof.
  intros Hfix accepted. unfold validate_german_urls.
  rewrite collect_valid_spec by exact Hfix. cbn [app]. fold accepted.
  rewrite sort_by_partition. f_equal; apply list_filter_iff; intros x.
  - by rewrite negb_false_iff.
  - by rewrite negb_true_iff.
Qed.
End qr_detector_facts.

Lemma validate_german_urls_spec_witness :
  (forall url, url ∈ sample_urls ->
     sample_validator url = false ->
     startswith (lit "http://") url || startswith (lit "https://") url = true ->
     sample_validator (lit "https://" ++ url) = false)
  /\ @validate_german_urls latin1 sample_validator sample_urls
     = [lit "https://events.de"; lit "https://www.tickets.de";
        lit "https://venue.at"; lit "https://example.com"].
Proof.
  assert (forall url, url ∈ sample_urls ->
     sample_validator url = false ->
     startswith (lit "http://") url || startswith (lit "https://") url = true ->
     sample_validator (lit "https://" ++ url) = false) as Hfix.
  { intros url Hin Hv Hs. unfold sample_urls in Hin.
    repeat (apply elem_of_cons in Hin as [->|Hin]);
      try (by apply elem_of_nil in Hin);
      first [discriminate Hv | discriminate Hs]. }
  split; [exact Hfix|].
  rewrite (@validate_german_urls_spec latin1 sample_validator sample_urls Hfix).
  reflexivity.
Defined.

(** ** The reply parser *)

Lemma find_from_absent (c : N) (s : str) (i : Z) :
  c ∉ s -> find_from c s i = (-1)%Z.
Proof.
  revert i. induction s as [|x s IH]; intros i Hc; [done|]. simpl.
  apply not_elem_of_cons in Hc as [Hx Hs].
  destruct (x =? c)%N eqn:Heq; [|by apply IH].
  apply N.eqb_eq in Heq. congruence.
Qed.

Lemma find_from_first (c : N) (pre rest : str) (i : Z) :
  c ∉ pre -> find_from c (pre ++ c :: rest) i = (i + Z.of_nat (length pre))%Z.
Proof.
  revert i. induction pre as [|x pre IH]; intros i Hc; simpl.
  - rewrite N.eqb_refl. lia.
  - apply not_elem_of_cons in Hc as [Hx Hs].
    destruct (x =? c)%N eqn:Heq.
    + apply N.eqb_eq in Heq. congruence.
    + rewrite IH by done. lia.
Qed.

Lemma rfind_from_absent (c : N) (s : str) (i last : Z) :
  c ∉ s -> rfind_from c s i last = last.
Proof.
  revert i last. induction s as [|x s IH]; intros i last Hc; [done|]. simpl.
  apply not_elem_of_cons in Hc as [Hx Hs].
  destruct (x =? c)%N eqn:Heq; [|by apply IH].
  apply N.eqb_eq in Heq. congruence.
Qed.

Lemma rfind_from_last (c : N) (front suf : str) (i last : Z) :
  c ∉ suf ->
  rfind_from c (front ++ c :: suf) i last = (i + Z.of_nat (length front))%Z.
Proof.
  revert i last. induction front as [|x front IH]; intros i last Hc; simpl.
  - rewrite N.eqb_refl, rfind_from_absent by done. lia.
  - rewrite IH by done. lia.
Qed.

Lemma find_from_present (c : N) (s : str) (i : Z) :
  c ∈ s -> (i <= find_from c s i)%Z.
Proof.
  revert i. induction s as [|x s IH]; intros i Hc.
  - by apply elem_of_nil in Hc.
  - simpl. destruct (x =? c)%N eqn:Heq; [lia|].
    apply elem_of_cons in Hc as [->|Hc]; [by rewrite N.eqb_refl in Heq|].
    specialize (IH (i + 1)%Z Hc). lia.
Qed.

Lemma rfind_from_present (c : N) (s : str) (i last : Z) :
  c ∈ s -> (i <= rfind_from c s i last)%Z.
Proof.
  revert i last. induction s as [|x s IH]; intros i last Hc.
  - by apply elem_of_nil in Hc.
  - simpl. destruct (decide (c ∈ s)) as [Hin|Hnot].
    + specialize (IH (i + 1)%Z (if (x =? c)%N then i else last) Hin). lia.
    + rewrite rfind_from_absent by done.
      apply elem_of_cons in Hc as [->|Hc]; [|done].
      rewrite N.eqb_refl. lia.
Qed.

Lemma dict_get_set_ne (k k' : str) (v : json) (d : list (str * json)) :
  k <> k' -> dict_get k (dict_set k' v d) = dict_get k d.
Proof.
  intros Hne. induction d as [|[k0 v0] d IH]; simpl.
  - by rewrite decide_False.
  - destruct (decide (k0 = k')) as [->|]; simpl.
    + by rewrite !decide_False.
    + destruct (decide (k0 = k)); [done|apply IH].
Qed.

Section claude_client_facts.
Variable json_loads : str -> exn + json.
Variable from_dict : json -> exn + EventData.

Lemma json_text_between (pre mid suf : str) :
  123%N ∉ pre -> 125%N ∉ suf ->
  json_text (pre ++ [123%N] ++ mid ++ [125%N] ++ suf)
  = [123%N] ++ mid ++ [125%N].
Proof.
  intros Hpre Hsuf. unfold json_text, find, rfind, slice.
  cbn [app]. rewrite find_from_first by done.
  replace (pre ++ 123%N :: mid ++ 125%N :: suf)
    with ((pre ++ 123%N :: mid) ++ 125%N :: suf) at 1
    by by rewrite <- app_assoc.
  rewrite rfind_from_last by done.
  rewrite length_app. cbn [length].
  replace (Z.to_nat (0 + Z.of_nat (length pre))) with (length pre) by lia.
  replace (Z.to_nat (0 + Z.of_nat (length pre + S (length mid)) + 1
                     - (0 + Z.of_nat (length pre))))
    with (length (123%N :: mid ++ [125%N]))
    by (cbn [length]; rewrite length_app; simpl; lia).
  rewrite drop_app_length.
  replace (123%N :: mid ++ 125%N :: suf)
    with ((123%N :: mid ++ [125%N]) ++ suf)
    by (simpl; by rewrite <- app_assoc).
  by rewrite take_app_length.
Qed.

Lemma parse_body_no_braces response_text qr_codes urls :
  123%N ∉ response_text \/ 125%N ∉ response_text ->
  parse_body json_loads from_dict response_text qr_codes urls = inr None.
Proof.
  unfold parse_body, find, rfind. intros [Hno|Hno].
  - by rewrite find_from_absent.
  - rewrite (rfind_from_absent 125) by done. by rewrite orb_true_r.
Qed.

Lemma parse_body_braces (response_text : str) :
  123%N ∈ response_text -> 125%N ∈ response_text ->
  (find 123 response_text =? -1)%Z
  || (rfind 125 response_text + 1 =? 0)%Z = false.
Proof.
  intros Ho Hc. apply orb_false_iff. split; apply Z.eqb_neq.
  - pose proof (find_from_present 123 response_text 0 Ho).
    unfold find. lia.
  - pose proof (rfind_from_present 125 response_text 0 (-1) Hc).
    unfold rfind. lia.
Qed.

Lemma parse_response_returns response_text qr_codes urls :
  exists r,
    _parse_response json_loads from_dict response_text qr_codes urls = inr r.
Proof.
  unfold _parse_response.
  destruct (parse_body _ _ _ _ _) as [[]|r]; eauto.
Qed.

Lemma parse_body_decode_fails response_text qr_codes urls x :
  json_loads (json_text response_text) = inl x ->
  _parse_response json_loads from_dict response_text qr_codes urls = inr None.
Proof.
  unfold _parse_response, parse_body, json_text. intros ->.
  destruct (_ || _); [done|]. by destruct x.
Qed.

Lemma parse_body_no_name response_text qr_codes urls d :
  json_loads (json_text response_text) = inr (JObj d) ->
  dict_get (lit "veranstaltungsname") d = None
  \/ (exists n, dict_get (lit "veranstaltungsname") d = Some n
                 /\ truthy n = false) ->
  _parse_response json_loads from_dict response_text qr_codes urls = inr None.
Proof.
  unfold _parse_response, parse_body, json_text. intros -> Hname.
  destruct (_ || _); [done|].
  assert (dict_get (lit "veranstaltungsname")
            (if truthy urls
             then dict_set (lit "erkannte_links") (JArr (JStr <$> urls))
                    (if truthy qr_codes
                     then dict_set (lit "erkannte_qr_codes")
                            (JArr (JStr <$> qr_codes)) d
                     else d)
             else if truthy qr_codes
                  then dict_set (lit "erkannte_qr_codes")
                         (JArr (JStr <$> qr_codes)) d
                  else d)
          = dict_get (lit "veranstaltungsname") d) as ->.
  { destruct (truthy urls), (truthy qr_codes);
      rewrite ?dict_get_set_ne by done; reflexivity. }
  destruct Hname as [->|(n & -> & ->)]; reflexivity.
Qed.

Lemma parse_body_name_kept (qr_codes urls : list str)
    (d : list (str * json)) :
  dict_get (lit "veranstaltungsname")
    (if truthy urls
     then dict_set (lit "erkannte_links") (JArr (JStr <$> urls))
            (if truthy qr_codes
             then dict_set (lit "erkannte_qr_codes")
                    (JArr (JStr <$> qr_codes)) d
             else d)
     else if truthy qr_codes
          then dict_set (lit "erkannte_qr_codes")
                 (JArr (JStr <$> qr_codes)) d
          else d)
  = dict_get (lit "veranstaltungsname") d.
Proof.
  destruct (truthy urls), (truthy qr_codes);
    rewrite ?dict_get_set_ne by done; reflexivity.
Qed.

(** The parser on a reply with both braces, by what the decoder says about
    the slice. *)
Lemma parse_response_decoded response_text qr_codes urls :
  123%N ∈ response_text -> 125%N ∈ response_text ->
  _parse_response json_loads from_dict response_text qr_codes urls
  = match json_loads (json_text response_text) with
    | inr (JObj d) =>
        match dict_get (lit "veranstaltungsname") d with
        | Some n =>
            if truthy n then
              match from_dict
                      (JObj (if truthy urls
                             then dict_set (lit "erkannte_links")
                                    (JArr (JStr <$> urls))
                                    (if truthy qr_codes
                                     then dict_set (lit "erkannte_qr_codes")
                                            (JArr (JStr <$> qr_codes)) d
                                     else d)
                             else if truthy qr_codes
                                  then dict_set (lit "erkannte_qr_codes")
                                         (JArr (JStr <$> qr_codes)) d
                                  else d)) with
              | inr event_data => inr (Some event_data)
              | inl _ => inr None
              end
            else inr None
        | None => inr None
        end
    | _ => inr None
    end.
Proof.
  intros Ho Hc. unfold _parse_response, parse_body. cbv zeta.
  fold (json_text response_text). rewrite parse_body_braces by done.
  destruct (json_loads (json_text response_text)) as [x|j];
    [by destruct x|].
  destruct j as [| | | | |d]; try done.
  rewrite parse_body_name_kept.
  destruct (dict_get (lit "veranstaltungsname") d) as [n|]; [|done].
  destruct (truthy n); [|done]. cbn [negb].
  destruct (from_dict _) as [x|event_data]; [by destruct x|done].
Qed.

(** C5. For every reply text the parser returns to its caller and never
    raises.  What it hands to the JSON decoder is the slice from the first
    opening brace to the last closing brace, both included, and the decoder's
    answer on that slice decides the result: on a reply
    [pre ++ "{" ++ mid ++ "}" ++ suf] with no opening brace in [pre] and no
    closing brace in [suf] the result is the record that [from_dict] builds
    from the object decoded from ["{" ++ mid ++ "}"] (after the detected QR
    codes and URLs were put in) if that object has a non-empty event name and
    [from_dict] accepts it, and [None] otherwise.  The result is [None] when
    the reply has no opening or no closing brace, when the decoder fails on
    the slice, when it decodes to something that is no object, and when the
    decoded object has no entry [veranstaltungsname] or an entry that is
    false in Python's sense (an empty name).  A record is returned in no
    other case than the one described. *)
Theorem parse_response_spec (response_text : str) (qr_codes urls : list str) :
  let result :=
    _parse_response json_loads from_dict response_text qr_codes urls in
  let with_detected (d : list (str * json)) :=
    let d := if truthy qr_codes
             then dict_set (lit "erkannte_qr_codes") (JArr (JStr <$> qr_codes))
                    d
             else d in
    if truthy urls
    then dict_set (lit "erkannte_links") (JArr (JStr <$> urls)) d
    else d in
  let built (d : list (str * json)) : exn + option EventData :=
    match from_dict (JObj (with_detected d)) with
    | inr event_data => inr (Some event_data)
    | inl _ => inr None
    end in
  (exists r, result = inr r)
  /\ (forall pre mid suf,
        response_text = pre ++ [123%N] ++ mid ++ [125%N] ++ suf ->
        123%N ∉ pre -> 125%N ∉ suf ->
        json_text response_text = [123%N] ++ mid ++ [125%N]
        /\ result
           = match json_loads ([123%N] ++ mid ++ [125%N]) with
             | inr (JObj d) =>
                 match dict_get (lit "veranstaltungsname") d with
                 | Some n => if truthy n then built d else inr None
                 | None => inr None
                 end
             | _ => inr None
             end)
  /\ (123%N ∉ response_text \/ 125%N ∉ response_text -> result = inr None)
  /\ (forall x,
        json_loads (json_text response_text) = inl x -> result = inr None)
  /\ (forall j,
        json_loads (json_text response_text) = inr j ->
        (forall d, j <> JObj d) -> result = inr None)
  /\ (forall d,
        json_loads (json_text response_text) = inr (JObj d) ->
        dict_get (lit "veranstaltungsname") d = None
        \/ (exists n, dict_get (lit "veranstaltungsname") d = Some n
                       /\ truthy n = false) ->
        result = inr None)
  /\ (forall d n,
        123%N ∈ response_text -> 125%N ∈ response_text ->
        json_loads (json_text response_text) = inr (JObj d) ->
        dict_get (lit "veranstaltungsname") d = Some n ->
        truthy n = true ->
        result = built d)
  /\ (forall event_data,
        result = inr (Some event_data) ->
        123%N ∈ response_text /\ 125%N ∈ response_text
        /\ exists d n,
             json_loads (json_text response_text) = inr (JObj d)
             /\ dict_get (lit "veranstaltungsname") d = Some n
             /\ truthy n = true
             /\ from_dict (JObj (with_detected d)) = inr event_data).
Proof.
  intros result with_detected built.
  split; [apply parse_response_returns|].
  split.
  { intros pre mid suf Heq Hpre Hsuf.
    pose proof (json_text_between pre mid suf Hpre Hsuf) as Hslice.
    rewrite <- Heq in Hslice. split; [exact Hslice|].
    subst result. rewrite parse_response_decoded, Hslice; [done| |].
    - rewrite Heq. apply elem_of_app. right. by left.
    - rewrite Heq, !elem_of_app. right. right. right. left. by left. }
  split.
  { intros Hno. subst result. unfold _parse_response.
    by rewrite parse_body_no_braces. }
  split; [intros x; apply parse_body_decode_fails|].
  split.
  { intros j Hj Hobj. subst result.
    unfold _parse_response, parse_body. cbv zeta.
    fold (json_text response_text). rewrite Hj.
    destruct (_ || _); [done|].
    destruct j as [| | | | |d]; try done. by destruct (Hobj d). }
  split; [intros d; apply parse_body_no_name|].
  split.
  { intros d n Ho Hc Hd Hn Ht. subst result.
    by rewrite parse_response_decoded, Hd, Hn, Ht. }
  intros event_data Hres. subst result.
  destruct (decide (123%N ∈ response_text)) as [Ho|Ho];
    [|unfold _parse_response in Hres;
      by rewrite parse_body_no_braces in Hres by (by left)].
  destruct (decide (125%N ∈ response_text)) as [Hc|Hc];
    [|unfold _parse_response in Hres;
      by rewrite parse_body_no_braces in Hres by (by right)].
  split; [done|]. split; [done|].
  rewrite parse_response_decoded in Hres by done.
  destruct (json_loads (json_text response_text)) as [x|j]; [done|].
  destruct j as [| | | | |d]; try done.
  destruct (dict_get (lit "veranstaltungsname") d) as [n|] eqn:Hn; [|done].
  destruct (truthy n) eqn:Ht; [|done].
  exists d, n. split; [done|]. split; [done|]. split; [done|].
  fold (with_detected d) in Hres.
  destruct (from_dict (JObj (with_detected d))); [done|]. by simplify_eq.
Qed.
End claude_client_facts.

Lemma parse_response_spec_witness :
  json_text (lit "Antwort: " ++ empty_name_object ++ lit " Ende")
  = empty_name_object
  /\ _parse_response sample_decoder sample_from_dict
       (lit "Ergebnis: " ++ named_object ++ lit " Viel Erfolg!") [] []
     = inr (Some (EventData_default (lit "Rock Night")))
  /\ _parse_response sample_json_loads sample_from_dict
       (lit "Antwort: " ++ empty_name_object ++ lit " Ende") [] []
     = inr None
  /\ _parse_response sample_json_loads sample_from_dict
       (lit "Hier: {} fertig") [lit "https://events.de"] []
     = inr None
  /\ _parse_response sample_json_loads sample_from_dict
       (lit "{kaputt}") [] []
     = inr None
  /\ _parse_response sample_json_loads sample_from_dict
       (lit "kein JSON") [] []
     = inr None.
Proof.
  split.
  { destruct (parse_response_spec sample_json_loads sample_from_dict
                (lit "Antwort: " ++ empty_name_object ++ lit " Ende") [] [])
      as (_ & Hslice & _).
    apply (Hslice (lit "Antwort: ")
             (quoted (lit "veranstaltungsname") ++ lit ": " ++ quoted [])
             (lit " Ende")).
    - reflexivity.
    - apply (bool_decide_unpack _). vm_compute. exact I.
    - apply (bool_decide_unpack _). vm_compute. exact I. }
  split.
  { destruct (parse_response_spec sample_decoder sample_from_dict
                (lit "Ergebnis: " ++ named_object ++ lit " Viel Erfolg!")
                [] [])
      as (_ & Hslice & _).
    destruct (Hslice (lit "Ergebnis: ")
                (quoted (lit "veranstaltungsname") ++ lit ": "
                 ++ quoted (lit "Rock Night"))
                (lit " Viel Erfolg!")) as [_ ->].
    - reflexivity.
    - apply (bool_decide_unpack _). vm_compute. exact I.
    - apply (bool_decide_unpack _). vm_compute. exact I.
    - vm_compute. reflexivity. }
  split.
  { destruct (parse_response_spec sample_json_loads sample_from_dict
                (lit "Antwort: " ++ empty_name_object ++ lit " Ende") [] [])
      as (_ & _ & _ & _ & _ & Hname & _).
    apply (Hname [(lit "veranstaltungsname", JStr [])]).
    - vm_compute. reflexivity.
    - right. exists (JStr []). split; reflexivity. }
  split.
  { destruct (parse_response_spec sample_json_loads sample_from_dict
                (lit "Hier: {} fertig") [lit "https://events.de"] [])
      as (_ & _ & _ & _ & _ & Hname & _).
    apply (Hname []).
    - vm_compute. reflexivity.
    - left. reflexivity. }
  split.
  { destruct (parse_response_spec sample_json_loads sample_from_dict
                (lit "{kaputt}") [] [])
      as (_ & _ & _ & Hdecode & _).
    apply (Hdecode JSONDecodeError). vm_compute. reflexivity. }
  destruct (parse_response_spec sample_json_loads sample_from_dict
              (lit "kein JSON") [] [])
    as (_ & _ & Hbraces & _).
  apply Hbraces. left. apply (bool_decide_unpack _). vm_compute. exact I.
Defined.

(** ** What the merge leaves alone *)

Lemma steps_cons {S} (rule : Scraped -> S -> S) x s l :
  steps rule x (s :: l) = steps rule (rule s x) l.
Proof. reflexivity. Qed.

Lemma steps_app {S} (rule : Scraped -> S -> S) x l1 l2 :
  steps rule x (l1 ++ l2) = steps rule (steps rule x l1) l2.
Proof. apply foldl_app. Qed.

Lemma steps_ext {S} (rule rule' : Scraped -> S -> S) x l :
  (forall s y, rule s y = rule' s y) -> steps rule x l = steps rule' x l.
Proof.
  intros Hext. revert x. induction l as [|s l IH]; intros x; [done|].
  by rewrite !steps_cons, Hext, IH.
Qed.

(** A property of a part that every step keeps is kept by all steps. *)
Lemma steps_invariant {S T} (rule : Scraped -> S -> S) (f : S -> T) x l :
  (forall s y, f (rule s y) = f y) -> f (steps rule x l) = f x.
Proof.
  intros Hf. revert x. induction l as [|s l IH]; intros x; [done|].
  by rewrite steps_cons, IH, Hf.
Qed.

Section merge_frame.
Context `{UnicodeData}.

Lemma price_rule_unassigned s p :
  (kostenlos (price_rule s p), waehrung (price_rule s p),
   vorverkauf (price_rule s p), abendkasse (price_rule s p))
  = (kostenlos p, waehrung p, vorverkauf p, abendkasse p).
Proof.
  unfold price_rule, fill, price_wanted. destruct p as [[] pr ? ? ?]; simpl.
  - by rewrite andb_false_r.
  - destruct (negb (truthy pr)); [|done]. by destruct (price_offer s).
Qed.

Lemma address_rule_unassigned s o :
  (veranstaltungsort (address_rule s o), bundesland (address_rule s o))
  = (veranstaltungsort o, bundesland o).
Proof.
  unfold address_rule, fill.
  destruct (negb _); [|done]. by destruct (address_offer s) as [[[] ?]|].
Qed.

Lemma merge_steps_unassigned l e : unassigned (merge_steps e l) = unassigned e.
Proof.
  unfold unassigned.
  rewrite merge_steps_preise, merge_steps_ort, merge_steps_kontakt,
    kontakt_steps. cbn [veranstalter].
  pose proof (steps_invariant price_rule
                (fun p => (kostenlos p, waehrung p, vorverkauf p, abendkasse p))
                (preise e) l price_rule_unassigned) as Hp.
  pose proof (steps_invariant address_rule
                (fun o => (veranstaltungsort o, bundesland o))
                (ort e) l address_rule_unassigned) as Ho.
  simpl in Hp, Ho.
  injection Hp as -> -> -> ->. injection Ho as -> ->. reflexivity.
Qed.

(** The record a merge call returns, up to its confidence. *)
Lemma merge_scraped_data_steps e sd :
  exists c,
    _merge_scraped_data e sd = inr (set_confidence c (merge_steps e sd)).
Proof.
  rewrite merge_scraped_data_closed. cbn zeta.
  destruct (truthy sd); [by eexists|].
  exists (confidence (merge_steps e sd)). by rewrite set_confidence_same.
Qed.

(** X1.  The merge writes to the price, the address with postal code and
    city, the three contact channels, the ticket links, the sources and the
    confidence, and to nothing else: name, dates, description, category,
    artists, ticket outlets and ticket phone, detected links and QR codes and
    language are returned as they came, and so are the free flag, the
    currency, the advance and box-office prices, the venue name, the state
    and the organizer. *)
Theorem merge_touches_only_enrichable_fields (e : EventData)
    (sd : list Scraped) :
  exists enhanced,
    _merge_scraped_data e sd = inr enhanced
    /\ veranstaltungsname enhanced = veranstaltungsname e
    /\ termine enhanced = termine e
    /\ beschreibung enhanced = beschreibung e
    /\ kategorie enhanced = kategorie e
    /\ kuenstler (metadaten enhanced) = kuenstler (metadaten e)
    /\ verkaufsstellen (ticketinfo (metadaten enhanced))
       = verkaufsstellen (ticketinfo (metadaten e))
    /\ ticket_telefon (ticketinfo (metadaten enhanced))
       = ticket_telefon (ticketinfo (metadaten e))
    /\ erkannte_links enhanced = erkannte_links e
    /\ erkannte_qr_codes enhanced = erkannte_qr_codes e
    /\ sprache enhanced = sprache e
    /\ kostenlos (preise enhanced) = kostenlos (preise e)
    /\ waehrung (preise enhanced) = waehrung (preise e)
    /\ vorverkauf (preise enhanced) = vorverkauf (preise e)
    /\ abendkasse (preise enhanced) = abendkasse (preise e)
    /\ veranstaltungsort (ort enhanced) = veranstaltungsort (ort e)
    /\ bundesland (ort enhanced) = bundesland (ort e)
    /\ veranstalter (kontakt (metadaten enhanced))
       = veranstalter (kontakt (metadaten e)).
Proof.
  destruct (merge_scraped_data_steps e sd) as [c ->].
  eexists; split; [reflexivity|].
  pose proof (merge_steps_outside sd e) as Hout.
  pose proof (merge_steps_unassigned sd e) as Hun.
  unfold outside, unassigned in Hout, Hun.
  destruct (merge_steps e sd) as [? [] ? [] ? ? [? [] [] ? ?] ? ? ?].
  simpl in *. by simplify_eq.
Qed.
End merge_frame.

(** ** Lists that grow by new entries *)

(** Appending every offered entry unless it is there already adds, behind
    what was there, the offered entries that were missing: each once, in the
    order in which they were first offered. *)
Lemma steps_add_new (key : Scraped -> option str) (x : list str)
    (l : list Scraped) :
  exists new,
    steps (fun s y => match key s with Some u => add_new u y | None => y end)
      x l = x ++ new
    /\ NoDup new
    /\ (forall u, u ∈ new <-> ((u ∉ x) /\ exists s, s ∈ l /\ key s = Some u)).
Proof.
  revert x. induction l as [|s l IH]; intros x.
  { exists []. rewrite app_nil_r. split; [done|]. split; [constructor|].
    intros u. split; [by intros ?%elem_of_nil|].
    by intros [_ (s & ?%elem_of_nil & _)]. }
  rewrite steps_cons. destruct (key s) as [u|] eqn:Hk.
  - unfold add_new at 2. case_bool_decide as Hin.
    + destruct (IH x) as (new & -> & Hnd & Hnew).
      exists new. split; [done|]. split; [done|].
      intros v. rewrite Hnew. split.
      * intros [Hv (s' & Hs' & Hk')]. split; [done|].
        exists s'. split; [by right|done].
      * intros [Hv (s' & Hs' & Hk')]. split; [done|].
        apply elem_of_cons in Hs' as [->|Hs']; [congruence|eauto].
    + destruct (IH (x ++ [u])) as (new & -> & Hnd & Hnew).
      exists (u :: new). rewrite <- app_assoc. split; [done|]. split.
      * constructor; [|done]. rewrite Hnew. intros [Hu _].
        apply Hu, elem_of_app. right. by left.
      * intros v. rewrite elem_of_cons, Hnew. split.
        -- intros [->|[Hv (s' & Hs' & Hk')]].
           ++ split; [done|]. exists s. split; [by left|done].
           ++ split; [|exists s'; split; [by right|done]].
              intros Hx. apply Hv, elem_of_app. by left.
        -- intros [Hv (s' & Hs' & Hk')].
           destruct (decide (v = u)) as [->|Hne]; [by left|right].
           split.
           { intros [?|Hvu%list_elem_of_singleton]%elem_of_app; done. }
           apply elem_of_cons in Hs' as [->|Hs']; [congruence|eauto].
  - destruct (IH x) as (new & -> & Hnd & Hnew).
    exists new. split; [done|]. split; [done|].
    intros v. rewrite Hnew. split.
    + intros [Hv (s' & Hs' & Hk')]. split; [done|].
      exists s'. split; [by right|done].
    + intros [Hv (s' & Hs' & Hk')]. split; [done|].
      apply elem_of_cons in Hs' as [->|Hs']; [congruence|eauto].
Qed.

(** Appending each entry of [us] in turn unless it is there already leaves
    what was there and adds the missing entries at their first occurrence in
    [us].  ([remove_dups] keeps the last of equal entries, so between the two
    reversals it keeps the first.) *)
Lemma foldl_add_new_first (us x : list str) :
  foldl (fun y u => add_new u y) x us
  = x ++ reverse (remove_dups (reverse (filter (fun u => u ∉ x) us))).
Proof.
  induction us as [|u us IH] using rev_ind.
  { by rewrite app_nil_r. }
  rewrite foldl_app, filter_app, reverse_app. cbn [foldl]. rewrite IH.
  set (new := reverse (remove_dups (reverse (filter (fun u => u ∉ x) us)))).
  assert (forall v, v ∈ new <-> v ∈ reverse (filter (fun u => u ∉ x) us))
    as Hnew.
  { intros v. unfold new. by rewrite elem_of_reverse, elem_of_remove_dups. }
  unfold add_new. rewrite filter_cons, filter_nil.
  destruct (decide (u ∉ x)) as [Hx|Hx].
  - rewrite reverse_singleton. cbn [app remove_dups].
    destruct (decide_rel elem_of u (reverse (filter (fun u => u ∉ x) us)))
      as [Hin|Hin].
    + rewrite bool_decide_eq_true_2; [done|].
      apply elem_of_app. right. by apply Hnew.
    + rewrite bool_decide_eq_false_2.
      * by rewrite reverse_cons, <- app_assoc.
      * intros [?|?%Hnew]%elem_of_app; done.
  - rewrite reverse_nil. cbn [app]. rewrite bool_decide_eq_true_2; [done|].
    apply elem_of_app. left. by apply dec_stable.
Qed.

Lemma steps_add_new_first (key : Scraped -> option str) (x : list str)
    (l : list Scraped) :
  steps (fun s y => match key s with Some u => add_new u y | None => y end)
    x l
  = x ++ reverse (remove_dups (reverse (filter (fun u => u ∉ x) (omap key l)))).
Proof.
  rewrite <- foldl_add_new_first. revert x.
  induction l as [|s l IH]; intros x; [done|].
  rewrite steps_cons. cbn [omap list_omap].
  destruct (key s) as [u|]; cbn [foldl]; apply IH.
Qed.

(** Entries are only ever appended: what the first signals gave stays in
    front. *)
Lemma steps_add_new_prefix (key : Scraped -> option str) (x : list str)
    (l1 l2 : list Scraped) :
  steps (fun s y => match key s with Some u => add_new u y | None => y end)
    x l1
  `prefix_of`
  steps (fun s y => match key s with Some u => add_new u y | None => y end)
    x (l1 ++ l2).
Proof.
  rewrite steps_app.
  destruct (steps_add_new key (steps
    (fun s y => match key s with Some u => add_new u y | None => y end)
    x l1) l2) as (new & -> & _).
  by exists new.
Qed.

Section merge_lists.
Context `{UnicodeData}.

(** X2.  The sources after a merge are the sources before it, followed by
    the URLs of the signals that were not among them: each once, at the place
    of its first occurrence among the signals' URLs.  A signal without a URL
    adds nothing.  URLs are only appended: the sources after merging the
    first signals alone are an initial segment of the sources after merging
    them all. *)
Theorem merge_sources (e : EventData) (sd : list Scraped) :
  let old := quellen (metadaten e) in
  let new :=
    reverse (remove_dups (reverse (filter (fun u => u ∉ old) (omap url sd)))) in
  exists enhanced,
    _merge_scraped_data e sd = inr enhanced
    /\ quellen (metadaten enhanced) = old ++ new
    /\ NoDup new
    /\ (forall u, u ∈ new <->
          ((u ∉ old) /\ exists s, s ∈ sd /\ url s = Some u))
    /\ (forall l1 l2, sd = l1 ++ l2 ->
          exists first,
            _merge_scraped_data e l1 = inr first
            /\ quellen (metadaten first)
               `prefix_of` quellen (metadaten enhanced)).
Proof.
  intros old new.
  destruct (merge_scraped_data_steps e sd) as [c ->].
  exists (set_confidence c (merge_steps e sd)).
  split; [reflexivity|].
  change (quellen (metadaten (set_confidence c ?x)))
    with (quellen (metadaten x)).
  rewrite merge_steps_quellen.
  assert (steps quellen_rule old sd = old ++ new) as Hsteps
    by apply (steps_add_new_first url).
  destruct (steps_add_new url old sd) as (new' & Hsteps' & Hnd & Hnew).
  assert (new' = new) as ->.
  { apply (app_inv_head old). rewrite <- Hsteps. symmetry. exact Hsteps'. }
  split; [exact Hsteps|]. split; [exact Hnd|]. split; [exact Hnew|].
  intros l1 l2 ->.
  destruct (merge_scraped_data_steps e l1) as [c1 ->].
  eexists. split; [reflexivity|].
  change (quellen (metadaten (set_confidence c1 ?x)))
    with (quellen (metadaten x)).
  rewrite merge_steps_quellen. apply (steps_add_new_prefix url).
Qed.

(** X3.  The ticket links after a merge are the links before it, followed
    by the URLs, not among them, of the signals whose lower-cased text
    contains one of the ticket keywords: each once, at the place of its first
    occurrence among these signals.  Links are only appended: the links
    after merging the first signals alone are an initial segment of the links
    after merging them all. *)
Theorem merge_ticket_links (e : EventData) (sd : list Scraped) :
  let old := online_links (ticketinfo (metadaten e)) in
  let ticket_url (s : Scraped) :=
    if existsb (fun keyword => contains keyword (lower (get_text_content s)))
         ticket_keywords
    then url s else None in
  let new :=
    reverse (remove_dups (reverse (filter (fun u => u ∉ old) (omap ticket_url sd)))) in
  exists enhanced,
    _merge_scraped_data e sd = inr enhanced
    /\ online_links (ticketinfo (metadaten enhanced)) = old ++ new
    /\ NoDup new
    /\ (forall u, u ∈ new <->
          ((u ∉ old)
           /\ exists s, s ∈ sd /\ url s = Some u
                /\ existsb (fun keyword =>
                              contains keyword (lower (get_text_content s)))
                     ticket_keywords = true))
    /\ (forall l1 l2, sd = l1 ++ l2 ->
          exists first,
            _merge_scraped_data e l1 = inr first
            /\ online_links (ticketinfo (metadaten first))
               `prefix_of` online_links (ticketinfo (metadaten enhanced))).
Proof.
  intros old ticket_url new.
  assert (forall l,
            steps links_rule old l
            = steps (fun s y => match ticket_url s with
                                | Some u => add_new u y
                                | None => y
                                end) old l) as Hrule.
  { intros l. apply steps_ext. intros s y. unfold links_rule, ticket_url.
    fold (mentions_tickets s). by destruct (url s), (mentions_tickets s). }
  destruct (merge_scraped_data_steps e sd) as [c ->].
  exists (set_confidence c (merge_steps e sd)).
  split; [reflexivity|].
  change (online_links (ticketinfo (metadaten (set_confidence c ?x))))
    with (online_links (ticketinfo (metadaten x))).
  rewrite merge_steps_online_links, Hrule.
  assert (steps (fun s y => match ticket_url s with
                            | Some u => add_new u y
                            | None => y
                            end) old sd = old ++ new) as Hsteps
    by apply steps_add_new_first.
  destruct (steps_add_new ticket_url old sd) as (new' & Hsteps' & Hnd & Hnew).
  assert (new' = new) as ->.
  { apply (app_inv_head old). rewrite <- Hsteps. symmetry. exact Hsteps'. }
  split; [exact Hsteps|]. split; [exact Hnd|]. split.
  - intros u. rewrite Hnew. unfold ticket_url.
    split; intros [Hu (s & Hs & Hk)]; (split; [done|]); exists s.
    + destruct (existsb _ _); [done|congruence].
    + destruct Hk as [Hk ->]. done.
  - intros l1 l2 ->.
    destruct (merge_scraped_data_steps e l1) as [c1 ->].
    eexists. split; [reflexivity|].
    change (online_links (ticketinfo (metadaten (set_confidence c1 ?x))))
      with (online_links (ticketinfo (metadaten x))).
    rewrite merge_steps_online_links, Hrule.
    apply steps_add_new_prefix.
Qed.
End merge_lists.


(** ** Merging in batches *)

Section merge_batches.
Context `{UnicodeData}.

Lemma set_confidence_set_confidence a b e :
  set_confidence a (set_confidence b e) = set_confidence a e.
Proof. reflexivity. Qed.

Lemma merge_steps_app e l1 l2 :
  merge_steps e (l1 ++ l2) = merge_steps (merge_steps e l1) l2.
Proof. apply steps_app. Qed.

(** X4.  Merging a list of signals in two calls, the first part and then
    the rest into the result, gives the same record as merging it in one
    call, except for the confidence: every call adds the bonus for its own
    signals to the confidence it finds, so the second call starts from the
    confidence the first one left. *)
Theorem merge_in_batches (e : EventData) (l1 l2 : list Scraped) :
  let bonus (l : list Scraped) (c : Q) :=
    if truthy l then py_min 1 (c + source_bonus l) else c in
  exists whole first second,
    _merge_scraped_data e (l1 ++ l2) = inr whole
    /\ _merge_scraped_data e l1 = inr first
    /\ _merge_scraped_data first l2 = inr second
    /\ set_confidence (confidence whole) second = whole
    /\ confidence whole = bonus (l1 ++ l2) (confidence e)
    /\ confidence second = bonus l2 (bonus l1 (confidence e)).
Proof.
  intros bonus. unfold bonus. rewrite !merge_scraped_data_closed. cbn zeta.
  eexists _, _, _. split; [reflexivity|]. split; [reflexivity|].
  rewrite merge_scraped_data_closed. cbn zeta. split; [reflexivity|].
  destruct l1 as [|s1 l1]; [|destruct l2 as [|s2 l2]].
  - cbn [app truthy truthy_list merge_steps steps foldl].
    fold (steps merge_step e l2). fold (merge_steps e l2).
    destruct l2; cbn [truthy truthy_list].
    + split; [apply set_confidence_same|done].
    + rewrite !confidence_set_confidence, merge_steps_confidence. done.
  - rewrite app_nil_r. cbn [truthy truthy_list].
    change (merge_steps ?x []) with x.
    rewrite !confidence_set_confidence, merge_steps_confidence.
    split; [apply set_confidence_same|done].
  - change (truthy ((s1 :: l1) ++ s2 :: l2)) with true.
    cbn [truthy truthy_list].
    rewrite merge_steps_app, !merge_steps_set_confidence.
    rewrite !confidence_set_confidence, !merge_steps_confidence. done.
Qed.
End merge_batches.

(** ** Prices stay valid *)

(** A property of a part that every step keeps holds after all steps. *)
Lemma steps_preserves {S} (rule : Scraped -> S -> S) (P : S -> Prop) x l :
  (forall s y, P y -> P (rule s y)) -> P x -> P (steps rule x l).
Proof.
  intros HP. revert x. induction l as [|s l IH]; intros x Hx; [done|].
  rewrite steps_cons. by apply IH, HP.
Qed.

Section merge_prices.
Context `{UnicodeData}.

Lemma py_float_nonneg text v : py_float text = Some v -> (0 <= v)%Q.
Proof.
  unfold py_float. destruct (break_at 46 text) as [ip fp].
  destruct (mapM cp_decimal ip); [|done].
  destruct (mapM cp_decimal _); [|done].
  destruct (truthy _); [|done].
  intros [= <-]. rewrite Qred_correct. unfold Qle. simpl. lia.
Qed.

Lemma price_offer_nonneg s v : price_offer s = Some v -> (0 <= v)%Q.
Proof.
  unfold price_offer. intros Hv.
  destruct (re_search price_pattern _); [|done]. simpl in Hv.
  destruct (py_or _ _); [|done]. by apply py_float_nonneg in Hv.
Qed.

Lemma validate_positive_price_accepts (v : option Q) :
  validate_positive_price v = inr v
  <-> match v with Some x => (0 <= x)%Q | None => True end.
Proof.
  unfold validate_positive_price. destruct v as [x|]; [|done].
  destruct (Qlt_le_dec x 0); split; (done || lra).
Qed.

(** X5.  The merge assigns to the price without running the model's
    validators, and keeps their guarantee by itself: a record whose price
    passes [validate_positive_price] passes it after the merge too (the
    amounts read from a page are never negative), and the advance and
    box-office prices are not assigned to. *)
Theorem merge_keeps_price_valid (e : EventData) (sd : list Scraped) :
  validate_positive_price (preis (preise e)) = inr (preis (preise e)) ->
  exists enhanced,
    _merge_scraped_data e sd = inr enhanced
    /\ validate_positive_price (preis (preise enhanced))
       = inr (preis (preise enhanced))
    /\ vorverkauf (preise enhanced) = vorverkauf (preise e)
    /\ abendkasse (preise enhanced) = abendkasse (preise e).
Proof.
  intros Hvalid. destruct (merge_scraped_data_steps e sd) as [c ->].
  eexists; split; [reflexivity|].
  change (preise (set_confidence c ?x)) with (preise x).
  rewrite merge_steps_preise. split; [|split].
  - revert Hvalid. rewrite !validate_positive_price_accepts.
    apply (steps_preserves price_rule
             (fun p => match preis p with
                       | Some x => (0 <= x)%Q
                       | None => True
                       end)).
    intros s p Hp. unfold price_rule, fill.
    destruct (price_wanted p); [|done].
    destruct (price_offer s) as [v|] eqn:Hv; [|done].
    simpl. by eapply price_offer_nonneg.
  - apply (steps_invariant price_rule vorverkauf). intros s p.
    by pose proof (price_rule_unassigned s p) as [= _ _ -> _].
  - apply (steps_invariant price_rule abendkasse). intros s p.
    by pose proof (price_rule_unassigned s p) as [= _ _ _ ->].
Qed.
End merge_prices.

Lemma merge_keeps_price_valid_witness :
  validate_positive_price (preis (preise rock_concert))
  = inr (preis (preise rock_concert))
  /\ exists enhanced,
       @_merge_scraped_data latin1 rock_concert [sample_page] = inr enhanced
       /\ validate_positive_price (preis (preise enhanced))
          = inr (preis (preise enhanced)).
Proof.
  assert (validate_positive_price (preis (preise rock_concert))
          = inr (preis (preise rock_concert))) as Hvalid by reflexivity.
  split; [exact Hvalid|].
  destruct (@merge_keeps_price_valid latin1 rock_concert [sample_page] Hvalid)
    as (enhanced & Hm & Hv & _).
  exists enhanced. split; [exact Hm|exact Hv].
Defined.

(** ** Enrichment and completeness *)

Lemma count_true_le (l l' : list bool) :
  Forall2 (fun b b' => b = true -> b' = true) l l' ->
  (length (filter (fun b => b = true) l)
   <= length (filter (fun b => b = true) l'))%nat.
Proof.
  induction 1 as [|b b' l l' Hb _ IH]; [done|].
  rewrite !count_true_cons. destruct b; [rewrite Hb by done|]; simpl; lia.
Qed.

Section merge_quality.
Context `{UnicodeData}.

Lemma adresse_steps_truthy l o :
  truthy (adresse o) = true ->
  truthy (adresse (steps address_rule o l)) = true.
Proof. intros Ho. by rewrite address_steps_kept. Qed.

(** Every completeness factor that holds for a record holds after the
    rules have run. *)
Lemma merge_steps_completeness (e : EventData) (sd : list Scraped) (c : Q) :
  Forall2 (fun b b' => b = true -> b' = true)
    (completeness_factors e)
    (completeness_factors (set_confidence c (merge_steps e sd))).
Proof.
  pose proof (merge_steps_outside sd e) as Hout.
  pose proof (merge_steps_unassigned sd e) as Hun.
  unfold outside, unassigned in Hout, Hun.
  unfold completeness_factors.
  change (ort (set_confidence c ?x)) with (ort x).
  change (preise (set_confidence c ?x)) with (preise x).
  change (termine (set_confidence c ?x)) with (termine x).
  change (kontakt (metadaten (set_confidence c ?x)))
    with (kontakt (metadaten x)).
  change (veranstaltungsname (set_confidence c ?x))
    with (veranstaltungsname x).
  change (erkannte_qr_codes (set_confidence c ?x))
    with (erkannte_qr_codes x).
  change (erkannte_links (set_confidence c ?x)) with (erkannte_links x).
  change (kategorie (set_confidence c ?x)) with (kategorie x).
  injection Hout as -> -> _ -> _ _ _ -> -> _.
  injection Hun as Hk _ _ _ Hv _ _. rewrite Hk, Hv.
  rewrite merge_steps_preise, merge_steps_ort, merge_steps_kontakt,
    kontakt_steps. cbn [telefon email website].
  repeat constructor; try done.
  - intros [Hv'|Ha]%orb_true_iff; [by rewrite Hv'|].
    by rewrite adresse_steps_truthy, orb_true_r.
  - intros [Hk'|Hp]%orb_true_iff; [by rewrite Hk'|].
    rewrite price_steps_kept by by left. by rewrite Hp, orb_true_r.
  - intros [[Ht|He]%orb_true_iff|Hw]%orb_true_iff.
    + by rewrite (fill_str_steps_kept _ _ _ Ht), Ht.
    + by rewrite (fill_str_steps_kept _ _ _ He), He, orb_true_r.
    + by rewrite (fill_str_steps_kept _ _ _ Hw), Hw, !orb_true_r.
Qed.

Lemma quality_score_mono (e e' : EventData) :
  Forall2 (fun b b' => b = true -> b' = true)
    (completeness_factors e) (completeness_factors e') ->
  (length (quality_factors e) <= length (quality_factors e'))%nat
  /\ (quality_score e <= quality_score e')%Q.
Proof.
  intros Hf. apply count_true_le in Hf. fold (factors_holding e) in Hf.
  fold (factors_holding e') in Hf.
  rewrite !quality_factors_length. split; [exact Hf|].
  unfold quality_score. rewrite !quality_factors_length.
  apply Qmult_le_compat_r; [|done]. rewrite <- Zle_Qle. lia.
Qed.

(** X6.  Enrichment never takes a completeness factor away: every factor of
    the quality pass that holds for a record holds for the record the merge
    returns, so the quality score of the merged record is at least that of
    the original. *)
Theorem merge_never_lowers_quality (e : EventData) (sd : list Scraped) :
  exists enhanced,
    _merge_scraped_data e sd = inr enhanced
    /\ Forall2 (fun b b' => b = true -> b' = true)
         (completeness_factors e) (completeness_factors enhanced)
    /\ (length (quality_factors e) <= length (quality_factors enhanced))%nat
    /\ (quality_score e <= quality_score enhanced)%Q.
Proof.
  destruct (merge_scraped_data_steps e sd) as [c ->].
  eexists; split; [reflexivity|].
  pose proof (merge_steps_completeness e sd c) as Hf.
  split; [exact Hf|]. by apply quality_score_mono.
Qed.
End merge_quality.

(** ** The address rule *)

Section address_rule_facts.
Context `{UnicodeData}.

Lemma bt_address_pattern_capital st k :
  match ahead st with c :: _ => capital c = false | [] => True end ->
  bt address_pattern st k = None.
Proof.
  unfold address_pattern, capitalized. cbn [seq foldr].
  rewrite bt_Cat, bt_Grp, !bt_Cat. cbn [bt cls].
  destruct (ahead st) as [|c t]; [done|]. unfold capital.
  cbn [existsb fst snd]. rewrite orb_false_r. by intros ->.
Qed.

Lemma scan_address_pattern before text :
  Forall (fun c => capital c = false) text ->
  scan address_pattern before text = None.
Proof.
  intros Htext. revert before.
  induction Htext as [|c text Hc _ IH]; intros before; cbn [scan].
  - by rewrite bt_address_pattern_capital.
  - rewrite bt_address_pattern_capital by done. apply IH.
Qed.

Lemma lower_no_capital (text : str) :
  (forall c x, x ∈ cp_lower c -> capital x = false) ->
  Forall (fun c => capital c = false) (lower text).
Proof.
  intros Hlower. unfold lower. apply Forall_forall. intros x Hx.
  apply list_elem_of_bind in Hx as (c & Hx & _). by eapply Hlower.
Qed.

(** X7.  The address rule searches the lower-cased page text for a pattern
    that begins with a capital letter ([A-Z], [Ä], [Ö], [Ü]).  As lower-casing
    leaves no such letter in a text, the pattern never matches and the merge
    never writes the address, the postal code or the city: the location is
    returned as it came, whatever the pages say. *)
Theorem merge_never_writes_address (e : EventData) (sd : list Scraped) :
  (forall c x, x ∈ cp_lower c -> capital x = false) ->
  exists enhanced,
    _merge_scraped_data e sd = inr enhanced
    /\ ort enhanced = ort e
    /\ forall s, re_search address_pattern (lower (get_text_content s)) = None.
Proof.
  intros Hlower.
  assert (forall s,
            re_search address_pattern (lower (get_text_content s)) = None)
    as Hnone.
  { intros s. apply scan_address_pattern. by apply lower_no_capital. }
  destruct (merge_scraped_data_steps e sd) as [c ->].
  eexists; split; [reflexivity|]. split; [|exact Hnone].
  change (ort (set_confidence c ?x)) with (ort x).
  rewrite merge_steps_ort. apply steps_fixed. intros s _.
  unfold address_rule, fill, address_offer. rewrite Hnone. simpl.
  by destruct (negb _).
Qed.
End address_rule_facts.

Lemma latin1_lower_no_capital (c x : N) :
  x ∈ @cp_lower latin1 c -> capital x = false.
Proof.
  cbn [cp_lower latin1]. unfold latin1_lower, capital, in_range, one_of.
  intros Hx. apply not_true_is_false. intros Hcap.
  rewrite orb_true_iff, andb_true_iff, !N.leb_le, bool_decide_eq_true in Hcap.
  rewrite !elem_of_cons, elem_of_nil in Hcap.
  destruct (_ || _) eqn:Hc in Hx; apply list_elem_of_singleton in Hx as ->.
  - rewrite orb_true_iff, !andb_true_iff, !N.leb_le, negb_true_iff,
      N.eqb_neq in Hc. lia.
  - rewrite orb_false_iff, !andb_false_iff, !N.leb_gt, negb_false_iff,
      N.eqb_eq in Hc. lia.
Qed.

Lemma merge_never_writes_address_witness :
  (forall c x, x ∈ @cp_lower latin1 c -> capital x = false)
  /\ exists enhanced,
       @_merge_scraped_data latin1 rock_concert [sample_page] = inr enhanced
       /\ ort enhanced = ort rock_concert.
Proof.
  split; [exact latin1_lower_no_capital|].
  destruct (@merge_never_writes_address latin1 rock_concert [sample_page]
              latin1_lower_no_capital) as (enhanced & Hm & Ho & _).
  exists enhanced. split; [exact Hm|exact Ho].
Defined.

(** ** Repeating the quality pass *)

Lemma quality_score_set_confidence c e :
  quality_score (set_confidence c e) = quality_score e.
Proof. reflexivity. Qed.

Lemma quality_score_assess e :
  quality_score (_assess_data_quality e) = quality_score e.
Proof.
  unfold _assess_data_quality. by destruct (Qlt_le_dec _ _).
Qed.

Lemma quality_score_iter n e :
  quality_score (Nat.iter n _assess_data_quality e) = quality_score e.
Proof.
  induction n as [|n IH]; [done|]. simpl. by rewrite quality_score_assess.
Qed.

(** One pass moves the confidence nowhere but up, and not past the quality
    score when it started below it. *)
Lemma assess_confidence_between e :
  (confidence e <= confidence (_assess_data_quality e))%Q
  /\ ((confidence e < quality_score e)%Q ->
      (confidence (_assess_data_quality e) <= quality_score e)%Q).
Proof.
  unfold _assess_data_quality.
  pose proof (quality_score_le_1 e) as Hq1.
  destruct (Qlt_le_dec (confidence e) (quality_score e)) as [Hlt|Hge].
  - rewrite confidence_set_confidence.
    set (q := quality_score e) in *. set (c := confidence e) in *.
    clearbody q c.
    assert (c <= (c + q) / 2)%Q as Hlow
      by (apply Qle_shift_div_l; [reflexivity|lra]).
    assert ((c + q) / 2 < q)%Q as Hhigh
      by (apply Qlt_shift_div_r; [reflexivity|lra]).
    rewrite py_min_r by (apply Qlt_le_trans with q; assumption).
    split; [exact Hlow|]. intros _. by apply Qlt_le_weak.
  - split; [apply Qle_refl|]. intros Hlt.
    by apply Qlt_not_le in Hlt.
Qed.

Lemma assess_only_confidence e :
  set_confidence (confidence e) (_assess_data_quality e) = e.
Proof.
  unfold _assess_data_quality. destruct (Qlt_le_dec _ _).
  - rewrite set_confidence_set_confidence. apply set_confidence_same.
  - apply set_confidence_same.
Qed.

(** X8.  The quality pass may be repeated any number of times: it only ever
    writes the confidence, leaves the quality score as it is, never lowers
    the confidence from one pass to the next, and never moves it past the
    quality score when it started below it.  On a record whose confidence is
    not below its quality score no number of passes changes anything. *)
Theorem repeated_quality_pass (e : EventData) (n : nat) :
  let q := quality_score e in
  let c := confidence e in
  let e_n := Nat.iter n _assess_data_quality e in
  quality_score e_n = q
  /\ set_confidence c e_n = e
  /\ (c <= confidence e_n)%Q
  /\ (confidence e_n <= confidence (_assess_data_quality e_n))%Q
  /\ ((c < q)%Q -> (confidence e_n <= q)%Q)
  /\ (~ (c < q)%Q -> e_n = e).
Proof.
  intros q c e_n. split; [apply quality_score_iter|].
  split.
  { subst e_n. induction n as [|n IH]; [apply set_confidence_same|].
    change (Nat.iter (S n) _assess_data_quality e)
      with (_assess_data_quality (Nat.iter n _assess_data_quality e)).
    set (e_n := Nat.iter n _assess_data_quality e) in *.
    rewrite <- (assess_only_confidence e_n) in IH.
    by rewrite set_confidence_set_confidence in IH. }
  split.
  { subst e_n. induction n as [|n IH]; [apply Qle_refl|].
    change (Nat.iter (S n) _assess_data_quality e)
      with (_assess_data_quality (Nat.iter n _assess_data_quality e)).
    destruct (assess_confidence_between (Nat.iter n _assess_data_quality e))
      as [Hup _]. lra. }
  split; [apply assess_confidence_between|].
  split.
  - intros Hlt. subst e_n. induction n as [|n IH]; [by apply Qlt_le_weak|].
    change (Nat.iter (S n) _assess_data_quality e)
      with (_assess_data_quality (Nat.iter n _assess_data_quality e)).
    set (e_n := Nat.iter n _assess_data_quality e) in *.
    pose proof (quality_score_iter n e) as Hq. fold e_n q in Hq.
    destruct (assess_confidence_between e_n) as [_ Hbelow].
    rewrite Hq in Hbelow.
    destruct (Qlt_le_dec (confidence e_n) q) as [Hlt'|Hge];
      [by apply Hbelow|].
    unfold _assess_data_quality. rewrite Hq.
    destruct (Qlt_le_dec (confidence e_n) q); [lra|exact IH].
  - intros Hge. subst e_n. induction n as [|n IH]; [done|].
    change (Nat.iter (S n) _assess_data_quality e)
      with (_assess_data_quality (Nat.iter n _assess_data_quality e)).
    rewrite IH. unfold _assess_data_quality.
    fold q c. destruct (Qlt_le_dec c q); [contradiction|done].
Qed.

Lemma repeated_quality_pass_witness :
  let e := EventData_default (lit "Minimal Event") in
  (confidence e < quality_score e)%Q
  /\ (confidence (Nat.iter 3 _assess_data_quality e) <= quality_score e)%Q.
Proof.
  intros e.
  assert (confidence e < quality_score e)%Q as Hlt by reflexivity.
  split; [exact Hlt|].
  destruct (repeated_quality_pass e 3) as (_ & _ & _ & _ & Hn & _).
  exact (Hn Hlt).
Defined.

(** ** The URL filter: what it returns *)

Lemma insert_by_length {A} (key : A -> bool) (x : A) (l : list A) :
  length (insert_by key x l) = S (length l).
Proof.
  induction l as [|y l IH]; [done|]. simpl.
  destruct (negb (key y) && key x); simpl; by rewrite ?IH.
Qed.

Lemma sort_by_length {A} (key : A -> bool) (l : list A) :
  length (sort_by key l) = length l.
Proof.
  induction l as [|x l IH]; [done|].
  unfold sort_by in *. cbn [foldr]. by rewrite insert_by_length, IH.
Qed.

Lemma filter_key_same {A} (key : A -> bool) (b : bool) (l : list A) :
  filter (fun x => key x = b) (filter (fun x => key x = b) l)
  = filter (fun x => key x = b) l.
Proof.
  induction l as [|x l IH]; [done|]. rewrite filter_cons.
  destruct (decide (key x = b)) as [Hx|Hx]; [|done].
  by rewrite filter_cons, decide_True, IH.
Qed.

Lemma filter_key_other {A} (key : A -> bool) (b b' : bool) (l : list A) :
  b <> b' ->
  filter (fun x => key x = b) (filter (fun x => key x = b') l) = [].
Proof.
  intros Hb. induction l as [|x l IH]; [done|]. rewrite filter_cons.
  destruct (decide (key x = b')) as [Hx|Hx]; [|done].
  rewrite filter_cons, decide_False, IH; [done|congruence].
Qed.

(** Sorting a sorted list changes nothing. *)
Lemma sort_by_idem {A} (key : A -> bool) (l : list A) :
  sort_by key (sort_by key l) = sort_by key l.
Proof.
  rewrite (sort_by_partition key (sort_by key l)), sort_by_partition.
  rewrite !filter_app, !filter_key_same.
  rewrite (filter_key_other key false true), (filter_key_other key true false)
    by done.
  by rewrite app_nil_r.
Qed.

Section qr_detector_results.
Context `{UnicodeData}.
Variable validators_url : str -> bool.

Lemma collect_valid_all_valid (urls valid_urls : list str) :
  Forall (fun u => validators_url u = true) valid_urls ->
  Forall (fun u => validators_url u = true)
    (collect_valid validators_url urls valid_urls).
Proof.
  revert valid_urls. induction urls as [|url urls IH]; intros acc Hacc;
    [done|].
  cbn [collect_valid]. destruct (validators_url url) eqn:Hv.
  { apply IH, Forall_app. split; [done|]. by constructor. }
  destruct (any_german_domain url); [|by apply IH].
  destruct (negb _); [|by apply IH].
  destruct (validators_url (lit "https://" ++ url)) eqn:Hf; [|by apply IH].
  apply IH, Forall_app. split; [done|]. by constructor.
Qed.

Lemma collect_valid_length (urls valid_urls : list str) :
  (length (collect_valid validators_url urls valid_urls)
   <= length valid_urls + length urls)%nat.
Proof.
  revert valid_urls. induction urls as [|url urls IH]; intros acc;
    cbn [collect_valid length]; [lia|].
  repeat match goal with
         | |- context [if ?b then _ else _] => destruct b
         end.
  all: etrans; [apply IH|]; rewrite ?length_app; simpl; lia.
Qed.

Lemma collect_valid_of_valid (urls valid_urls : list str) :
  Forall (fun u => validators_url u = true) urls ->
  collect_valid validators_url urls valid_urls = valid_urls ++ urls.
Proof.
  intros Hurls. revert valid_urls.
  induction Hurls as [|url urls Hv _ IH]; intros acc.
  - by rewrite app_nil_r.
  - cbn [collect_valid]. rewrite Hv, IH. by rewrite <- app_assoc.
Qed.

(** X9.  Every URL that [validate_german_urls] returns is one that
    [validators.url] accepts, whatever the validator is: a candidate enters
    the result as it is or with the scheme in front, whichever form was
    checked.  The result is no longer than the input, and running the
    filter on its own result changes nothing. *)
Theorem validate_german_urls_result (urls : list str) :
  let valid_urls := validate_german_urls validators_url urls in
  Forall (fun u => validators_url u = true) valid_urls
  /\ (length valid_urls <= length urls)%nat
  /\ validate_german_urls validators_url valid_urls = valid_urls
  /\ filter (fun u => validators_url u = true) valid_urls = valid_urls.
Proof.
  intros valid_urls.
  assert (Forall (fun u => validators_url u = true) valid_urls) as Hvalid.
  { subst valid_urls. unfold validate_german_urls.
    rewrite sort_by_partition.
    pose proof (collect_valid_all_valid urls [] (Forall_nil_2 _)) as Hc.
    rewrite Forall_forall in Hc.
    apply Forall_app; split; apply Forall_forall; intros u Hu;
      apply list_elem_of_filter in Hu as [_ Hu]; by apply Hc. }
  split; [exact Hvalid|]. split; [|split].
  - subst valid_urls. unfold validate_german_urls.
    rewrite sort_by_length. apply (collect_valid_length urls []).
  - unfold validate_german_urls at 1.
    rewrite collect_valid_of_valid by exact Hvalid. cbn [app].
    subst valid_urls. unfold validate_german_urls. apply sort_by_idem.
  - clear -Hvalid. induction Hvalid as [|u l Hu _ IH]; [done|].
    by rewrite filter_cons, decide_True, IH.
Qed.
End qr_detector_results.

(** ** The reply parser: when it returns a record *)

Lemma dict_get_set_eq (k : str) (v : json) (d : list (str * json)) :
  dict_get k (dict_set k v d) = Some v.
Proof.
  induction d as [|[k0 v0] d IH]; simpl.
  - by rewrite decide_True.
  - destruct (decide (k0 = k)) as [->|Hne]; simpl.
    + by rewrite decide_True.
    + by rewrite decide_False.
Qed.

Section claude_client_results.
Variable json_loads : str -> exn + json.
Variable from_dict : json -> exn + EventData.

(** X10.  The parser returns a record exactly when the reply has an opening
    and a closing brace, the slice between them decodes to an object with a
    non-empty event name, and [EventData.from_dict] accepts the object after
    the detected QR codes and URLs have been put into it; the record is the
    one [from_dict] builds.  A non-empty list of detected QR codes (or URLs)
    replaces whatever the reply said under [erkannte_qr_codes] (or
    [erkannte_links]); an empty list leaves the reply's entry in place; no
    other entry is touched. *)
Theorem parse_response_record (response_text : str) (qr_codes urls : list str)
    (event_data : EventData) :
  let with_detected (d : list (str * json)) :=
    let d := if truthy qr_codes
             then dict_set (lit "erkannte_qr_codes") (JArr (JStr <$> qr_codes))
                    d
             else d in
    if truthy urls
    then dict_set (lit "erkannte_links") (JArr (JStr <$> urls)) d
    else d in
  (_parse_response json_loads from_dict response_text qr_codes urls
   = inr (Some event_data)
   <-> 123%N ∈ response_text /\ 125%N ∈ response_text
       /\ exists d n,
            json_loads (json_text response_text) = inr (JObj d)
            /\ dict_get (lit "veranstaltungsname") d = Some n
            /\ truthy n = true
            /\ from_dict (JObj (with_detected d)) = inr event_data)
  /\ (forall d,
        dict_get (lit "erkannte_qr_codes") (with_detected d)
        = (if truthy qr_codes then Some (JArr (JStr <$> qr_codes))
           else dict_get (lit "erkannte_qr_codes") d)
        /\ dict_get (lit "erkannte_links") (with_detected d)
           = (if truthy urls then Some (JArr (JStr <$> urls))
              else dict_get (lit "erkannte_links") d)
        /\ forall key,
             key <> lit "erkannte_qr_codes" -> key <> lit "erkannte_links" ->
             dict_get key (with_detected d) = dict_get key d).
Proof.
  intros with_detected.
  assert (forall d key,
            key <> lit "erkannte_qr_codes" -> key <> lit "erkannte_links" ->
            dict_get key (with_detected d) = dict_get key d) as Hother.
  { intros d key Hq Hl. unfold with_detected.
    destruct (truthy qr_codes), (truthy urls);
      by rewrite ?dict_get_set_ne by done. }
  split.
  - split.
    + destruct (decide (123%N ∈ response_text)) as [Ho|Ho];
        [|unfold _parse_response;
          by rewrite parse_body_no_braces by (by left)].
      destruct (decide (125%N ∈ response_text)) as [Hc|Hc];
        [|unfold _parse_response;
          by rewrite parse_body_no_braces by (by right)].
      unfold _parse_response, parse_body. cbv zeta.
      fold (json_text response_text).
      rewrite parse_body_braces by done.
      destruct (json_loads (json_text response_text)) as [x|j] eqn:Hd;
        [by destruct x|].
      destruct j as [| | | | |d]; try done.
      fold (with_detected d). rewrite Hother by done.
      destruct (dict_get (lit "veranstaltungsname") d) as [n|] eqn:Hn;
        [|done].
      destruct (truthy n) eqn:Ht; [|done]. simpl.
      destruct (from_dict (JObj (with_detected d))) as [x|e'] eqn:Hf;
        [by destruct x|].
      intros [= ->]. split; [done|]. split; [done|]. by exists d, n.
    + intros (Ho & Hc & d & n & Hd & Hn & Ht & Hf).
      unfold _parse_response, parse_body. cbv zeta.
      fold (json_text response_text).
      rewrite parse_body_braces, Hd by done.
      fold (with_detected d). rewrite Hother by done.
      by rewrite Hn, Ht, Hf.
  - intros d. split; [|split; [|by apply Hother]]; unfold with_detected.
    + destruct (truthy qr_codes), (truthy urls);
        by rewrite ?dict_get_set_ne, ?dict_get_set_eq by done.
    + destruct (truthy qr_codes), (truthy urls);
        by rewrite ?dict_get_set_eq, ?dict_get_set_ne by done.
Qed.
End claude_client_results.

(** ** The enrichment step: objects and values *)

Section enrichment_objects.
Context `{UnicodeData}.
Variable world : World.

(** The step on objects returns an object that holds the value the step on
    values computes, and leaves the record it was given as it was. *)
Lemma enhancement_agrees (h : heap) (ly : Layout) (e : EventData)
    (urls : list str) :
  holds h ly e ->
  exists h' ly',
    h_enhance_with_web_scraping world h (at_event ly) urls
    = Some (h', at_event ly')
    /\ holds h' ly' (_enhance_with_web_scraping world e urls)
    /\ holds h' ly e.
Proof.
  intros Hh.
  unfold h_enhance_with_web_scraping, enrichment_phase, h_enhance_event_data,
    _enhance_with_web_scraping, enhance_event_data.
  destruct (enter_raises world); [by exists h, ly|].
  destruct (negb (truthy urls)); cbn [mbind option_bind].
  { destruct (exit_raises world); by exists h, ly. }
  destruct (scrape_urls world urls) as [x|scraped_data];
    cbn [mbind option_bind]; [by exists h, ly|].
  destruct (h_merge_scraped_data_run h ly e scraped_data Hh)
    as (h' & ly' & -> & Hh' & _ & Hkept).
  assert (h ⊆ h') as Hsub by by apply map_subseteq_spec.
  pose proof (holds_weaken _ _ _ _ Hh Hsub) as Hold.
  cbn [mbind option_bind]. unfold _merge_scraped_data.
  rewrite run_merge_program in Hh' |- *. cbn [fst] in Hh'.
  cbn beta iota zeta in Hh' |- *.
  destruct (exit_raises world); [by exists h', ly|by exists h', ly'].
Qed.

(** X11.  [enhance_event_data] hands back the very object it was given when
    the URL list is empty: nothing is copied and nothing is scraped.  With
    URLs of which no page could be scraped it returns a new object, none of
    whose parts is shared with the input, that holds the same field values:
    no rule ran and no bonus was added. *)
Theorem enhance_without_pages (h : heap) (ly : Layout) (e : EventData)
    (urls : list str) :
  holds h ly e ->
  h_enhance_event_data world h (at_event ly) [] = Some (h, inr (at_event ly))
  /\ (urls <> [] -> scrape_urls world urls = inr [] ->
      exists h' ly',
        h_enhance_event_data world h (at_event ly) urls
        = Some (h', inr (at_event ly'))
        /\ holds h' ly' e
        /\ holds h' ly e
        /\ (forall l, l ∈ objects ly' -> l ∉ objects ly)).
Proof.
  intros Hh. split; [reflexivity|]. intros Hurls Hscrape.
  unfold h_enhance_event_data. destruct urls as [|u urls]; [done|].
  cbn [truthy truthy_list negb]. rewrite Hscrape.
  destruct (h_merge_scraped_data_run h ly e [] Hh)
    as (h' & ly' & Hrun & Hh' & Hnew & Hkept).
  exists h', ly'. split; [exact Hrun|]. split; [exact Hh'|]. split.
  - apply (holds_weaken h); [exact Hh|]. by apply map_subseteq_spec.
  - intros l Hl Hold. apply Hnew in Hl.
    assert (is_Some (h !! l)) as [o Ho]; [|congruence].
    destruct Hh. unfold objects in Hold.
    repeat (apply elem_of_cons in Hold as [->|Hold]; [by eexists|]).
    by apply elem_of_nil in Hold.
Qed.
End enrichment_objects.

Lemma enhance_without_pages_witness :
  let world := {| enter_raises := false;
                  scrape_urls := fun _ => inr [];
                  exit_raises := false |} in
  holds sample_store sample_layout rock_concert
  /\ exists h' ly',
       @h_enhance_event_data latin1 world sample_store
         (at_event sample_layout) [lit "https://test.de"]
       = Some (h', inr (at_event ly'))
       /\ holds h' ly' rock_concert
       /\ at_event ly' <> at_event sample_layout.
Proof.
  intros world. split; [exact sample_store_holds|].
  destruct (@enhance_without_pages latin1 world sample_store sample_layout
              rock_concert [lit "https://test.de"] sample_store_holds)
    as (_ & Hnew).
  destruct Hnew as (h' & ly' & Hrun & Hh' & _ & Hfresh);
    [discriminate|reflexivity|].
  exists h', ly'. split; [exact Hrun|]. split; [exact Hh'|].
  intros Heq. apply (Hfresh (at_event ly')); [apply list_elem_of_here|].
  rewrite Heq. apply list_elem_of_here.
Defined.

(** ** The text of a page *)

Lemma list_ind2 {A} (P : list A -> Prop) :
  P [] -> (forall c, P [c]) ->
  (forall c c' t, P t -> P (c' :: t) -> P (c :: c' :: t)) ->
  forall l, P l.
Proof.
  intros Hnil Hone Hstep l.
  assert (P l /\ forall c, P (c :: l)) as [? _]; [|done].
  induction l as [|c' t [IH1 IH2]]; [by split|].
  split; [by apply IH2|]. intros c. by apply Hstep.
Qed.

Lemma Forall_cons_head {P : str -> Prop} (c : N) (l : list str) :
  P [c] -> (forall p, P p -> P (c :: p)) -> Forall P l ->
  Forall P (cons_head c l).
Proof.
  intros Hone Hcons [|p ps Hp Hps]; simpl; constructor; auto.
Qed.

(** *** No two spaces in a row *)

Lemma contains_cons needle c s :
  contains needle (c :: s) = startswith needle (c :: s) || contains needle s.
Proof. reflexivity. Qed.

Lemma single_spaced_nil : single_spaced [].
Proof. reflexivity. Qed.

Lemma single_spaced_one c : single_spaced [c].
Proof. cbn. by rewrite !andb_false_r. Qed.

Lemma single_spaced_cons c c' t :
  single_spaced (c :: c' :: t)
  <-> (c =? 32)%N && (c' =? 32)%N = false /\ single_spaced (c' :: t).
Proof.
  rewrite contains_cons, orb_false_iff.
  change (startswith (lit "  ") (c :: c' :: t))
    with ((32 =? c)%N && ((32 =? c')%N && true)).
  by rewrite andb_true_r, (N.eqb_sym 32 c), (N.eqb_sym 32 c').
Qed.

Lemma single_spaced_tail c t : single_spaced (c :: t) -> single_spaced t.
Proof. rewrite contains_cons. by intros [_ ?]%orb_false_iff. Qed.

Lemma single_spaced_app_inv a b :
  single_spaced (a ++ b) -> single_spaced a /\ single_spaced b.
Proof.
  induction a as [|c a IH]; [by split|]. intros Hab.
  destruct (IH (single_spaced_tail _ _ Hab)) as [Ha Hb]. split; [|done].
  destruct a as [|c' a]; [apply single_spaced_one|].
  apply single_spaced_cons. split; [|done].
  by apply (single_spaced_cons c c' (a ++ b)) in Hab as [? _].
Qed.

Lemma single_spaced_app a b :
  single_spaced a -> single_spaced b ->
  match last a, head b with
  | Some c, Some c' => (c =? 32)%N && (c' =? 32)%N = false
  | _, _ => True
  end ->
  single_spaced (a ++ b).
Proof.
  intros Ha Hb Hjoin. induction a as [|c a IH]; [done|].
  destruct a as [|c' a]; cbn [app].
  - destruct b as [|c' b]; [apply single_spaced_one|].
    apply single_spaced_cons. by split.
  - apply single_spaced_cons in Ha as [Hcc Ha].
    apply (single_spaced_cons c c' (a ++ b)). split; [done|].
    apply IH; [done|]. by rewrite last_cons_cons in Hjoin.
Qed.

(** *** Splitting *)

Lemma splitlines_no_linebreak (s : str) :
  Forall (Forall (fun c => is_linebreak c = false)) (splitlines s).
Proof.
  induction s as [|c|c c' t IH1 IH2] using list_ind2.
  - constructor.
  - simpl. destruct (is_linebreak c) eqn:Hc; repeat constructor. done.
  - cbn [splitlines] in *. destruct (is_linebreak c) eqn:Hc.
    + constructor; [constructor|]. by destruct (_ && _).
    + apply Forall_cons_head; [by repeat constructor| |done].
      intros p Hp. by constructor.
Qed.

Lemma splitlines_one_line (s : str) :
  s <> [] -> Forall (fun c => is_linebreak c = false) s ->
  splitlines s = [s].
Proof.
  intros Hs Hnl. induction Hnl as [|c t Hc Ht IH]; [done|].
  cbn [splitlines]. rewrite Hc.
  destruct t as [|c' t]; [done|]. by rewrite IH.
Qed.

Lemma split_double_space_head (s : str) :
  exists p ps rest, split_double_space s = p :: ps /\ s = p ++ rest.
Proof.
  induction s as [|c|c c' t IH1 IH2] using list_ind2.
  - by exists [], [], [].
  - by exists [c], [], [].
  - cbn [split_double_space] in *. destruct (_ && _).
    + by exists [], (split_double_space t), (c :: c' :: t).
    + destruct IH2 as (p & ps & rest & -> & ->).
      by exists (c :: p), ps, rest.
Qed.

Lemma split_double_space_pieces (P : N -> Prop) (s : str) :
  Forall P s -> Forall (Forall P) (split_double_space s).
Proof.
  induction s as [|c|c c' t IH1 IH2] using list_ind2; intros Hs.
  - by repeat constructor.
  - apply Forall_cons in Hs as [Hc _]. simpl. by repeat constructor.
  - cbn [split_double_space] in *.
    apply Forall_cons in Hs as [Hc Hs]. pose proof Hs as Hs'.
    apply Forall_cons in Hs' as [Hc' Ht]. destruct (_ && _).
    + constructor; [constructor|by apply IH1].
    + apply Forall_cons_head; [by repeat constructor| |by apply IH2].
      intros p Hp. by constructor.
Qed.

Lemma split_double_space_single_spaced (s : str) :
  Forall (fun p => single_spaced p) (split_double_space s).
Proof.
  induction s as [|c|c c' t IH1 IH2] using list_ind2.
  - by repeat constructor.
  - repeat constructor. apply single_spaced_one.
  - cbn [split_double_space] in *. destruct (_ && _) eqn:Hcc.
    + by constructor.
    + destruct (split_double_space_head (c' :: t))
        as (p & ps & rest & Hsplit & Hp).
      cbn [split_double_space] in Hsplit. rewrite Hsplit in *.
      apply Forall_cons in IH2 as [Hp1 Hps]. simpl.
      constructor; [|done].
      destruct p as [|c'' p]; [apply single_spaced_one|].
      injection Hp as <- _. by apply single_spaced_cons.
Qed.

Lemma split_double_space_one_piece (s : str) :
  single_spaced s -> split_double_space s = [s].
Proof.
  induction s as [|c|c c' t IH1 IH2] using list_ind2; intros Hs; [done..|].
  apply single_spaced_cons in Hs as [Hcc Hs].
  cbn [split_double_space] in *. by rewrite Hcc, IH2.
Qed.

(** *** Stripping *)

Section strip_facts.
Context `{UnicodeData}.

Lemma lstrip_spec (s : str) :
  exists pre, s = pre ++ lstrip s
    /\ match head (lstrip s) with
       | Some c => cp_isspace c = false
       | None => True
       end.
Proof.
  induction s as [|c s (pre & Hs & Hh)]; [by exists []|].
  cbn [lstrip]. destruct (cp_isspace c) eqn:Hc.
  - exists (c :: pre). split; [by rewrite Hs at 1|done].
  - by exists [].
Qed.

Lemma lstrip_id (s : str) :
  match head s with Some c => cp_isspace c = false | None => True end ->
  lstrip s = s.
Proof. destruct s as [|c s]; [done|]. simpl. by intros ->. Qed.

Lemma rstrip_spec (s : str) :
  exists suf, s = rstrip s ++ suf
    /\ match last (rstrip s) with
       | Some c => cp_isspace c = false
       | None => True
       end.
Proof.
  unfold rstrip. destruct (lstrip_spec (reverse s)) as (pre & Hs & Hh).
  exists (reverse pre). split.
  - rewrite <- reverse_app, <- Hs. by rewrite reverse_involutive.
  - by rewrite last_reverse.
Qed.

Lemma rstrip_id (s : str) :
  match last s with Some c => cp_isspace c = false | None => True end ->
  rstrip s = s.
Proof.
  intros Hl. unfold rstrip. rewrite lstrip_id; [apply reverse_involutive|].
  by rewrite head_reverse.
Qed.

Lemma strip_spec (s : str) :
  exists pre suf, s = pre ++ strip s ++ suf /\ trimmed (strip s).
Proof.
  unfold strip. destruct (lstrip_spec s) as (pre & Hs & Hh).
  destruct (rstrip_spec (lstrip s)) as (suf & Hl & Hlast).
  exists pre, suf. split; [by rewrite <- Hl|]. split; [|done].
  destruct (rstrip (lstrip s)) as [|c m]; [done|].
  rewrite Hl in Hh. done.
Qed.

Lemma strip_id (s : str) : trimmed s -> strip s = s.
Proof.
  intros [Hh Hl]. unfold strip. rewrite lstrip_id by done. by apply rstrip_id.
Qed.

Lemma strip_Forall (P : N -> Prop) (s : str) :
  Forall P s -> Forall P (strip s).
Proof.
  destruct (strip_spec s) as (pre & suf & Hs & _). rewrite Hs at 1.
  by intros [_ [? _]%Forall_app]%Forall_app.
Qed.

Lemma strip_single_spaced (s : str) :
  single_spaced s -> single_spaced (strip s).
Proof.
  destruct (strip_spec s) as (pre & suf & Hs & _). rewrite Hs at 1.
  by intros [_ [? _]%single_spaced_app_inv]%single_spaced_app_inv.
Qed.

(** *** Joining *)

Lemma join_cons2 sep x y l :
  join sep (x :: y :: l) = x ++ sep ++ join sep (y :: l).
Proof. reflexivity. Qed.

Lemma join_chunks (chunks : list str) :
  cp_isspace 32 = true ->
  Forall chunk_ok chunks -> chunks <> [] ->
  chunk_ok (join (lit " ") chunks).
Proof.
  intros H32 Hall Hne. induction Hall as [|x l Hx Hl IH]; [done|].
  destruct l as [|y l]; [done|]. rewrite join_cons2.
  destruct IH as (Hrne & [Hrh Hrl] & Hrs & Hrn); [done|].
  destruct Hx as (Hxne & [Hxh Hxl] & Hxs & Hxn).
  set (rest := join (lit " ") (y :: l)) in *.
  destruct x as [|c x]; [done|]. destruct rest as [|c' rest]; [done|].
  split; [done|]. split; [split|split].
  - done.
  - change (lit " " ++ c' :: rest) with (32%N :: c' :: rest).
    rewrite last_app, last_cons_cons. by destruct (last (c' :: rest)).
  - change (lit " " ++ c' :: rest) with ([32%N] ++ c' :: rest).
    rewrite app_assoc. apply single_spaced_app; [|done|].
    + apply single_spaced_app; [done|apply single_spaced_one|].
      destruct (last (c :: x)) as [cl|]; [|done]. simpl.
      destruct (cl =? 32)%N eqn:Heq; [|done].
      apply N.eqb_eq in Heq as ->. congruence.
    + rewrite last_snoc. simpl in Hrh |- *.
      destruct (c' =? 32)%N eqn:Heq; [|done].
      apply N.eqb_eq in Heq as ->. congruence.
  - apply Forall_app. split; [done|]. by constructor.
Qed.

(** X13.  The clean-up of [_extract_text_content] normalizes the text of a
    page: the result has no line boundary and no two spaces in a row,
    neither starts nor ends with white space, and cleaning it again gives
    the same text. *)
Theorem clean_text_normalized (text : str) :
  cp_isspace 32 = true ->
  let cleaned := clean_text text in
  Forall (fun c => is_linebreak c = false) cleaned
  /\ contains (lit "  ") cleaned = false
  /\ strip cleaned = cleaned
  /\ clean_text cleaned = cleaned.
Proof.
  intros H32 cleaned.
  assert (cleaned = [] \/ chunk_ok cleaned) as [Hempty|Hok].
  { subst cleaned. unfold clean_text.
    set (chunks := filter _ _).
    destruct chunks as [|x l] eqn:Hchunks; [by left|right].
    rewrite <- Hchunks. apply join_chunks; [done| |by rewrite Hchunks].
    subst chunks. clear Hchunks. apply Forall_forall. intros chunk Hchunk.
    apply list_elem_of_filter in Hchunk as [Hne Hchunk].
    apply list_elem_of_fmap in Hchunk as (piece & -> & Hpiece).
    apply list_elem_of_bind in Hpiece as (line & Hpiece & Hline).
    apply list_elem_of_fmap in Hline as (raw & -> & Hraw).
    pose proof (splitlines_no_linebreak text) as Hnl.
    rewrite Forall_forall in Hnl. specialize (Hnl raw Hraw).
    apply strip_Forall in Hnl.
    apply split_double_space_pieces in Hnl.
    rewrite Forall_forall in Hnl. specialize (Hnl piece Hpiece).
    pose proof (split_double_space_single_spaced (strip raw)) as Hss.
    rewrite Forall_forall in Hss. specialize (Hss piece Hpiece).
    destruct (strip_spec piece) as (pre & suf & _ & Htrim).
    split; [by destruct (strip piece)|]. split; [done|].
    split; [by apply strip_single_spaced|by apply strip_Forall]. }
  - rewrite Hempty. by repeat split.
  - destruct Hok as (Hne & Htrim & Hss & Hnl).
    split; [done|]. split; [done|]. split; [by apply strip_id|].
    unfold clean_text. rewrite splitlines_one_line by done.
    cbn [fmap list_fmap mbind list_bind]. rewrite strip_id by done.
    rewrite app_nil_r, split_double_space_one_piece by done.
    cbn [fmap list_fmap]. rewrite strip_id by done.
    rewrite filter_cons, decide_True by by destruct cleaned. done.
Qed.
End strip_facts.

Lemma clean_text_normalized_witness :
  @cp_isspace latin1 32 = true
  /\ @clean_text latin1
       (lit "  Rock   Night  " ++ [10; 13; 10]%N ++ lit " Eintritt 12 ")
     = lit "Rock Night Eintritt 12".
Proof.
  assert (@cp_isspace latin1 32 = true) as H32 by reflexivity.
  split; [exact H32|].
  destruct (@clean_text_normalized latin1
              (lit "  Rock   Night  " ++ [10; 13; 10]%N
               ++ lit " Eintritt 12 ") H32) as (_ & _ & _ & Hidem).
  rewrite <- Hidem. reflexivity.
Defined.

(** ** Fetching the pages *)

Lemma omap_length_le {A B} (f : A -> option B) (l : list A) :
  (length (omap f l) <= length l)%nat.
Proof.
  induction l as [|x l IH]; [done|]. cbn [omap list_omap].
  destruct (f x); simpl; lia.
Qed.

Section scraping_facts.
Context `{UnicodeData}.
Variable validators_url : str -> bool.
Variable session_get : str -> exn + Response.

Lemma scrape_single_url_keys u s :
  _scrape_single_url session_get u
  = Some s ->
  url s = Some u /\ is_Some (text_content s).
Proof.
  unfold _scrape_single_url.
  destruct (session_get u) as [|response]; [done|].
  destruct (negb _); [done|]. destruct (page response); [done|].
  intros [= <-]. by split.
Qed.

Lemma scrape_urls_omap (urls : list str) :
  _scrape_urls validators_url session_get urls
  = omap (_scrape_single_url session_get)
      (filter (fun u => validators_url u = true) urls).
Proof.
  unfold _scrape_urls. destruct (filter _ urls) as [|u0 l0]; [done|].
  cbn [truthy truthy_list negb].
  generalize (u0 :: l0). intros l. induction l as [|u l IH]; [done|].
  cbn [fmap list_fmap omap list_omap id]. rewrite IH.
  by destruct (_scrape_single_url _ u).
Qed.

Lemma scrape_urls_each (urls : list str) (s : Scraped) :
  s ∈ _scrape_urls validators_url session_get urls ->
  exists u, url s = Some u /\ u ∈ urls /\ validators_url u = true
            /\ is_Some (text_content s).
Proof.
  rewrite scrape_urls_omap. intros Hs.
  apply list_elem_of_omap in Hs as (u & Hu & Hs).
  apply scrape_single_url_keys in Hs as [? ?].
  apply list_elem_of_filter in Hu as [? ?]. by exists u.
Qed.

Lemma scrape_urls_length (urls : list str) :
  (length (_scrape_urls validators_url session_get urls) <= length urls)%nat.
Proof.
  rewrite scrape_urls_omap. etrans; [apply omap_length_le|].
  apply length_filter.
Qed.

(** X12.  [_scrape_urls] returns one signal for every given URL that
    [validators.url] accepts and whose request returns status 200 with a page
    that can be read, and none for any other URL: a URL that is not valid,
    whose request raises, whose status is not 200 or whose page cannot be
    read contributes nothing.  The signals come in the order of the URLs,
    once for every occurrence of a URL, and each carries its URL under [url],
    the cleaned text of its page under [text_content], and the page's title,
    structured data and meta tags. *)
Theorem scrape_urls_signals (urls : list str) :
  let scraped_data := _scrape_urls validators_url session_get urls in
  let fetched (u : str) : option Page :=
    match session_get u with
    | inr response =>
        if (status response =? 200)%Z then
          match page response with inr soup => Some soup | inl _ => None end
        else None
    | inl _ => None
    end in
  omap url scraped_data
  = filter (fun u => validators_url u = true /\ is_Some (fetched u)) urls
  /\ length (omap url scraped_data) = length scraped_data
  /\ Forall (fun s =>
               exists u soup,
                 u ∈ urls /\ validators_url u = true
                 /\ fetched u = Some soup
                 /\ url s = Some u
                 /\ title s = strip <$> title_tag soup
                 /\ text_content s = Some (clean_text (page_text soup))
                 /\ structured_data s = page_structured_data soup
                 /\ meta_data s = page_meta_data soup) scraped_data
  /\ (forall u,
        validators_url u = false \/ fetched u = None ->
        forall s, s ∈ scraped_data -> url s <> Some u)
  /\ omap url scraped_data `sublist_of` urls
  /\ (length scraped_data <= length urls)%nat.
Proof.
  intros scraped_data fetched.
  assert (forall u,
            _scrape_single_url session_get u
            = (fun soup =>
                 {| url := Some u;
                    title := strip <$> title_tag soup;
                    text_content := Some (clean_text (page_text soup));
                    structured_data := page_structured_data soup;
                    meta_data := page_meta_data soup |}) <$> fetched u)
    as Hsingle.
  { intros u. unfold _scrape_single_url, fetched.
    destruct (session_get u) as [|response]; [done|].
    destruct (status response =? 200)%Z; [|done].
    by destruct (page response). }
  assert (omap url scraped_data
          = filter (fun u => validators_url u = true /\ is_Some (fetched u))
              urls
          /\ length (omap url scraped_data) = length scraped_data)
    as [Hurls Hlen].
  { subst scraped_data. rewrite scrape_urls_omap.
    induction urls as [|u l [IH1 IH2]]; [done|].
    rewrite !filter_cons.
    destruct (decide (validators_url u = true)) as [Hv|Hv].
    - cbn [omap list_omap]. rewrite Hsingle.
      destruct (fetched u) as [soup|] eqn:Hf; cbn [fmap option_fmap option_map].
      + rewrite decide_True by (split; [done|by eexists]).
        cbn [omap list_omap url]. split; [by f_equal|simpl; by f_equal].
      + rewrite decide_False by (intros [_ [? ?]]; done). done.
    - rewrite decide_False by (by intros [? _]). done. }
  split; [exact Hurls|]. split; [exact Hlen|]. split.
  { apply Forall_forall. intros s Hs. subst scraped_data.
    rewrite scrape_urls_omap in Hs.
    apply list_elem_of_omap in Hs as (u & Hu & Hs).
    apply list_elem_of_filter in Hu as [Hv Hu].
    rewrite Hsingle in Hs.
    destruct (fetched u) as [soup|] eqn:Hf; [|done].
    cbn [fmap option_fmap option_map] in Hs. injection Hs as <-.
    by exists u, soup. }
  split.
  { intros u Hno s Hs Hu.
    assert (u ∈ omap url scraped_data) as Hin
      by (apply list_elem_of_omap; by exists s).
    rewrite Hurls in Hin. apply list_elem_of_filter in Hin as [[Hv Hf] _].
    destruct Hno as [Hno|Hno]; [congruence|].
    rewrite Hno in Hf. by destruct Hf. }
  split; [rewrite Hurls; apply sublist_filter|apply scrape_urls_length].
Qed.
End scraping_facts.

(** ** Detection *)

Lemma add_new_NoDup x l : NoDup l -> NoDup (add_new x l).
Proof.
  intros Hl. unfold add_new. case_bool_decide as Hx; [done|].
  apply NoDup_app. split; [done|]. split; [|apply NoDup_singleton].
  by intros y Hy ->%list_elem_of_singleton.
Qed.

Lemma elem_of_add_new_iff y x l : y ∈ add_new x l <-> y ∈ l \/ y = x.
Proof.
  unfold add_new. case_bool_decide as Hx.
  - split; [by left|]. by intros [?| ->].
  - by rewrite elem_of_app, list_elem_of_singleton.
Qed.

(** Appending, without repetition, the items of a list that pass a test. *)
Lemma foldl_add_new (test : str -> bool) (l acc : list str) :
  let result :=
    foldl (fun acc x => if test x then add_new x acc else acc) acc l in
  (NoDup acc -> NoDup result)
  /\ (forall y, y ∈ result <-> y ∈ acc \/ (y ∈ l /\ test y = true)).
Proof.
  revert acc. induction l as [|x l IH]; intros acc; cbn [foldl].
  { split; [done|]. intros y. split; [by left|].
    by intros [?|[?%elem_of_nil _]]. }
  destruct (IH (if test x then add_new x acc else acc)) as [Hnd Hin].
  split.
  - intros Hacc. apply Hnd. destruct (test x); [|done].
    by apply add_new_NoDup.
  - intros y. rewrite Hin, elem_of_cons. destruct (test x) eqn:Hx.
    + rewrite elem_of_add_new_iff. split.
      * intros [[?| ->]|[? ?]]; auto.
      * intros [?|[[->|?] ?]]; auto.
    + split.
      * intros [?|[? ?]]; auto.
      * intros [?|[[->|?] ?]]; auto. congruence.
Qed.

Section detection_facts.
Variable validators_url : str -> bool.
Variable validators_domain : str -> bool.
Variable re_findall_ignorecase : url_pattern -> str -> list str.
Variable qr_scan : str -> exn + option (list (exn + list (exn + str))).
Variable ocr_threshold : str -> exn + option unit.
Variable list_of_set : list str -> list str.

(** X16.  [extract_urls_from_text] returns each URL once, and returns
    exactly the matches of its three patterns that [validators.url] or
    [validators.domain] accepts. *)
Theorem extract_urls_from_text_result (text : str) :
  let urls :=
    extract_urls_from_text validators_url validators_domain
      re_findall_ignorecase text in
  NoDup urls
  /\ forall u, u ∈ urls <->
       (exists pattern, pattern ∈ url_patterns
                        /\ u ∈ re_findall_ignorecase pattern text)
       /\ validators_url u || validators_domain u = true.
Proof.
  unfold extract_urls_from_text.
  assert (forall patterns acc,
            let urls :=
              foldl (fun urls pattern =>
                       foldl (fun urls match_ =>
                                if validators_url match_
                                   || validators_domain match_
                                then add_new match_ urls
                                else urls) urls
                         (re_findall_ignorecase pattern text))
                acc patterns in
            (NoDup acc -> NoDup urls)
            /\ forall u, u ∈ urls <->
                 u ∈ acc
                 \/ ((exists pattern, pattern ∈ patterns
                         /\ u ∈ re_findall_ignorecase pattern text)
                     /\ validators_url u || validators_domain u = true))
    as Hloop.
  { induction patterns as [|p ps IH]; intros acc; cbn [foldl].
    { split; [done|]. intros u. split; [by left|].
      by intros [?|[(? & ?%elem_of_nil & _) _]]. }
    destruct (foldl_add_new
                (fun x => validators_url x || validators_domain x)
                (re_findall_ignorecase p text) acc) as [Hnd1 Hin1].
    destruct (IH (foldl (fun urls match_ =>
                           if validators_url match_ || validators_domain match_
                           then add_new match_ urls else urls)
                    acc (re_findall_ignorecase p text))) as [Hnd Hin].
    split; [by auto|]. intros u. rewrite Hin, Hin1. split.
    - intros [[?|[? ?]]|[(q & ? & ?) ?]]; [by left|right..].
      + split; [|done]. exists p. split; [by left|done].
      + split; [|done]. exists q. split; [by right|done].
    - intros [?|[(q & [->|?]%elem_of_cons & ?) ?]]; [by auto..|].
      right. split; [|done]. by exists q. }
  destruct (Hloop url_patterns []) as [Hnd Hin].
  split; [apply Hnd, NoDup_nil_2|]. intros u. rewrite Hin.
  split; [by intros [?%elem_of_nil|?]|by right].
Qed.

Lemma collect_codes_spec (qr_codes : list (exn + str)) (qr_data : list str) :
  match collect_codes qr_codes qr_data with
  | inr result =>
      Forall (fun code => raised code = false) qr_codes
      /\ (NoDup qr_data -> NoDup result)
      /\ forall u, u ∈ result <-> u ∈ qr_data \/ inr u ∈ qr_codes
  | inl _ => Exists (fun code => raised code = true) qr_codes
  end.
Proof.
  revert qr_data. induction qr_codes as [|[x|u0] l IH]; intros acc;
    cbn [collect_codes].
  - split; [constructor|]. split; [done|]. intros u.
    split; [by left|]. by intros [?|?%elem_of_nil].
  - by left.
  - specialize (IH (add_new u0 acc)).
    destruct (collect_codes l (add_new u0 acc)) as [x|result].
    + by right.
    + destruct IH as (Hall & Hnd & Hin). split; [by constructor|].
      split; [intros ?; by apply Hnd, add_new_NoDup|].
      intros u. rewrite Hin, elem_of_add_new_iff, elem_of_cons. split.
      * intros [[?| ->]|?]; auto.
      * intros [?|[[= ->]|?]]; auto.
Qed.

Lemma collect_images_spec (images : list (exn + list (exn + str)))
    (qr_data : list str) :
  match collect_images images qr_data with
  | inr result =>
      ~ scan_raises images
      /\ (NoDup qr_data -> NoDup result)
      /\ forall u, u ∈ result <->
           u ∈ qr_data
           \/ exists qr_codes, inr qr_codes ∈ images /\ inr u ∈ qr_codes
  | inl _ => scan_raises images
  end.
Proof.
  unfold scan_raises. revert qr_data.
  induction images as [|[x|codes] l IH]; intros acc; cbn [collect_images].
  - split; [by intros ?%Exists_nil|]. split; [done|]. intros u.
    split; [by left|]. by intros [?|(? & ?%elem_of_nil & _)].
  - by left.
  - pose proof (collect_codes_spec codes acc) as Hcodes.
    destruct (collect_codes codes acc) as [x|acc'].
    + by left.
    + destruct Hcodes as (Hall & Hnd1 & Hin1). specialize (IH acc').
      destruct (collect_images l acc') as [x|result].
      * by right.
      * destruct IH as (Hclean & Hnd & Hin). split; [|split; [by auto|]].
        -- intros [Hbad|Hbad]%Exists_cons; [|done].
           apply Exists_exists in Hbad as (code & Hcode & Hbad).
           rewrite Forall_forall in Hall. specialize (Hall code Hcode).
           congruence.
        -- intros u. rewrite Hin, Hin1. split.
           ++ intros [[?|?]|(cs & ? & ?)]; [by left|right..].
              ** exists codes. split; [by left|done].
              ** exists cs. split; [by right|done].
           ++ intros [?|(cs & [[= ->]|?]%elem_of_cons & ?)]; [by auto..|].
              right. by exists cs.
Qed.

(** X17.  [detect_qr_codes] returns each payload once.  When nothing
    raises, it returns exactly the payloads decoded from the preprocessed
    images; when decoding one image or one payload raises, it returns the
    empty list, also if other codes had been decoded before. *)
Theorem detect_qr_codes_result (image_path : str) :
  NoDup (detect_qr_codes qr_scan image_path)
  /\ forall preprocessed_images,
       qr_scan image_path = inr (Some preprocessed_images) ->
       (scan_raises preprocessed_images ->
        detect_qr_codes qr_scan image_path = [])
       /\ (~ scan_raises preprocessed_images ->
           forall u, u ∈ detect_qr_codes qr_scan image_path <->
             exists qr_codes,
               inr qr_codes ∈ preprocessed_images /\ inr u ∈ qr_codes).
Proof.
  unfold detect_qr_codes.
  destruct (qr_scan image_path) as [x|[images|]];
    [split; [constructor|done]| |split; [constructor|done]].
  pose proof (collect_images_spec images []) as Hspec.
  destruct (collect_images images []) as [x|result].
  - split; [constructor|]. intros ? [= <-]. split; [done|]. by intros [].
  - destruct Hspec as (Hclean & Hnd & Hin).
    split; [apply Hnd, NoDup_nil_2|]. intros ? [= <-].
    split; [by intros ?|]. intros _ u. rewrite Hin.
    split; [by intros [?%elem_of_nil|?]|by right].
Qed.

Lemma foldl_extend {A} (f : A -> list str) (l : list A) (acc : list str) :
  foldl (fun urls x => urls ++ f x) acc l = acc ++ l ≫= f.
Proof.
  revert acc. induction l as [|x l IH]; intros acc; cbn [foldl].
  - by rewrite app_nil_r.
  - rewrite IH. cbn [mbind list_bind]. by rewrite app_assoc.
Qed.

(** X18.  The URLs [detect_all] returns come from the QR codes alone (the
    OCR step yields nothing): each is a validated match of a pattern in
    the payload of a detected code, and each such match is returned, once;
    an image without a QR code gives no URL. *)
Theorem detect_all_urls (image_path : str) :
  (forall l, NoDup (list_of_set l) /\ forall x, x ∈ list_of_set l <-> x ∈ l) ->
  let '(qr_codes, unique_urls) :=
    detect_all validators_url validators_domain re_findall_ignorecase
      qr_scan ocr_threshold list_of_set image_path in
  qr_codes = detect_qr_codes qr_scan image_path
  /\ NoDup unique_urls
  /\ (forall u, u ∈ unique_urls <->
        exists qr_data,
          qr_data ∈ qr_codes
          /\ u ∈ extract_urls_from_text validators_url validators_domain
                   re_findall_ignorecase qr_data)
  /\ (qr_codes = [] -> unique_urls = []).
Proof.
  intros Hset. unfold detect_all. cbv zeta.
  assert (detect_urls_ocr ocr_threshold image_path = []) as ->.
  { unfold detect_urls_ocr. by destruct (ocr_threshold image_path) as [|[|]]. }
  rewrite foldl_extend. cbn [app].
  destruct (Hset (detect_qr_codes qr_scan image_path
                  ≫= extract_urls_from_text validators_url validators_domain
                        re_findall_ignorecase)) as [Hnd Hin].
  split; [done|]. split; [done|]. split.
  - intros u. rewrite Hin, list_elem_of_bind. split.
    + intros (qr & ? & ?). by exists qr.
    + intros (qr & ? & ?). by exists qr.
  - intros Hnone. rewrite Hnone in Hin |- *. cbn [mbind list_bind] in *.
    destruct (list_of_set []) as [|x l]; [done|].
    assert (x ∈ x :: l) as Hx by left.
    apply Hin in Hx. by apply elem_of_nil in Hx.
Qed.
End detection_facts.

Lemma detect_all_urls_witness :
  (forall l : list str,
     NoDup (remove_dups l) /\ forall x, x ∈ remove_dups l <-> x ∈ l)
  /\ sample_detect_all (lit "poster.jpg")
     = ([lit "https://events.de"], [lit "https://events.de"]).
Proof.
  assert (forall l : list str,
            NoDup (remove_dups l) /\ forall x, x ∈ remove_dups l <-> x ∈ l)
    as Hset.
  { intros l. split; [apply NoDup_remove_dups|].
    intros x. apply elem_of_remove_dups. }
  split; [exact Hset|].
  pose proof (detect_all_urls sample_validator (fun _ => false) sample_findall
                sample_qr_scan (fun _ => inr None) remove_dups
                (lit "poster.jpg") Hset) as Hall.
  fold (sample_detect_all (lit "poster.jpg")) in Hall.
  destruct (sample_detect_all (lit "poster.jpg")) as [qr_codes urls] eqn:Hd.
  destruct Hall as (-> & _ & _ & _). rewrite <- Hd. vm_compute. reflexivity.
Defined.

(** ** The analysis of a poster *)

Section analyzer_facts.
Context `{UnicodeData}.
Variable enable_web_scraping : bool.
Variable validators_url : str -> bool.
Variable path_exists : str -> bool.
Variable qr_detector_detect_all : str -> exn + (list str * list str).
Variable claude_analyze_poster :
  str -> list str -> list str -> option EventData.
Variable world : World.







(** *** Batches *)

Lemma foldl_successes {A B} (g : A -> exn + option B) (l : list A)
    (acc : list B) :
  foldl (fun acc result =>
           match result with
           | inr (Some y) => acc ++ [y]
           | _ => acc
           end) acc (g <$> l)
  = acc ++ omap (fun x => match g x with
                          | inr (Some y) => Some y
                          | _ => None
                          end) l.
Proof.
  revert acc. induction l as [|x l IH]; intros acc.
  - by rewrite app_nil_r.
  - cbn [fmap list_fmap foldl omap list_omap]. rewrite IH.
    destruct (g x) as [|[y|]]; [done| |done]. by rewrite <- app_assoc.
Qed.

Lemma omap_all_none {A B} (f : A -> option B) (l : list A) :
  Forall (fun x => f x = None) l -> omap f l = [].
Proof.
  induction 1 as [|x l Hx _ IH]; [done|].
  cbn [omap list_omap]. by rewrite Hx.
Qed.

Lemma omap_nil_inv {A B} (f : A -> option B) (l : list A) :
  omap f l = [] -> Forall (fun x => f x = None) l.
Proof.
  induction l as [|x l IH]; [constructor|]. simpl.
  destruct (f x) eqn:Hx; [done|]. intros ?. constructor; auto.
Qed.

(** Pairing the successes of a list with the list itself pairs each with
    its own item exactly when no failure comes before a success. *)
Lemma zip_successes {A B} (f : A -> option B) (l : list A) :
  NoDup l ->
  zip (omap f l) l = omap (fun x => (fun y => (y, x)) <$> f x) l
  <-> exists k,
        Forall (fun x => is_Some (f x)) (take k l)
        /\ Forall (fun x => f x = None) (drop k l).
Proof.
  intros Hnd. induction Hnd as [|x l Hx Hnd IH].
  { split; [|done]. intros _. exists 0%nat. by split. }
  cbn [omap list_omap]. destruct (f x) as [y|] eqn:Hfx.
  - cbn [fmap option_fmap option_map zip zip_with]. split.
    + intros [= Hzip]. apply IH in Hzip as (k & Ht & Hd).
      exists (S k). split; [|done]. constructor; [by rewrite Hfx|done].
    + intros ([|k] & Ht & Hd).
      * apply Forall_cons in Hd as [Hnone _]. congruence.
      * f_equal. apply IH. exists k. split; [|done].
        by apply Forall_cons in Ht as [_ ?].
  - cbn [fmap option_fmap option_map]. split.
    + intros Hzip. exists 0%nat. split; [constructor|].
      constructor; [done|]. apply omap_nil_inv.
      destruct (omap f l) as [|y ys] eqn:Hys; [done|]. exfalso.
      cbn [zip zip_with] in Hzip.
      assert ((y, x) ∈ omap (fun x0 => (fun y0 => (y0, x0)) <$> f x0) l)
        as Hin by (rewrite <- Hzip; left).
      apply list_elem_of_omap in Hin as (x' & Hx' & Heq).
      destruct (f x'); [|done]. by injection Heq as _ ->.
    + intros ([|k] & Ht & Hd).
      * apply Forall_cons in Hd as [_ Hd].
        rewrite (omap_all_none f l Hd). symmetry. apply omap_all_none.
        eapply Forall_impl; [exact Hd|]. by intros x' ->.
      * apply Forall_cons in Ht as [[? ?] _]. congruence.
Qed.

(** X15.  [analyze_multiple_posters] returns the records of the analyses
    that succeeded, in the order of the paths.  The export loop of
    [analyze_batch] pairs the k-th of these records with the k-th path: every
    record is exported under the path it was extracted from exactly when no
    failed analysis comes before a successful one. *)
Theorem batch_export_pairs (image_paths : list str) :
  NoDup image_paths ->
  let analysis (p : str) : option EventData :=
    match
      analyze_poster enable_web_scraping validators_url path_exists
        qr_detector_detect_all claude_analyze_poster world p
    with
    | inr (Some event_data) => Some event_data
    | _ => None
    end in
  let results :=
    analyze_multiple_posters enable_web_scraping validators_url path_exists
      qr_detector_detect_all claude_analyze_poster world image_paths in
  results = omap analysis image_paths
  /\ (length results <= length image_paths)%nat
  /\ (exported_pairs results image_paths
      = omap (fun p => (fun event => (event, p)) <$> analysis p) image_paths
      <-> exists k,
            Forall (fun p => is_Some (analysis p)) (take k image_paths)
            /\ Forall (fun p => analysis p = None) (drop k image_paths)).
Proof.
  intros Hnd analysis results.
  assert (results = omap analysis image_paths) as Hres.
  { subst results analysis. unfold analyze_multiple_posters. cbv zeta.
    apply (foldl_successes _ _ []). }
  split; [exact Hres|]. split.
  - rewrite Hres. apply omap_length_le.
  - unfold exported_pairs. rewrite Hres. by apply zip_successes.
Qed.
End analyzer_facts.

Lemma batch_export_pairs_witness :
  NoDup [lit "blank.jpg"; lit "poster.jpg"]
  /\ exists event,
       exported_pairs
         (@analyze_multiple_posters latin1 true sample_validator
            sample_path_exists (fun p => inr (sample_detect_all p))
            sample_extractor
            sample_world [lit "blank.jpg"; lit "poster.jpg"])
         [lit "blank.jpg"; lit "poster.jpg"]
       = [(event, lit "blank.jpg")]
       /\ veranstaltungsname event = lit "Rock Concert".
Proof.
  assert (NoDup [lit "blank.jpg"; lit "poster.jpg"]) as Hnd.
  { apply (bool_decide_unpack _). vm_compute. exact I. }
  split; [exact Hnd|].
  destruct (@batch_export_pairs latin1 true sample_validator
              sample_path_exists (fun p => inr (sample_detect_all p))
            sample_extractor
              sample_world [lit "blank.jpg"; lit "poster.jpg"] Hnd)
    as (Hres & _ & _).
  rewrite Hres. eexists. split; reflexivity.
Defined.

(** ** Enrichment with the pages of the given URLs *)

Lemma fill_str_steps_cases (offer : Scraped -> option str)
    (l : list Scraped) (x : option str) :
  steps (fill_str offer) x l = x
  \/ exists s v, s ∈ l /\ offer s = Some v
                 /\ steps (fill_str offer) x l = Some v.
Proof.
  revert x. induction l as [|s l IH]; intros x; [by left|].
  rewrite steps_cons.
  assert (fill_str offer s x = x
          \/ exists v, offer s = Some v /\ fill_str offer s x = Some v)
    as [->|(v & Hv & ->)].
  { unfold fill_str, fill. destruct (negb (truthy x)); [|by left].
    destruct (offer s) as [v|]; [right; by exists v|by left]. }
  - destruct (IH x) as [?|(s' & v & ? & ? & ?)]; [by left|right].
    exists s', v. split; [by right|done].
  - destruct (IH (Some v)) as [->|(s' & v' & ? & ? & ?)]; right.
    + exists s, v. split; [by left|done].
    + exists s', v'. split; [by right|done].
Qed.

Section enrichment_urls.
Context `{UnicodeData}.
Variable validators_url : str -> bool.
Variable session_get : str -> exn + Response.
Variable enter exit : bool.

(** X19.  Whatever the enrichment step adds to the sources and to the
    ticket links, and a website it sets, is one of the URLs it was given,
    and one that [validators.url] accepts; the confidence rises by at most
    [0.05] for each URL given. *)
Theorem enrichment_uses_given_urls (e : EventData) (urls : list str) :
  let world := scraping_world validators_url session_get enter exit in
  let enhanced := _enhance_with_web_scraping world e urls in
  let given (u : str) := u ∈ urls /\ validators_url u = true in
  (forall u, u ∈ quellen (metadaten enhanced) ->
             u ∈ quellen (metadaten e) \/ given u)
  /\ (forall u, u ∈ online_links (ticketinfo (metadaten enhanced)) ->
                u ∈ online_links (ticketinfo (metadaten e)) \/ given u)
  /\ (website (kontakt (metadaten enhanced)) = website (kontakt (metadaten e))
      \/ exists u, website (kontakt (metadaten enhanced)) = Some u /\ given u)
  /\ (confidence enhanced
      <= confidence e + (5 # 100) * inject_Z (Z.of_nat (length urls)))%Q.
Proof.
  intros world enhanced given.
  assert (0 <= (5 # 100) * inject_Z (Z.of_nat (length urls)))%Q as Hnonneg.
  { apply Qmult_le_0_compat; [lra|].
    change 0%Q with (inject_Z 0). rewrite <- Zle_Qle. lia. }
  assert (enhanced = e
          \/ exists c,
               enhanced
               = set_confidence c
                   (merge_steps e
                      (_scrape_urls validators_url session_get urls))
               /\ (c <= confidence e
                        + (5 # 100) * inject_Z (Z.of_nat (length urls)))%Q)
    as [->|(c & -> & Hc)].
  { subst enhanced. unfold _enhance_with_web_scraping, enhance_event_data.
    cbn [enter_raises scrape_urls exit_raises world scraping_world].
    destruct enter; [by left|]. destruct (negb (truthy urls)).
    { destruct exit; by left. }
    rewrite merge_scraped_data_closed. destruct exit; [by left|right].
    cbn zeta. set (sd := _scrape_urls validators_url session_get urls).
    rewrite merge_steps_confidence.
    destruct (truthy sd).
    - eexists; split; [reflexivity|].
      pose proof (py_min_le_r 1 (confidence e + source_bonus sd)) as H1.
      pose proof (py_min_le_r (2 # 10)
                    (inject_Z (Z.of_nat (length sd)) * (5 # 100))) as H2.
      fold (source_bonus sd) in H2.
      pose proof (scrape_urls_length validators_url session_get urls) as Hl.
      fold sd in Hl.
      assert (inject_Z (Z.of_nat (length sd))
              <= inject_Z (Z.of_nat (length urls)))%Q as Hq
        by (rewrite <- Zle_Qle; lia).
      lra.
    - exists (confidence e). split; [|lra].
      by rewrite <- (merge_steps_confidence sd e), set_confidence_same. }
  { split; [by left|]. split; [by left|]. split; [by left|lra]. }
  set (sd := _scrape_urls validators_url session_get urls).
  assert (forall s u, s ∈ sd -> url s = Some u -> given u) as Hgiven.
  { intros s u Hs Hu. apply scrape_urls_each in Hs as (u' & ? & ? & ? & _).
    by simplify_eq. }
  change (quellen (metadaten (set_confidence c ?x)))
    with (quellen (metadaten x)).
  change (online_links (ticketinfo (metadaten (set_confidence c ?x))))
    with (online_links (ticketinfo (metadaten x))).
  change (kontakt (metadaten (set_confidence c ?x)))
    with (kontakt (metadaten x)).
  rewrite merge_steps_quellen, merge_steps_online_links, merge_steps_kontakt,
    kontakt_steps. cbn [website].
  split; [|split; [|split; [|done]]].
  - destruct (steps_add_new url (quellen (metadaten e)) sd)
      as (new & Hsteps & _ & Hnew).
    change (steps quellen_rule (quellen (metadaten e)) sd
            = quellen (metadaten e) ++ new) in Hsteps.
    rewrite Hsteps. intros u [?|Hu]%elem_of_app; [by left|right].
    apply Hnew in Hu as [_ (s & Hs & Hurl)]. by eapply Hgiven.
  - destruct (steps_add_new
                (fun s => if mentions_tickets s then url s else None)
                (online_links (ticketinfo (metadaten e))) sd)
      as (new & Hsteps & _ & Hnew).
    rewrite (steps_ext links_rule
               (fun s y =>
                  match (if mentions_tickets s then url s else None) with
                  | Some u => add_new u y
                  | None => y
                  end))
      by (intros s y; unfold links_rule;
          by destruct (url s), (mentions_tickets s)).
    rewrite Hsteps. intros u [?|Hu]%elem_of_app; [by left|right].
    apply Hnew in Hu as [_ (s & Hs & Hurl)].
    destruct (mentions_tickets s); [by eapply Hgiven|done].
  - destruct (fill_str_steps_cases url sd (website (kontakt (metadaten e))))
      as [->|(s & u & Hs & Hu & ->)]; [by left|right].
    exists u. split; [done|]. by eapply Hgiven.
Qed.
End enrichment_urls.
